(** * N-shadows utilities of torch.ao.ns.fx: a shallow embedding

    Source: [torch/ao/ns/fx/n_shadows_utils.py].

    The development follows the file: first the Python values and signals
    the functions exchange, then [print_n_shadows_summary], then
    [_get_dedup_subgraphs] (over a store of list objects, because the
    function reverses the matcher's lists in place), then
    [create_submodule_from_subgraph] (a state machine over the unit under
    construction), and finally the theorems. *)

From Stdlib Require Import ZArith Floats.
From stdpp Require Import base option list gmap sets strings pretty.

Local Open Scope string_scope.
Local Open Scope list_scope.

#[local] Set Warnings "-register-all,-clear-no-such-hyp".

(** ** Signals and results *)

(** The message of an assertion.  [assert c] carries none; the raised
    [AssertionError]s of the extractor carry one of four texts. *)
Inductive AssertMsg :=
  | NoMsg
  | ArgNotHandledYet
  | OpNotSupportedYet
  | MoreThanOneUser
  | IterationLimitExceeded.

Inductive Exn :=
  | AssertionError (msg : AssertMsg)
  | IndexError
  | AttributeError
  | ValueError
  | TypeError
  | UnboundLocalError (var : string).

(** The outcome of a call: a value, or a raised signal. *)
Inductive Res (A : Type) :=
  | Ok (a : A)
  | Raise (e : Exn).
Arguments Ok {A} a.
Arguments Raise {A} e.

#[global] Instance res_bind : MBind Res := λ A B (k : A → Res B) (r : Res A),
  match r with
  | Ok a => k a
  | Raise e => Raise e
  end.

Definition py_assert (c : bool) (msg : AssertMsg) : Res unit :=
  if c then Ok tt else Raise (AssertionError msg).

(** [enumerate(l)] *)
Definition enumerate {A} (l : list A) : list (nat * A) :=
  zip (seq 0 (length l)) l.

(** ** print_n_shadows_summary *)

Module Summary.

(** [results_comparison], as [create_results_comparison] builds it. A dict is
    kept as the list of its items in iteration order. *)
Record Candidate := {
  qconfig_str : string;
  comparison_fn_name : string;
  cmp_raw : list float;
  cmp_mean : float;
}.

Record SubgraphData := {
  ref_node_name : string;
  candidates : list (string * Candidate);
}.

Definition ResultsComparison := list (string * SubgraphData).

(** One cell of a [data_row]: the row is a heterogeneous Python list. *)
Inductive Cell :=
  | CStr (s : string)
  | CNone
  | CInt (n : nat)
  | CFloat (f : float).

Definition Row := list Cell.

(** The optional formatter: [None] when [from tabulate import tabulate]
    raises [ImportError], the function otherwise. *)
Definition Tabulate := list Row → list string → string.

Definition remediation_message : string :=
  "`print_tabular` relies on the library `tabulate`, " +:+
  "which could not be found on this machine. Run `pip " +:+
  "install tabulate` to install the library.".

Definition sentinel : float := (-10000.0)%float.

(** [val > best_val] on floats. *)
Definition py_gt (x y : float) : bool := (y <? x)%float.

(** Lines 668-672: the scan for the top candidate. *)
Definition best_step (acc : float * option nat) (iv : nat * float)
  : float * option nat :=
  let '(best_val, best_candidate) := acc in
  let '(idx, val) := iv in
  if py_gt val best_val then (val, Some (idx + 1)) else (best_val, best_candidate).

Definition find_best (mean_all_candidates : list float) : option nat :=
  snd (foldl best_step (sentinel, None) (enumerate mean_all_candidates)).

Definition cell_of_best (b : option nat) : Cell :=
  match b with
  | Some i => CInt i
  | None => CNone
  end.

(** Lines 660-679: the row of one subgraph. *)
Definition mean_all_candidates (subgraph_data : SubgraphData) : list float :=
  (λ kv, cmp_mean kv.2) <$> candidates subgraph_data.

Definition data_row (subgraph_name : string) (subgraph_data : SubgraphData) : Row :=
  CStr subgraph_name
    :: CStr (ref_node_name subgraph_data)
    :: cell_of_best (find_best (mean_all_candidates subgraph_data))
    :: (CFloat <$> mean_all_candidates subgraph_data).

Definition rows (results_comparison : ResultsComparison) : list Row :=
  (λ kv, data_row kv.1 kv.2) <$> results_comparison.

(** [len(c)] of a cell. *)
Definition cell_len (c : Cell) : Res Z :=
  match c with
  | CStr s => Ok (Z.of_nat (String.length s))
  | _ => Raise TypeError
  end.

(** [data_row[1]] *)
Definition row_item1 (r : Row) : Res Cell :=
  match r !! 1 with
  | Some c => Ok c
  | None => Raise IndexError
  end.

(** Lines 682-684. *)
Fixpoint max_len_loop (results : list Row) (max_candidate_idx_len : Z) : Res Z :=
  match results with
  | [] => Ok max_candidate_idx_len
  | data_row :: rest =>
      c ← row_item1 data_row;
      n ← cell_len c;
      max_len_loop rest (Z.max max_candidate_idx_len n)
  end.

(** [range(n)] for an integer that may be negative. *)
Definition py_range (n : Z) : list nat := seq 0 (Z.to_nat n).

(** Line 685. *)
Definition candidate_idx_headers (max_candidate_idx_len : Z) : list string :=
  (λ x, pretty (x + 1)) <$> py_range max_candidate_idx_len.

Definition headers_of (results : list Row) : Res (list string) :=
  m ← max_len_loop results (-1);
  Ok ("subgraph_idx" :: "ref_node_name" :: "best_idx" :: candidate_idx_headers m).

(** The whole function: what it printed, and how it ended.  The failed
    import prints the message and execution goes on (lines 649-654); the rows
    and the headers are computed (lines 656-687); line 688 then calls
    [tabulate], a local name that only the successful import binds. *)
Definition print_n_shadows_summary (tabulate : option Tabulate)
    (results_comparison : ResultsComparison) : list string * Res unit :=
  let stdout :=
    match tabulate with
    | Some _ => []
    | None => [remediation_message]
    end in
  let results := rows results_comparison in
  match headers_of results with
  | Raise e => (stdout, Raise e)
  | Ok headers =>
      match tabulate with
      | Some tab => (stdout ++ [tab results headers], Ok tt)
      | None => (stdout, Raise (UnboundLocalError "tabulate"))
      end
  end.

(** The summary of the docstring: one subgraph, one candidate. *)
Definition docstring_input : ResultsComparison :=
  [("subgraph_0",
    {| ref_node_name := "linear1";
       candidates :=
         [("1", {| qconfig_str := "qconfig"; comparison_fn_name := "sqnr";
                   cmp_raw := [45.0%float; 55.0%float];
                   cmp_mean := 50.0%float |})] |})].

End Summary.

(** ** The traced graph *)

(** Modelled from the spec: a [torch.fx.Node], whose class is not in this
    file, is an operation of the traced graph with a name unique within the
    graph, an operation kind, a target, ordered positional arguments, keyword
    arguments and the set of nodes that consume it.  A node is an object
    compared by identity; its name stands for it here, and what the functions
    read of it ([op], [target], [args], [kwargs], [users]) is looked up in
    the graph. *)
Definition Node := string.

Inductive Op :=
  | placeholder
  | get_attr
  | call_function
  | call_method
  | call_module
  | output.

Inductive Callable :=
  | torch_add
  | torch_Tensor_add
  | operator_add
  | torch_mul
  | torch_Tensor_mul
  | operator_mul
  | other_callable (qualname : string).

(** A call_function target is a callable; the other operation kinds carry a
    string (a method name, or a qualified attribute path). *)
Inductive Target :=
  | TCallable (f : Callable)
  | TName (s : string).

(** An argument of a node: a reference to a node, a list or tuple of
    arguments, a [torch.nn.Parameter], a number, a dtype, or any other
    Python value, kept by the name of its type. *)
Inductive Arg :=
  | ANode (n : Node)
  | ASeq (items : list Arg)
  | AParameter (p : string)
  | AFloat (f : float)
  | AInt (z : Z)
  | ADtype (d : string)
  | AOther (type_name : string).

Record NodeData := {
  op : Op;
  target : Target;
  args : list Arg;
  kwargs : list (string * Arg);
  users : list Node;
}.

Definition FxGraph := Node → NodeData.

(** [l[0]] *)
Definition item0 {A} (l : list A) : Res A :=
  match l with
  | x :: _ => Ok x
  | [] => Raise IndexError
  end.

(** [d[k] = v] on a dict kept as its items in insertion order: an existing
    key keeps its place. *)
Fixpoint dict_set {V} (d : list (string * V)) (k : string) (v : V) : list (string * V) :=
  match d with
  | [] => [(k, v)]
  | (k', v') :: rest =>
      if decide (k' = k) then (k, v) :: rest else (k', v') :: dict_set rest k v
  end.

(** ** _get_dedup_subgraphs *)

Module Dedup.

(** An element of [cur_match[1]]: a node or a tuple of nodes. *)
Inductive Item :=
  | INode (n : Node)
  | ITuple (t : list Node).

#[global] Instance Item_eq_dec : EqDecision Item.
Proof. solve_decision. Defined.

(** The Python lists the function reads and writes are objects: the value of
    [cur_match[1]], the list [_order_nodes] returns and the values of the
    returned dict are references into a store.  A reference outside the store
    reads as an empty list. *)
Abbreviation Loc := nat (only parsing).
Abbreviation Store := (list (list Item)) (only parsing).

Definition deref (σ : Store) (l : Loc) : list Item := default [] (σ !! l).

(** Modelled from the spec: a [MatchResult], of
    [torch.ao.quantization.fx.match_utils], is a tuple of an anchor node, a
    match-shape value and two fields that this file never reads.  The
    match-shape value [cur_match[1]] is a list object. *)
Record MatchResult := {
  anchor : Node;
  pattern : Loc;
}.

(** [matches], as its items in insertion order. *)
Definition Matches := list (string * MatchResult).

(** Lines 106-108: every item is inserted at the front. *)
Definition matches_items_reversed (matches : Matches) : Matches :=
  foldl (λ acc kv, kv :: acc) [] matches.

(** Lines 130-132 and 139-141, for one node. *)
Definition see (st : bool * gset Node) (n : Node) : bool * gset Node :=
  let '(was_seen, seen_nodes) := st in
  ((if decide (n ∈ seen_nodes) then true else was_seen), seen_nodes ∪ {[n]}).

(** Lines 129-141, for one element of [cur_match[1]]. *)
Definition scan_item (st : bool * gset Node) (node_or_tuple : Item)
  : Res (bool * gset Node) :=
  match node_or_tuple with
  | INode n => Ok (see st n)
  | ITuple t =>
      match t with
      | _ :: _ :: _ => Ok (foldl see st t)
      | _ => Raise IndexError
      end
  end.

(** Lines 111-141. *)
Fixpoint scan (items : list Item) (st : bool * gset Node) : Res (bool * gset Node) :=
  match items with
  | [] => Ok st
  | it :: rest => st' ← scan_item st it; scan rest st'
  end.

(** [prev_n not in nodes]: an argument that is no node equals no node. *)
Definition arg_in_nodes (a : Arg) (nodes : list Item) : bool :=
  match a with
  | ANode p => bool_decide (INode p ∈ nodes)
  | _ => false
  end.

(** [a is n] for an argument [a] and a node [n]. *)
Definition arg_is (a : Arg) (n : Node) : bool :=
  match a with
  | ANode p => bool_decide (p = n)
  | _ => false
  end.

Record Roles := {
  first_node : option Node;
  mid_node : option Node;
  last_node : option Node;
}.

(** Lines 162-170: one round of the loop of [_order_nodes]. *)
Definition assign_role (G : FxGraph) (nodes : list Item) (r : Roles) (n : Item)
  : Res Roles :=
  match n with
  | ITuple _ => Raise AttributeError
  | INode n =>
      prev_n ← item0 (args (G n));
      next_n ← item0 (users (G n));
      if negb (arg_in_nodes prev_n nodes) then
        Ok {| first_node := Some n; mid_node := mid_node r; last_node := last_node r |}
      else if negb (bool_decide (INode next_n ∈ nodes)) then
        Ok {| first_node := first_node r; mid_node := mid_node r; last_node := Some n |}
      else
        Ok {| first_node := first_node r; mid_node := Some n; last_node := last_node r |}
  end.

Fixpoint assign_roles (G : FxGraph) (nodes : list Item) (todo : list Item) (r : Roles)
  : Res Roles :=
  match todo with
  | [] => Ok r
  | n :: rest => r' ← assign_role G nodes r n; assign_roles G nodes rest r'
  end.

(** Lines 157-175. *)
Definition _order_nodes (G : FxGraph) (node_a node_b node_c : Item) : Res (list Item) :=
  let nodes := [node_a; node_b; node_c] in
  r ← assign_roles G nodes nodes
         {| first_node := None; mid_node := None; last_node := None |};
  match first_node r, mid_node r, last_node r with
  | Some first_node, Some mid_node, Some last_node =>
      a ← item0 (args (G mid_node));
      _ ← py_assert (arg_is a first_node) NoMsg;
      b ← item0 (args (G last_node));
      _ ← py_assert (arg_is b mid_node) NoMsg;
      Ok [INode last_node; INode mid_node; INode first_node]
  | _, _, _ => Raise (AssertionError NoMsg)
  end.

(** [node_a, node_b = t] *)
Definition unpack2 (t : list Node) : Res (Node * Node) :=
  match t with
  | [a; b] => Ok (a, b)
  | _ => Raise ValueError
  end.

(** Lines 146-189: the list object that becomes [list_of_nodes], which is
    [cur_match[1]] itself in the one- and two-node cases and a new list in
    the three-node case. *)
Definition list_of_nodes (G : FxGraph) (σ : Store) (l : Loc) : Res (Loc * Store) :=
  let items := deref σ l in
  if decide (length items = 1) then Ok (l, σ)
  else
    _ ← py_assert (bool_decide (length items = 2)) NoMsg;
    match items with
    | [INode _; INode _] => Ok (l, σ)
    | [ITuple t; node_c] =>
        ab ← unpack2 t;
        let '(node_a, node_b) := (ab : Node * Node) in
        lst ← _order_nodes G (INode node_a) (INode node_b) node_c;
        Ok (length σ, (σ ++ [lst])%list)
    | [node_c; ITuple t] =>
        ab ← unpack2 t;
        let '(node_a, node_b) := (ab : Node * Node) in
        lst ← _order_nodes G (INode node_a) (INode node_b) node_c;
        Ok (length σ, (σ ++ [lst])%list)
    | _ => Raise (AssertionError NoMsg)
    end.

(** [lst.reverse()], in place. *)
Definition reverse_in_place (σ : Store) (l : Loc) : Store :=
  <[l := reverse (deref σ l)]> σ.

Record State := {
  seen_nodes : gset Node;
  subgraphs_dedup : list (string * Loc);
  store : Store;
}.

(** Lines 110-194: one round of the main loop. *)
Definition dedup_step (G : FxGraph) (st : State) (entry : string * MatchResult)
  : Res State :=
  let '(name, cur_match) := entry in
  scanned ← scan (deref (store st) (pattern cur_match)) (false, seen_nodes st);
  let '(was_seen, seen) := (scanned : bool * gset Node) in
  if was_seen then
    Ok {| seen_nodes := seen; subgraphs_dedup := subgraphs_dedup st; store := store st |}
  else
    lσ ← list_of_nodes G (store st) (pattern cur_match);
    let '(l, σ) := (lσ : Loc * Store) in
    Ok {| seen_nodes := seen;
          subgraphs_dedup := dict_set (subgraphs_dedup st) name l;
          store := reverse_in_place σ l |}.

Fixpoint dedup_loop (G : FxGraph) (entries : Matches) (st : State) : Res State :=
  match entries with
  | [] => Ok st
  | entry :: rest => st' ← dedup_step G st entry; dedup_loop G rest st'
  end.

(** The function: the returned dict, and the store it leaves behind. *)
Definition _get_dedup_subgraphs (G : FxGraph) (σ : Store) (matches : Matches)
  : Res (list (string * Loc) * Store) :=
  st ← dedup_loop G (matches_items_reversed matches)
         {| seen_nodes := ∅; subgraphs_dedup := []; store := σ |};
  Ok (subgraphs_dedup st, store st).

(** The returned dict as a caller reads it: every value dereferenced. *)
Definition read (σ : Store) (d : list (string * Loc)) : list (string * list Item) :=
  (λ kv, (kv.1, deref σ kv.2)) <$> d.

(** The nodes of an element and of a list. *)
Definition item_nodes (it : Item) : list Node :=
  match it with
  | INode n => [n]
  | ITuple t => t
  end.

Definition nodes_of (items : list Item) : list Node := items ≫= item_nodes.

(** [x] is a direct data dependency of [y]. *)
Definition depends_on (G : FxGraph) (y x : Node) : Prop := ANode x ∈ args (G y).

(** Each node of the list is a direct data dependency of the next one. *)
Definition dependency_chain (G : FxGraph) (L : list Item) : Prop :=
  ∀ i x y, L !! i = Some (INode x) → L !! S i = Some (INode y) → depends_on G y x.

(** What the loop keeps true of its state, for the initial store [σ0] and
    the entries [ms] of [matches]. *)
Inductive out_shape (G : FxGraph) (σ0 : Store) (ms : Matches)
    (name : string) (content : list Item) : Prop :=
  | shape_single x m :
      (name, m) ∈ ms → deref σ0 (pattern m) = [x] → content = [x] →
      out_shape G σ0 ms name content
  | shape_pair a b m :
      (name, m) ∈ ms → deref σ0 (pattern m) = [INode a; INode b] →
      content = [INode b; INode a] →
      out_shape G σ0 ms name content
  | shape_triple a b c m f mid t :
      (name, m) ∈ ms →
      deref σ0 (pattern m) = [ITuple [a; b]; INode c]
      ∨ deref σ0 (pattern m) = [INode c; ITuple [a; b]] →
      [f; mid; t] ≡ₚ [a; b; c] →
      item0 (args (G mid)) = Ok (ANode f) →
      item0 (args (G t)) = Ok (ANode mid) →
      content = [INode f; INode mid; INode t] →
      out_shape G σ0 ms name content.

Record dedup_inv (G : FxGraph) (σ0 : Store) (ms : Matches) (st : State) : Prop := {
  inv_nodup :
    NoDup (subgraphs_dedup st ≫= λ kv, nodes_of (deref (store st) kv.2));
  inv_seen : ∀ k l n,
    (k, l) ∈ subgraphs_dedup st → n ∈ nodes_of (deref (store st) l) →
    n ∈ seen_nodes st;
  inv_store : ∀ l,
    deref (store st) l = deref σ0 l
    ∨ (nodes_of (deref (store st) l) ≠ []
       ∧ ∀ n, n ∈ nodes_of (deref (store st) l) → n ∈ seen_nodes st);
  inv_shape : ∀ k l,
    (k, l) ∈ subgraphs_dedup st → out_shape G σ0 ms k (deref (store st) l);
}.

End Dedup.

(** ** Example graphs *)

Module Examples.
Import Dedup.

Definition leaf : NodeData :=
  {| op := placeholder; target := TName "x"; args := []; kwargs := []; users := [] |}.

(** [x -> conv -> bn -> relu -> out], the pattern of the comment at lines
    118-123. *)
Definition conv_bn_relu : FxGraph := λ n,
  if decide (n = "x") then
    {| op := placeholder; target := TName "x"; args := []; kwargs := [];
       users := ["conv"] |}
  else if decide (n = "conv") then
    {| op := call_module; target := TName "conv"; args := [ANode "x"]; kwargs := [];
       users := ["bn"] |}
  else if decide (n = "bn") then
    {| op := call_module; target := TName "bn"; args := [ANode "conv"]; kwargs := [];
       users := ["relu"] |}
  else if decide (n = "relu") then
    {| op := call_module; target := TName "relu"; args := [ANode "bn"]; kwargs := [];
       users := ["out"] |}
  else if decide (n = "out") then
    {| op := output; target := TName "output"; args := [ANode "relu"]; kwargs := [];
       users := [] |}
  else leaf.

(** One list object shared by the three entries, as the matcher records it. *)
Definition conv_bn_relu_store : Store :=
  [[ITuple ["bn"; "conv"]; INode "relu"]].

Definition conv_bn_relu_matches : Matches :=
  [("conv", {| anchor := "relu"; pattern := 0 |});
   ("bn", {| anchor := "relu"; pattern := 0 |});
   ("relu", {| anchor := "relu"; pattern := 0 |})].

(** [x -> linear -> relu -> out] *)
Definition linear_relu : FxGraph := λ n,
  if decide (n = "x") then
    {| op := placeholder; target := TName "x"; args := []; kwargs := [];
       users := ["linear"] |}
  else if decide (n = "linear") then
    {| op := call_module; target := TName "linear"; args := [ANode "x"]; kwargs := [];
       users := ["relu"] |}
  else if decide (n = "relu") then
    {| op := call_module; target := TName "relu"; args := [ANode "linear"]; kwargs := [];
       users := ["out"] |}
  else if decide (n = "out") then
    {| op := output; target := TName "output"; args := [ANode "relu"]; kwargs := [];
       users := [] |}
  else leaf.

(** The pair as the matcher gives it, last node first. *)
Definition linear_relu_store : Store := [[INode "relu"; INode "linear"]].

(** The same pair, first node first. *)
Definition linear_relu_store_chronological : Store := [[INode "linear"; INode "relu"]].

Definition linear_relu_matches : Matches :=
  [("linear", {| anchor := "relu"; pattern := 0 |});
   ("relu", {| anchor := "relu"; pattern := 0 |})].

End Examples.

(** ** create_submodule_from_subgraph *)

Module Extract.

(** Lines 28-35. *)
Definition BINARY_FUNCTIONS : list Callable :=
  [torch_add; torch_Tensor_add; operator_add; torch_mul; torch_Tensor_mul; operator_mul].

#[global] Instance Callable_eq_dec : EqDecision Callable.
Proof. solve_decision. Defined.

(** [target in BINARY_FUNCTIONS]: a string is no member of a set of
    functions. *)
Definition in_binary_functions (t : Target) : bool :=
  match t with
  | TCallable f => bool_decide (f ∈ BINARY_FUNCTIONS)
  | TName _ => false
  end.

(** A computation with loops runs on fuel: it finishes with a result, or the
    fuel runs out first. *)
Inductive Run (A : Type) :=
  | Finished (r : Res A)
  | OutOfFuel.
Arguments Finished {A} r.
Arguments OutOfFuel {A}.

#[global] Instance run_bind : MBind Run := λ A B (k : A → Run B) (m : Run A),
  match m with
  | Finished (Ok a) => k a
  | Finished (Raise e) => Finished (Raise e)
  | OutOfFuel => OutOfFuel
  end.

Definition ret {A} (a : A) : Run A := Finished (Ok a).
Definition raise {A} (e : Exn) : Run A := Finished (Raise e).

(** *** The unit under construction *)

(** Modelled from the spec: the unit under construction is a
    [torch.fx.GraphModule], a graph of nodes together with named attributes.

    An argument of a copied node: a node of the new graph (by its position
    in the graph), a list of arguments, or a value of the source graph
    carried over unchanged. *)
Inductive CArg :=
  | CNew (i : nat)
  | CSeq (items : list CArg)
  | CLit (a : Arg).

Record NewNode := {
  n_op : Op;
  n_target : Target;
  n_args : list CArg;
  n_kwargs : list (string * CArg);
}.

(** What [setattr(gm, mod_name, _)] stores: a deep copy of a module of the
    host model, or a detached clone of a parameter. *)
Inductive Attr :=
  | ModuleCopy (orig_mod : string)
  | TensorClone (p : string).

Record GraphModule := {
  gm_graph : list NewNode;
  gm_attrs : list (string * Attr);
}.

(** Modelled from the spec: the host model, of which the function reads
    only the module objects that [getattr_from_fqn] finds by qualified
    name. *)
Abbreviation Model := (gmap string string) (only parsing).

(** Modelled from the spec: [getattr_from_fqn(model, target)], of
    [torch.ao.quantization.utils], gives the module object the target refers
    to; a missing attribute, or a target that is no string, raises
    [AttributeError]. *)
Definition getattr_from_fqn (model : Model) (t : Target) : Res string :=
  match t with
  | TName fqn =>
      match model !! fqn with
      | Some orig_mod => Ok orig_mod
      | None => Raise AttributeError
      end
  | TCallable _ => Raise AttributeError
  end.

(** Modelled from the spec: the graph mutation primitives of [torch.fx.Graph]
    (create a placeholder, function-call, method-call or module-call node,
    declare the output node).  [g.placeholder(name)], [g.call_module],
    [g.call_function], [g.call_method] and [g.output] append a node to the
    graph and return it. *)
Definition g_placeholder (g : list NewNode) (cur_name : string) : list NewNode * nat :=
  (g ++ [{| n_op := placeholder; n_target := TName cur_name;
            n_args := []; n_kwargs := [] |}], length g).

Definition g_call (g : list NewNode) (o : Op) (t : Target)
    (a : list CArg) (kw : list (string * CArg)) : list NewNode * nat :=
  (g ++ [{| n_op := o; n_target := t; n_args := a; n_kwargs := kw |}], length g).

Definition g_output (g : list NewNode) (result : nat) : list NewNode :=
  g ++ [{| n_op := output; n_target := TName "output";
           n_args := [CNew result]; n_kwargs := [] |}].

(** *** _add_placeholder (lines 351-361) *)

(** [node.name + '_' + str(counter)] *)
Definition placeholder_name (node : Node) (counter : nat) : string :=
  node +:+ "_" +:+ pretty counter.

(** Lines 354-356: the loop that looks for an unused name. *)
Fixpoint find_counter (fuel : nat) (node : Node) (seen_names : gset string)
    (counter : nat) : Run nat :=
  if decide (placeholder_name node counter ∈ seen_names) then
    match fuel with
    | 0 => OutOfFuel
    | S fuel' => find_counter fuel' node seen_names (S counter)
    end
  else ret counter.

(** The graph, [seen_names] and [old_name_to_new_node], which
    [_add_placeholder] updates in place. *)
Record Inputs := {
  in_g : list NewNode;
  seen_names : gset string;
  old_name_to_new_node : list (string * nat);
}.

(** The loop runs once per member of [seen_names] at most, so that
    [size seen_names] is fuel enough (see [find_counter_finishes]). *)
Definition _add_placeholder (s : Inputs) (node : Node) : Run (Inputs * nat) :=
  counter ← find_counter (size (seen_names s)) node (seen_names s) 0;
  let cur_name := placeholder_name node counter in
  let '(g, p) := g_placeholder (in_g s) cur_name in
  ret ({| in_g := g;
          seen_names := seen_names s ∪ {[cur_name]};
          old_name_to_new_node := dict_set (old_name_to_new_node s) node p |}, p).

(** [_add_placeholder(g, v, ...)] for a value that may be no node:
    [v.name] raises for one that is none. *)
Definition add_placeholder_for (s : Inputs) (v : Arg) : Run (Inputs * nat) :=
  match v with
  | ANode n => _add_placeholder s n
  | _ => raise AttributeError
  end.

(** *** The first node (lines 346-405) *)

(** Lines 376-381. *)
Fixpoint copy_inner_args (inner : list Arg) (s : Inputs) (new_arg : list CArg)
  : Run (Inputs * list CArg) :=
  match inner with
  | [] => ret (s, new_arg)
  | inner_arg :: rest =>
      match inner_arg with
      | ANode n =>
          sp ← _add_placeholder s n;
          copy_inner_args rest sp.1 (new_arg ++ [CNew sp.2])
      | _ => copy_inner_args rest s (new_arg ++ [CLit inner_arg])
      end
  end.

(** Lines 366-385. *)
Fixpoint copy_first_args (todo : list Arg) (s : Inputs) (cur_args_copy : list CArg)
  : Run (Inputs * list CArg) :=
  match todo with
  | [] => ret (s, cur_args_copy)
  | arg :: rest =>
      match arg with
      | ANode n =>
          sp ← _add_placeholder s n;
          copy_first_args rest sp.1 (cur_args_copy ++ [CNew sp.2])
      | ASeq inner =>
          sn ← copy_inner_args inner s [];
          copy_first_args rest sn.1 (cur_args_copy ++ [CSeq sn.2])
      | _ => copy_first_args rest s (cur_args_copy ++ [CLit arg])
      end
  end.

(** Lines 397-400. *)
Fixpoint copy_inner_kwargs (inner : list Arg) (s : Inputs) (new_kwarg : list CArg)
  : Run (Inputs * list CArg) :=
  match inner with
  | [] => ret (s, new_kwarg)
  | inner_kwarg :: rest =>
      sp ← add_placeholder_for s inner_kwarg;
      copy_inner_kwargs rest sp.1 (new_kwarg ++ [CNew sp.2])
  end.

(** Lines 387-403. *)
Fixpoint copy_first_kwargs (todo : list (string * Arg)) (s : Inputs)
    (cur_kwargs_copy : list (string * CArg)) : Run (Inputs * list (string * CArg)) :=
  match todo with
  | [] => ret (s, cur_kwargs_copy)
  | (kwarg_name, kwarg) :: rest =>
      match kwarg with
      | ANode n =>
          sp ← _add_placeholder s n;
          copy_first_kwargs rest sp.1 (dict_set cur_kwargs_copy kwarg_name (CNew sp.2))
      | ASeq inner =>
          sn ← copy_inner_kwargs inner s [];
          copy_first_kwargs rest sn.1 (dict_set cur_kwargs_copy kwarg_name (CSeq sn.2))
      | _ => copy_first_kwargs rest s (dict_set cur_kwargs_copy kwarg_name (CLit kwarg))
      end
  end.

(** *** The loop (lines 341-469) *)

Definition iteration_limit : nat := 100.

Record WalkState := {
  cur_node_orig : Node;
  cur_name_idx : nat;
  cur_iteration : nat;
  cur_node_copy : option nat;
  cur_kwargs_copy : list (string * CArg);
  g : list NewNode;
  attrs : list (string * Attr);
}.

(** [f"mod_{cur_name_idx}"] *)
Definition mod_name (cur_name_idx : nat) : string := "mod_" +:+ pretty cur_name_idx.

(** Lines 423-434, for the arguments after the first.

    Modelled from the spec: [gm.placeholder(mod_name)] is a call on the
    [GraphModule], whose class is not in this file.  When the class offers
    the method ([gm_placeholder = true]) the parameter is, in the spec's
    words, registered as a new input placeholder bound to the cloned
    constant; when it does not, the attribute lookup raises. *)
Fixpoint copy_rest_args (gm_placeholder : bool) (todo : list Arg) (st : WalkState)
    (cur_args_copy : list CArg) : Res (WalkState * list CArg) :=
  match todo with
  | [] => Ok (st, cur_args_copy)
  | arg :: rest =>
      match arg with
      | AParameter p =>
          let name := mod_name (cur_name_idx st) in
          if gm_placeholder then
            let '(g', new_arg_placeholder) := g_placeholder (g st) name in
            copy_rest_args gm_placeholder rest
              {| cur_node_orig := cur_node_orig st; cur_name_idx := cur_name_idx st + 1;
                 cur_iteration := cur_iteration st; cur_node_copy := cur_node_copy st;
                 cur_kwargs_copy := cur_kwargs_copy st; g := g';
                 attrs := dict_set (attrs st) name (TensorClone p) |}
              (cur_args_copy ++ [CNew new_arg_placeholder])
          else Raise AttributeError
      | AFloat _ | AInt _ | ADtype _ =>
          copy_rest_args gm_placeholder rest st (cur_args_copy ++ [CLit arg])
      | _ => Raise (AssertionError ArgNotHandledYet)
      end
  end.

(** Lines 342-435: the arguments of the copy. *)
Definition copy_args (gm_placeholder : bool) (G : FxGraph) (first_node : Node)
    (st : WalkState) : Run (WalkState * list CArg) :=
  let n := cur_node_orig st in
  if decide (n = first_node) then
    sa ← copy_first_args (args (G n))
            {| in_g := g st; seen_names := ∅; old_name_to_new_node := [] |} [];
    sk ← copy_first_kwargs (kwargs (G n))
            {| in_g := in_g sa.1; seen_names := seen_names sa.1;
               old_name_to_new_node := old_name_to_new_node sa.1 |} [];
    ret ({| cur_node_orig := n; cur_name_idx := cur_name_idx st;
            cur_iteration := cur_iteration st; cur_node_copy := cur_node_copy st;
            cur_kwargs_copy := sk.2; g := in_g sk.1; attrs := attrs st |}, sa.2)
  else
    if in_binary_functions (target (G n)) then raise (AssertionError NoMsg)
    else
      match cur_node_copy st with
      | None => raise (UnboundLocalError "cur_node_copy")
      | Some prev =>
          Finished (copy_rest_args gm_placeholder (tail (args (G n))) st [CNew prev])
      end.

(** Lines 437-455: the copy of the node. *)
Definition copy_node (model : Model) (G : FxGraph) (st : WalkState)
    (cur_args_copy : list CArg) : Res WalkState :=
  let n := cur_node_orig st in
  match op (G n) with
  | call_module =>
      orig_mod ← getattr_from_fqn model (target (G n));
      let name := mod_name (cur_name_idx st) in
      let '(g', copy) :=
        g_call (g st) call_module (TName name) cur_args_copy (cur_kwargs_copy st) in
      Ok {| cur_node_orig := n; cur_name_idx := cur_name_idx st + 1;
            cur_iteration := cur_iteration st; cur_node_copy := Some copy;
            cur_kwargs_copy := cur_kwargs_copy st; g := g';
            attrs := dict_set (attrs st) name (ModuleCopy orig_mod) |}
  | call_function | call_method =>
      let '(g', copy) :=
        g_call (g st) (op (G n)) (target (G n)) cur_args_copy (cur_kwargs_copy st) in
      Ok {| cur_node_orig := n; cur_name_idx := cur_name_idx st;
            cur_iteration := cur_iteration st; cur_node_copy := Some copy;
            cur_kwargs_copy := cur_kwargs_copy st; g := g'; attrs := attrs st |}
  | _ => Raise (AssertionError OpNotSupportedYet)
  end.

(** Lines 471-475: the output node and the finished unit. *)
Definition finish (st : WalkState) : Res GraphModule :=
  match cur_node_copy st with
  | Some copy => Ok {| gm_graph := g_output (g st) copy; gm_attrs := attrs st |}
  | None => Raise (UnboundLocalError "cur_node_copy")
  end.

(** Lines 460-469: the step to the only user. *)
Definition go_to_next (G : FxGraph) (st : WalkState) : Res WalkState :=
  match users (G (cur_node_orig st)) with
  | [next] =>
      let st' :=
        {| cur_node_orig := next; cur_name_idx := cur_name_idx st;
           cur_iteration := cur_iteration st + 1; cur_node_copy := cur_node_copy st;
           cur_kwargs_copy := cur_kwargs_copy st; g := g st; attrs := attrs st |} in
      if decide (iteration_limit < cur_iteration st') then
        Raise (AssertionError IterationLimitExceeded)
      else Ok st'
  | _ => Raise (AssertionError MoreThanOneUser)
  end.

(** Lines 342-455: the copy of the current node. *)
Definition copy_current (gm_placeholder : bool) (model : Model) (G : FxGraph)
    (first_node : Node) (st : WalkState) : Run WalkState :=
  sa ← copy_args gm_placeholder G first_node st;
  Finished (copy_node model G sa.1 sa.2).

(** [while True:], one round per unit of fuel. *)
Fixpoint walk (fuel : nat) (gm_placeholder : bool) (model : Model) (G : FxGraph)
    (first_node last_node : Node) (st : WalkState) : Run GraphModule :=
  match fuel with
  | 0 => OutOfFuel
  | S fuel' =>
      st1 ← copy_current gm_placeholder model G first_node st;
      if decide (cur_node_orig st1 = last_node) then Finished (finish st1)
      else
        st2 ← Finished (go_to_next G st1);
        walk fuel' gm_placeholder model G first_node last_node st2
  end.

Definition create_submodule_from_subgraph (fuel : nat) (gm_placeholder : bool)
    (model : Model) (G : FxGraph) (first_node last_node : Node) : Run GraphModule :=
  walk fuel gm_placeholder model G first_node last_node
    {| cur_node_orig := first_node; cur_name_idx := 0; cur_iteration := 0;
       cur_node_copy := None; cur_kwargs_copy := []; g := []; attrs := [] |}.

(** *** Measures on units and chains *)

(** The input placeholders of a unit. *)
Definition is_placeholder (n : NewNode) : bool :=
  match n_op n with
  | placeholder => true
  | _ => false
  end.

Definition count_placeholders (g : list NewNode) : nat :=
  length (filter (λ n, is_placeholder n = true) g).

(** The occurrences of nodes in an argument: the argument itself, or the
    elements of a list or tuple. *)
Definition is_node (a : Arg) : bool :=
  match a with
  | ANode _ => true
  | _ => false
  end.

Definition node_occurrences (a : Arg) : nat :=
  match a with
  | ANode _ => 1
  | ASeq inner => length (filter (λ x, is_node x = true) inner)
  | _ => 0
  end.

Definition node_occurrences_of (d : NodeData) : nat :=
  sum_list (node_occurrences <$> args d)
  + sum_list ((λ kv, node_occurrences kv.2) <$> kwargs d).

(** The distinct nodes among the arguments. *)
Definition arg_nodes (a : Arg) : list Node :=
  match a with
  | ANode n => [n]
  | ASeq inner => inner ≫= (λ x, match x with ANode n => [n] | _ => [] end)
  | _ => []
  end.

Definition distinct_node_args (d : NodeData) : nat :=
  size (list_to_set (C := gset Node)
          ((args d ≫= arg_nodes) ++ (kwargs d ≫= λ kv, arg_nodes kv.2))).

(** The [torch.nn.Parameter]s among the arguments after the first. *)
Definition is_parameter (a : Arg) : bool :=
  match a with
  | AParameter _ => true
  | _ => false
  end.

Definition parameters_after_first (d : NodeData) : nat :=
  length (filter (λ a, is_parameter a = true) (tail (args d))).

(** The walk of the loop: the [k]-th node after [n], each step going to the
    first user. *)
Fixpoint nth_user (G : FxGraph) (n : Node) (k : nat) : option Node :=
  match k with
  | 0 => Some n
  | S k' =>
      match users (G n) with
      | next :: _ => nth_user G next k'
      | [] => None
      end
  end.

(** [n] is the [k]-th node of the chain from [first_node] to [last_node]. *)
Definition on_chain (G : FxGraph) (first_node last_node : Node) (k : nat) (n : Node)
  : Prop :=
  nth_user G first_node k = Some n
  ∧ ∀ j, j < k → nth_user G first_node j ≠ Some last_node.

(** The parameters among the later arguments of the [k] nodes after [n]. *)
Fixpoint later_parameters (G : FxGraph) (n : Node) (k : nat) : nat :=
  match k with
  | 0 => 0
  | S k' =>
      match users (G n) with
      | next :: _ => parameters_after_first (G next) + later_parameters G next k'
      | [] => 0
      end
  end.

End Extract.

Module ExtractExamples.
Import Extract.

(** [y = x + x]: the pattern of the comment at lines 367-369. *)
Definition x_plus_x : FxGraph := λ n,
  if decide (n = "x") then
    {| op := placeholder; target := TName "x"; args := []; kwargs := [];
       users := ["add"] |}
  else if decide (n = "add") then
    {| op := call_function; target := TCallable operator_add;
       args := [ANode "x"; ANode "x"]; kwargs := []; users := ["out"] |}
  else if decide (n = "out") then
    {| op := output; target := TName "output"; args := [ANode "add"]; kwargs := [];
       users := [] |}
  else Examples.leaf.

(** The host model of [Examples.linear_relu]. *)
Definition linear_relu_model : gmap string string :=
  {[ "linear" := "Linear(4, 4)"; "relu" := "ReLU()" ]}.

(** [x -> linear -> add(_, 1) -> out]: a binary function as second node. *)
Definition linear_add : FxGraph := λ n,
  if decide (n = "x") then
    {| op := placeholder; target := TName "x"; args := []; kwargs := [];
       users := ["linear"] |}
  else if decide (n = "linear") then
    {| op := call_module; target := TName "linear"; args := [ANode "x"]; kwargs := [];
       users := ["add"] |}
  else if decide (n = "add") then
    {| op := call_function; target := TCallable torch_add;
       args := [ANode "linear"; AInt 1]; kwargs := []; users := ["out"] |}
  else if decide (n = "out") then
    {| op := output; target := TName "output"; args := [ANode "add"]; kwargs := [];
       users := [] |}
  else Examples.leaf.

(** [x -> linear -> mul(_, w, 2.0)]: a parameter among the later arguments
    of the second node. *)
Definition linear_scale : FxGraph := λ n,
  if decide (n = "x") then
    {| op := placeholder; target := TName "x"; args := []; kwargs := [];
       users := ["linear"] |}
  else if decide (n = "linear") then
    {| op := call_module; target := TName "linear"; args := [ANode "x"]; kwargs := [];
       users := ["scale"] |}
  else if decide (n = "scale") then
    {| op := call_method; target := TName "mul";
       args := [ANode "linear"; AParameter "w"; AFloat 2%float]; kwargs := [];
       users := ["out"] |}
  else Examples.leaf.

(** Two method calls that use each other: a chain that never ends. *)
Definition cyclic : FxGraph := λ n,
  if decide (n = "a") then
    {| op := call_method; target := TName "relu"; args := [ANode "b"]; kwargs := [];
       users := ["b"] |}
  else if decide (n = "b") then
    {| op := call_method; target := TName "relu"; args := [ANode "a"]; kwargs := [];
       users := ["a"] |}
  else Examples.leaf.

End ExtractExamples.

From Stdlib Require Import Ascii.

(** ** Further signals *)

(** The functions that follow raise three kinds of signal beside those
    above: a missing dict key, [RuntimeError], and the end of an iterator. *)
Inductive Signal :=
  | Builtin (e : Exn)
  | KeyError (key : string)
  | RuntimeError
  | StopIteration.

Inductive Outcome (A : Type) :=
  | Returns (a : A)
  | Raises (s : Signal).
Arguments Returns {A} a.
Arguments Raises {A} s.

#[global] Instance outcome_bind : MBind Outcome := λ A B (k : A → Outcome B) (m : Outcome A),
  match m with
  | Returns a => k a
  | Raises s => Raises s
  end.

Definition of_res {A} (r : Res A) : Outcome A :=
  match r with
  | Ok a => Returns a
  | Raise e => Raises (Builtin e)
  end.

(** [for x in l: acc = f(acc, x)], where a round may raise. *)
Fixpoint for_each {A B} (f : B → A → Outcome B) (l : list A) (acc : B) : Outcome B :=
  match l with
  | [] => Returns acc
  | x :: rest => acc' ← f acc x; for_each f rest acc'
  end.

(** ** Dicts and strings *)

(** [d.get(k)] on a dict kept as its items. *)
Fixpoint dict_lookup {V} (d : list (string * V)) (k : string) : option V :=
  match d with
  | [] => None
  | (k', v) :: rest => if decide (k' = k) then Some v else dict_lookup rest k
  end.

(** [d[k]] *)
Definition dict_get {V} (d : list (string * V)) (k : string) : Outcome V :=
  match dict_lookup d k with
  | Some v => Returns v
  | None => Raises (KeyError k)
  end.

(** [s.split(sep)] for a separator of one character: the pieces between the
    occurrences of the separator, empty pieces included. *)
Fixpoint split_on (sep : ascii) (s : string) : list string :=
  match s with
  | EmptyString => [EmptyString]
  | String c rest =>
      if decide (c = sep) then EmptyString :: split_on sep rest
      else
        match split_on sep rest with
        | piece :: pieces => String c piece :: pieces
        | [] => [String c EmptyString]
        end
  end.

(** The number of occurrences of a character. *)
Fixpoint count_char (c : ascii) (s : string) : nat :=
  match s with
  | EmptyString => 0
  | String c' rest => (if decide (c' = c) then 1 else 0) + count_char c rest
  end.

(** ** Names (lines 24-41, 215) *)

Module Names.

Definition SHADOW_NODE_NAME_PREFIX : string := "shadow".
Definition SHADOW_WRAPPER_NODE_NAME_PREFIX : string := "shadow_wrapper".

(** Lines 37-38.  [f"{i}"] of an [int] is its decimal numeral. *)
Definition _get_attr_name (subgraph_idx subgraph_candidate_idx : Z) : string :=
  SHADOW_NODE_NAME_PREFIX +:+ "_" +:+ pretty subgraph_idx
    +:+ "_" +:+ pretty subgraph_candidate_idx.

(** Lines 40-41. *)
Definition _get_attr_wrapper_name (subgraph_idx subgraph_candidate_idx : Z) : string :=
  SHADOW_WRAPPER_NODE_NAME_PREFIX +:+ "_" +:+ pretty subgraph_idx
    +:+ "_" +:+ pretty subgraph_candidate_idx.

(** Line 215: the model name that [_get_logger_for_subgraph] gives the
    logger, under which calibration files the logger's results. *)
Definition model_name (subgraph_idx subgraph_candidate_idx : Z) : string :=
  "subgraph_" +:+ pretty subgraph_idx +:+ "_" +:+ pretty subgraph_candidate_idx.

End Names.

(** ** group_results_by_subgraph and create_results_comparison *)

Module Aggregate.

(** One record of a results list.  The records are dicts of the logger's
    fields, of which the function reads five; tensors are kept abstract. *)
Record LoggerResult (Tensor : Type) := {
  ref_node_name : string;
  values : list Tensor;
  qconfig_str : string;
  comparisons : list Tensor;
  comparison_fn_name : string;
}.
Arguments ref_node_name {Tensor} _.
Arguments values {Tensor} _.
Arguments qconfig_str {Tensor} _.
Arguments comparisons {Tensor} _.
Arguments comparison_fn_name {Tensor} _.

(** [results['model']['node_output']]: layer name to list of records. *)
Abbreviation NodeOutput Tensor :=
  (list (string * list (LoggerResult Tensor))) (only parsing).

(** [NSResultsType]: model name, then results type, then layer name. *)
Abbreviation NSResults Tensor :=
  (list (string * list (string * NodeOutput Tensor))) (only parsing).

(** The grouped results: subgraph name, then candidate index. *)
Abbreviation Grouped Tensor :=
  (list (string * list (string * LoggerResult Tensor))) (only parsing).

Section Aggregate.
Context {Tensor : Type}.

(** [a, b, c = l] *)
Definition unpack3 (l : list string) : Outcome (string * string * string) :=
  match l with
  | [a; b; c] => Returns (a, b, c)
  | _ => Raises (Builtin ValueError)
  end.

(** Line 546: [d[subgraph_name][subgraph_candidate_idx] = v] on a
    [defaultdict(dict)], where a missing [subgraph_name] is first bound to
    an empty dict. *)
Definition group_set (d : Grouped Tensor) (subgraph_name subgraph_candidate_idx : string)
    (v : LoggerResult Tensor) : Grouped Tensor :=
  let inner := default [] (dict_lookup d subgraph_name) in
  dict_set d subgraph_name (dict_set inner subgraph_candidate_idx v).

(** Lines 530-547: one round of the loop. *)
Definition group_step (subgraph_name_to_subgraph_results : Grouped Tensor)
    (entry : string * list (LoggerResult Tensor)) : Outcome (Grouped Tensor) :=
  let '(subgraph_name_with_idx, subgraph_candidate_results) := entry in
  parts ← unpack3 (split_on "_"%char subgraph_name_with_idx);
  let '(subgraph_str, subgraph_idx, subgraph_candidate_idx) :=
    (parts : string * string * string) in
  let subgraph_name := subgraph_str +:+ "_" +:+ subgraph_idx in
  r0 ← of_res (item0 subgraph_candidate_results);
  let subgraph_results :=
    {| ref_node_name := ref_node_name r0;
       values := values r0;
       qconfig_str := qconfig_str r0;
       comparisons := comparisons r0;
       comparison_fn_name := comparison_fn_name r0 |} in
  Returns (group_set subgraph_name_to_subgraph_results subgraph_name
             subgraph_candidate_idx subgraph_results).

(** Lines 528-549. *)
Definition group_results_by_subgraph (results : NSResults Tensor)
  : Outcome (Grouped Tensor) :=
  model ← dict_get results "model";
  node_output ← dict_get model "node_output";
  for_each group_step node_output [].

(** [torch.stack] and [torch.mean] are not of this file and are taken as
    parameters.  The stacked comparisons of a candidate are kept as the list
    of their values and the mean as a number, as [print_n_shadows_summary]
    reads them. *)
Context (torch_stack : list Tensor → Outcome (list float)).
Context (torch_mean : list float → Outcome float).

(** Lines 598-613: one round of the inner loop. *)
Definition candidate_step (candidates : list (string * Summary.Candidate))
    (entry : string * LoggerResult Tensor)
  : Outcome (list (string * Summary.Candidate)) :=
  let '(subgraph_inner_name, subgraph_inner_result) := entry in
  if decide (subgraph_inner_name = "0") then Returns candidates
  else
    let cmp_raw := comparisons subgraph_inner_result in
    cmp_raw_tensor ← torch_stack cmp_raw;
    cmp_mean ← torch_mean cmp_raw_tensor;
    Returns (dict_set candidates subgraph_inner_name
               {| Summary.qconfig_str := qconfig_str subgraph_inner_result;
                  Summary.comparison_fn_name := comparison_fn_name subgraph_inner_result;
                  Summary.cmp_raw := cmp_raw_tensor;
                  Summary.cmp_mean := cmp_mean |}).

(** Lines 595-618: one round of the outer loop. *)
Definition comparison_step (results_comparison : Summary.ResultsComparison)
    (entry : string * list (string * LoggerResult Tensor))
  : Outcome Summary.ResultsComparison :=
  let '(subgraph_name, subgraph_results) := entry in
  candidates ← for_each candidate_step subgraph_results [];
  baseline ← dict_get subgraph_results "0";
  Returns (dict_set results_comparison subgraph_name
             {| Summary.ref_node_name := ref_node_name baseline;
                Summary.candidates := candidates |}).

(** Lines 593-620. *)
Definition create_results_comparison (results_grouped : Grouped Tensor)
  : Outcome Summary.ResultsComparison :=
  for_each comparison_step results_grouped [].

(** *** Measures on grouped results *)

(** The candidate of a record whose comparisons stack to [raw] with mean
    [mean]. *)
Definition candidate_of (r : LoggerResult Tensor) (raw : list float)
    (mean : float) : Summary.Candidate :=
  {| Summary.qconfig_str := qconfig_str r;
     Summary.comparison_fn_name := comparison_fn_name r;
     Summary.cmp_raw := raw;
     Summary.cmp_mean := mean |}.

(** The comparisons of the record stack, and the stacked values have a
    mean. *)
Definition stacks (r : LoggerResult Tensor) (raw : list float) (mean : float) : Prop :=
  torch_stack (comparisons r) = Returns raw ∧ torch_mean raw = Returns mean.

Definition is_candidate_of (c : string * LoggerResult Tensor)
    (cand : string * Summary.Candidate) : Prop :=
  cand.1 = c.1 ∧ ∃ raw mean, stacks c.2 raw mean ∧ cand.2 = candidate_of c.2 raw mean.

(** The items of a subgraph other than the baseline. *)
Definition non_baseline (subgraph_results : list (string * LoggerResult Tensor))
  : list (string * LoggerResult Tensor) :=
  filter (λ c, c.1 ≠ "0") subgraph_results.

Definition is_comparison_of (g : string * list (string * LoggerResult Tensor))
    (r : string * Summary.SubgraphData) : Prop :=
  r.1 = g.1
  ∧ (∃ baseline, dict_lookup g.2 "0" = Some baseline
       ∧ Summary.ref_node_name r.2 = ref_node_name baseline)
  ∧ Forall2 is_candidate_of (non_baseline g.2) (Summary.candidates r.2).

(** Every candidate other than a baseline can be stacked and averaged. *)
Definition all_stack (results_grouped : Grouped Tensor) : Prop :=
  ∀ name inner k r, (name, inner) ∈ results_grouped → (k, r) ∈ inner → k ≠ "0" →
    ∃ raw mean, stacks r raw mean.

End Aggregate.

(** A dict of dicts: the keys are distinct at both levels. *)
Definition is_dict2 {V} (d : list (string * list (string * V))) : Prop :=
  NoDup d.*1 ∧ ∀ n inner, (n, inner) ∈ d → NoDup inner.*1.

(** [d[a][b]], read without raising. *)
Definition lookup2 {V} (d : list (string * list (string * V))) (a b : string)
  : option V :=
  inner ← dict_lookup d a; dict_lookup inner b.

(** The results that calibration files under the loggers' model names. *)
Definition logged {Tensor} (entries : list (Z * Z * list (LoggerResult Tensor)))
  : NSResults Tensor :=
  [("model",
    [("node_output",
      (λ e, (Names.model_name e.1.1 e.1.2, e.2)) <$> entries)])].

End Aggregate.

Module AggregateExamples.
Import Aggregate.

(** The baseline and one candidate of a subgraph, with scalar tensors. *)
Definition baseline_record : LoggerResult float :=
  {| ref_node_name := "linear1"; values := [1.0%float]; qconfig_str := "";
     comparisons := []; comparison_fn_name := "" |}.

Definition candidate_record : LoggerResult float :=
  {| ref_node_name := "linear1"; values := [1.5%float]; qconfig_str := "qconfig";
     comparisons := [45.0%float; 55.0%float]; comparison_fn_name := "sqnr" |}.

(** The keys [subgraph_0_0], [subgraph_0_1] and [subgraph_1_0]. *)
Definition node_output : NodeOutput float :=
  [("subgraph_0_0", [baseline_record]);
   ("subgraph_0_1", [candidate_record]);
   ("subgraph_1_0", [baseline_record])].

Definition model_results : list (string * NodeOutput float) :=
  [("node_output", node_output)].

Definition results : NSResults float := [("model", model_results)].

Definition grouped : Grouped float :=
  [("subgraph_0", [("0", baseline_record); ("1", candidate_record)]);
   ("subgraph_1", [("0", baseline_record)])].

(** A subgraph whose baseline is missing. *)
Definition grouped_without_baseline : Grouped float :=
  [("subgraph_0", [("1", candidate_record)])].

(** [torch.stack] on scalars, which refuses an empty list, and the mean of
    the stacked values. *)
Definition stack_scalars (tensors : list float) : Outcome (list float) :=
  match tensors with
  | [] => Raises RuntimeError
  | _ => Returns tensors
  end.

Definition mean_of (raw : list float) : Outcome float :=
  Returns (foldr PrimFloat.add 0%float raw
           / PrimFloat.of_uint63 (Uint63.of_Z (Z.of_nat (length raw))))%float.

Definition comparison : Summary.ResultsComparison :=
  [("subgraph_0",
    {| Summary.ref_node_name := "linear1";
       Summary.candidates :=
         [("1", {| Summary.qconfig_str := "qconfig";
                   Summary.comparison_fn_name := "sqnr";
                   Summary.cmp_raw := [45.0%float; 55.0%float];
                   Summary.cmp_mean := 50.0%float |})] |});
   ("subgraph_1",
    {| Summary.ref_node_name := "linear1"; Summary.candidates := [] |})].

(** The results of two subgraphs with two and one candidates, as the
    loggers file them. *)
Definition logged_entries : list (Z * Z * list (LoggerResult float)) :=
  [(0%Z, 0%Z, [baseline_record]);
   (0%Z, 1%Z, [candidate_record]);
   (1%Z, 0%Z, [baseline_record])].

End AggregateExamples.

(** ** The shape of an extracted unit *)

Module UnitShape.
Import Extract.

(** The node that [g.placeholder(cur_name)] appends. *)
Definition input_of (cur_name : string) : NewNode :=
  {| n_op := placeholder; n_target := TName cur_name; n_args := []; n_kwargs := [] |}.

(** The operations of a unit: its nodes other than the input placeholders,
    each with its position in the graph. *)
Definition body (g : list NewNode) : list (nat * NewNode) :=
  filter (λ pn, is_placeholder pn.2 = false) (enumerate g).

(** The first [k + 1] nodes of the walk from [n]. *)
Fixpoint chain (G : FxGraph) (n : Node) (k : nat) : list Node :=
  match k with
  | 0 => [n]
  | S k' =>
      n :: match users (G n) with
           | next :: _ => chain G next k'
           | [] => []
           end
  end.

(** [c] is the copy of the node [n]: the same operation kind, the keyword
    arguments [kw], and the same target, but for a module call, whose
    target is an attribute of the unit that holds a copy of the module. *)
Definition is_copy_of (model : gmap string string) (G : FxGraph)
    (attrs : list (string * Attr)) (kw : list (string * CArg))
    (n : Node) (c : NewNode) : Prop :=
  n_op c = op (G n)
  ∧ n_kwargs c = kw
  ∧ match op (G n) with
    | call_module =>
        ∃ name orig_mod, n_target c = TName name
          ∧ getattr_from_fqn model (target (G n)) = Ok orig_mod
          ∧ (name, ModuleCopy orig_mod) ∈ attrs
    | call_function | call_method => n_target c = target (G n)
    | _ => False
    end.

(** Each node of the list takes as its first argument the node before it,
    the first one the node at position [prev]. *)
Fixpoint linked (prev : nat) (l : list (nat * NewNode)) : Prop :=
  match l with
  | [] => True
  | (i, n) :: rest => (∃ others, n_args n = CNew prev :: others) ∧ linked i rest
  end.

(** The input placeholders [names] have been added between [s] and [s']:
    appended to the graph, recorded in [seen_names], pairwise distinct and
    none of them seen before. *)
Definition grows (s s' : Inputs) (names : list string) : Prop :=
  in_g s' = in_g s ++ (input_of <$> names)
  ∧ seen_names s' = seen_names s ∪ list_to_set names
  ∧ NoDup names
  ∧ ∀ name, name ∈ names → name ∉ seen_names s.

(** The attributes set so far are [mod_0 .. mod_{cur_name_idx - 1}]. *)
Definition attrs_below (st : WalkState) : Prop :=
  ∀ name a, (name, a) ∈ attrs st → ∃ j, (j < cur_name_idx st)%nat ∧ name = mod_name j.

(** The operation kinds that [create_submodule_from_subgraph] copies. *)
Definition supported (o : Op) : bool :=
  match o with
  | call_module | call_function | call_method => true
  | _ => false
  end.

End UnitShape.

Module UnitExamples.
Import Extract.

(** [x -> linear(x, bias=b) -> relu -> out], with a keyword argument on
    the first node only. *)
Definition linear_kw_relu : FxGraph := λ n,
  if decide (n = "linear") then
    {| op := call_module; target := TName "linear"; args := [ANode "x"];
       kwargs := [("bias", ANode "b")]; users := ["relu"] |}
  else if decide (n = "relu") then
    {| op := call_module; target := TName "relu"; args := [ANode "linear"]; kwargs := [];
       users := ["out"] |}
  else Examples.leaf.

(** The unit extracted from it, from [linear] to [relu]. *)
Definition linear_kw_relu_unit : GraphModule :=
  {| gm_graph :=
       [{| n_op := placeholder; n_target := TName "x_0"; n_args := []; n_kwargs := [] |};
        {| n_op := placeholder; n_target := TName "b_0"; n_args := []; n_kwargs := [] |};
        {| n_op := call_module; n_target := TName "mod_0"; n_args := [CNew 0];
           n_kwargs := [("bias", CNew 1)] |};
        {| n_op := call_module; n_target := TName "mod_1"; n_args := [CNew 2];
           n_kwargs := [("bias", CNew 1)] |};
        {| n_op := output; n_target := TName "output"; n_args := [CNew 3];
           n_kwargs := [] |}];
     gm_attrs := [("mod_0", ModuleCopy "Linear(4, 4)"); ("mod_1", ModuleCopy "ReLU()")] |}.

(** [x -> linear -> getattr -> out]: an attribute fetch on the chain. *)
Definition linear_get_attr : FxGraph := λ n,
  if decide (n = "linear") then
    {| op := call_module; target := TName "linear"; args := [ANode "x"]; kwargs := [];
       users := ["w"] |}
  else if decide (n = "w") then
    {| op := get_attr; target := TName "w"; args := []; kwargs := []; users := ["out"] |}
  else Examples.leaf.

(** [x -> linear -> (relu, sigmoid)]: the first node has two users. *)
Definition linear_fanout : FxGraph := λ n,
  if decide (n = "linear") then
    {| op := call_module; target := TName "linear"; args := [ANode "x"]; kwargs := [];
       users := ["relu"; "sigmoid"] |}
  else if decide (n = "relu") then
    {| op := call_module; target := TName "relu"; args := [ANode "linear"]; kwargs := [];
       users := [] |}
  else Examples.leaf.

End UnitExamples.

(** * Properties *)

(** ** The order of binary64 values

    [<?] and [<=?] are the IEEE comparisons: every comparison with a NaN is
    false.  The three facts below hold for all values, NaN included. *)

Section FloatOrder.
Implicit Types x y z : spec_float.

Local Ltac cmp_cases :=
  repeat match goal with
  | |- context [Z.compare ?a ?b] => destruct (Z.compare_spec a b)
  | H : context [Z.compare ?a ?b] |- _ => destruct (Z.compare_spec a b)
  | |- context [Pos.compare ?a ?b] => destruct (Pos.compare_spec a b)
  | H : context [Pos.compare ?a ?b] |- _ => destruct (Pos.compare_spec a b)
  end.

Local Ltac sf_order :=
  unfold SFltb, SFleb, SFcompare; intros;
  repeat match goal with
  | x : spec_float |- _ => destruct x
  | b : bool |- _ => destruct b
  end;
  simpl in *; try done;
  rewrite ?Pos.compare_cont_spec in *; simpl in *;
  cmp_cases; simpl in *; try done; try lia.

Lemma SFltb_trans x y z : SFltb x y = true → SFltb y z = true → SFltb x z = true.
Proof. sf_order. Qed.

Lemma SFltb_leb_trans x y z : SFltb x y = true → SFleb y z = true → SFltb x z = true.
Proof. sf_order. Qed.

Lemma SFleb_not_ltb x y : SFleb x y = true → SFltb y x = false.
Proof. sf_order. Qed.

Lemma SFleb_refl_of_ltb x y : SFltb x y = true → SFleb y y = true.
Proof. sf_order. Qed.
End FloatOrder.

Lemma float_ltb_trans (a b c : float) :
  (a <? b)%float = true → (b <? c)%float = true → (a <? c)%float = true.
Proof. rewrite !ltb_spec. apply SFltb_trans. Qed.

Lemma float_ltb_leb_trans (a b c : float) :
  (a <? b)%float = true → (b <=? c)%float = true → (a <? c)%float = true.
Proof. rewrite !ltb_spec, leb_spec. apply SFltb_leb_trans. Qed.

Lemma float_leb_not_ltb (a b : float) :
  (a <=? b)%float = true → (b <? a)%float = false.
Proof. rewrite ltb_spec, leb_spec. apply SFleb_not_ltb. Qed.

Lemma float_ltb_not_leb (a b : float) :
  (a <? b)%float = true → (b <=? a)%float = false.
Proof.
  intros Hlt. destruct (b <=? a)%float eqn:Hle; [|done].
  apply float_leb_not_ltb in Hle. congruence.
Qed.

Lemma float_ltb_irrefl (a : float) : (a <? a)%float = false.
Proof.
  destruct (a <? a)%float eqn:Hlt; [|done].
  assert ((a <=? a)%float = true) as Hle.
  { rewrite leb_spec. rewrite ltb_spec in Hlt. by eapply SFleb_refl_of_ltb. }
  apply float_leb_not_ltb in Hle. congruence.
Qed.

Lemma float_ltb_asym (a b : float) : (a <? b)%float = true → (b <? a)%float = false.
Proof.
  intros Hab. destruct (b <? a)%float eqn:Hba; [|done].
  pose proof (float_ltb_trans _ _ _ Hab Hba) as Haa.
  rewrite float_ltb_irrefl in Haa. done.
Qed.

(** ** print_n_shadows_summary *)

Module SummaryFacts.
Import Summary.

(** The scan from an arbitrary start: either nothing beats the running best,
    or the result is the first position holding a greatest value. *)
Lemma best_scan (l : list float) : ∀ k b bc,
  let r := foldl best_step (b, bc) (zip (seq k (length l)) l) in
  (r = (b, bc) ∧ ∀ w, w ∈ l → py_gt w b = false)
  ∨ (∃ i v, r = (v, Some (k + i + 1)) ∧ l !! i = Some v ∧ py_gt v b = true
       ∧ (∀ j w, l !! j = Some w → py_gt w v = false)
       ∧ (∀ j w, j < i → l !! j = Some w → (v <=? w)%float = false)).
Proof.
  induction l as [|x l IH]; intros k b bc; cbn [length seq zip_with foldl].
  { left. split; [done|]. intros w Hw. by apply elem_of_nil in Hw. }
  assert (best_step (b, bc) (k, x)
          = if (b <? x)%float then (x, Some (k + 1)) else (b, bc)) as -> by done.
  unfold py_gt in *.
  destruct (b <? x)%float eqn:Hx.
  - destruct (IH (S k) x (Some (k + 1))) as [[Hr Hall]|(i & v & Hr & Hi & Hv & Hmax & Hfst)].
    + right. exists 0, x. rewrite Hr. split_and!; try done.
      * do 2 f_equal. lia.
      * intros [|j] w Hw; simpl in Hw.
        -- injection Hw as <-. apply float_ltb_irrefl.
        -- apply Hall. by eapply list_elem_of_lookup_2.
      * intros j w Hj. lia.
    + right. exists (S i), v. rewrite Hr. split_and!; try done.
      * do 2 f_equal. lia.
      * by eapply float_ltb_trans.
      * intros [|j] w Hw; simpl in Hw.
        -- injection Hw as <-. by apply float_ltb_asym.
        -- by eapply Hmax.
      * intros [|j] w Hj Hw; simpl in Hw.
        -- injection Hw as <-. by apply float_ltb_not_leb.
        -- eapply Hfst; [|done]. lia.
  - destruct (IH (S k) b bc) as [[Hr Hall]|(i & v & Hr & Hi & Hv & Hmax & Hfst)].
    + left. split; [done|]. intros w Hw. apply elem_of_cons in Hw as [->|Hw]; auto.
    + right. exists (S i), v. rewrite Hr. split_and!; try done.
      * do 2 f_equal. lia.
      * intros [|j] w Hw; simpl in Hw.
        -- injection Hw as <-. destruct (v <? x)%float eqn:Hvw; [|done].
           pose proof (float_ltb_trans _ _ _ Hv Hvw). congruence.
        -- by eapply Hmax.
      * intros [|j] w Hj Hw; simpl in Hw.
        -- injection Hw as <-. destruct (v <=? x)%float eqn:Hvw; [|done].
           pose proof (float_ltb_leb_trans _ _ _ Hv Hvw). congruence.
        -- eapply Hfst; [|done]. lia.
Qed.

Lemma max_len_loop_rows (rc : ResultsComparison) : ∀ m,
  max_len_loop (rows rc) m
  = Ok (foldl (λ acc kv, Z.max acc (Z.of_nat (String.length (ref_node_name kv.2)))) m rc).
Proof. induction rc as [|[name sd] rc IH]; intros m; simpl; [done|]. apply IH. Qed.

(** C1. Without the formatter the function prints the remediation message
    and then raises: the final [tabulate(results, headers=headers)] reads the
    local name that the failed import never bound, for every input. *)
Theorem print_without_tabulate_raises (results_comparison : ResultsComparison) :
  print_n_shadows_summary None results_comparison
  = ([remediation_message], Raise (UnboundLocalError "tabulate")).
Proof.
  unfold print_n_shadows_summary, headers_of.
  by rewrite max_len_loop_rows.
Qed.

(** C5. The candidate headers are [1 .. n] where [n] is the greatest length
    of a [ref_node_name] string ([data_row[1]]), not the greatest candidate
    count: for the docstring's input, with one candidate and the reference
    node [linear1], the headers run from 1 to 7. *)
Theorem headers_follow_ref_node_name :
  (∀ rc, headers_of (rows rc)
     = Ok ("subgraph_idx" :: "ref_node_name" :: "best_idx"
           :: candidate_idx_headers
                (foldl (λ acc kv, Z.max acc (Z.of_nat (String.length (ref_node_name kv.2))))
                   (-1)%Z rc)))
  ∧ (length <$> (candidates <$> (snd <$> docstring_input))) = [1]
  ∧ headers_of (rows docstring_input)
    = Ok ["subgraph_idx"; "ref_node_name"; "best_idx";
          "1"; "2"; "3"; "4"; "5"; "6"; "7"].
Proof.
  split_and!; [|done|by vm_compute].
  intros rc. unfold headers_of. by rewrite max_len_loop_rows.
Qed.

(** C6, as stated, fails: a single candidate whose mean is -20000.0 has the
    highest mean of its subgraph, and no candidate is selected. *)
Lemma find_best_below_sentinel :
  [(-20000.0)%float] !! 0 = Some (-20000.0)%float
  ∧ (∀ w, w ∈ [(-20000.0)%float] → (w <=? -20000.0)%float = true)
  ∧ find_best [(-20000.0)%float] ≠ Some 1.
Proof.
  split_and!; [done| |by vm_compute].
  intros w Hw. apply list_elem_of_singleton in Hw as ->. by vm_compute.
Qed.

(** C6, amended. When some candidate's mean is greater than the sentinel
    -10000.0, the selected index is the 1-based position of a candidate such
    that no candidate has a greater mean and no earlier candidate has an
    equal or greater one; for the means 50.0, 62.0, 30.0 it is 2. *)
Theorem find_best_first_highest :
  (∀ means : list float,
     (∃ v, v ∈ means ∧ py_gt v sentinel = true) →
     ∃ i v, find_best means = Some (i + 1) ∧ means !! i = Some v
       ∧ py_gt v sentinel = true
       ∧ (∀ j w, means !! j = Some w → py_gt w v = false)
       ∧ (∀ j w, j < i → means !! j = Some w → (v <=? w)%float = false))
  ∧ find_best [50.0%float; 62.0%float; 30.0%float] = Some 2.
Proof.
  split; [|by vm_compute].
  intros means (v0 & Hin & Hgt). unfold find_best, enumerate.
  destruct (best_scan means 0 sentinel None) as [[_ Hall]|(i & v & Hr & Hi & Hv & Hmax & Hfst)].
  { rewrite Hall in Hgt; done. }
  exists i, v. rewrite Hr. split_and!; done.
Qed.

Lemma find_best_first_highest_witness :
  ∃ i v, find_best [5.0%float; 7.0%float; 7.0%float] = Some (i + 1)
    ∧ [5.0%float; 7.0%float; 7.0%float] !! i = Some v
    ∧ py_gt v sentinel = true
    ∧ (∀ j w, [5.0%float; 7.0%float; 7.0%float] !! j = Some w → py_gt w v = false)
    ∧ (∀ j w, j < i → [5.0%float; 7.0%float; 7.0%float] !! j = Some w
         → (v <=? w)%float = false).
Proof.
  apply (proj1 find_best_first_highest [5.0%float; 7.0%float; 7.0%float]).
  exists 7.0%float. split; [|by vm_compute].
  apply elem_of_cons. right. apply elem_of_cons. by left.
Defined.

(** C10. A subgraph without candidates, or all of whose candidate means are
    at most the sentinel -10000.0, gets [None] as its best index. *)
Theorem best_index_none_at_sentinel (subgraph_name : string) (sd : SubgraphData) :
  candidates sd = []
  ∨ (∀ c, c ∈ candidates sd → (cmp_mean c.2 <=? sentinel)%float = true) →
  find_best (mean_all_candidates sd) = None
  ∧ data_row subgraph_name sd !! 2 = Some CNone.
Proof.
  intros H.
  assert (∀ w, w ∈ mean_all_candidates sd → py_gt w sentinel = false) as Hall.
  { intros w Hw. unfold mean_all_candidates in Hw.
    apply list_elem_of_fmap in Hw as (c & -> & Hc).
    destruct H as [Hnil|Hle]; [rewrite Hnil in Hc; by apply elem_of_nil in Hc|].
    unfold py_gt. by apply float_leb_not_ltb, Hle. }
  assert (find_best (mean_all_candidates sd) = None) as Hnone.
  { unfold find_best, enumerate.
    destruct (best_scan (mean_all_candidates sd) 0 sentinel None)
      as [[Hr _]|(i & v & _ & Hi & Hv & _)].
    - by rewrite Hr.
    - rewrite Hall in Hv; [done|]. by eapply list_elem_of_lookup_2. }
  split; [done|]. unfold data_row. simpl. by rewrite Hnone.
Qed.

Lemma best_index_none_at_sentinel_witness :
  find_best (mean_all_candidates
    {| ref_node_name := "linear1";
       candidates := [("1", {| qconfig_str := "q"; comparison_fn_name := "sqnr";
                               cmp_raw := [(-10000.0)%float];
                               cmp_mean := (-10000.0)%float |})] |}) = None
  ∧ data_row "subgraph_0"
      {| ref_node_name := "linear1";
         candidates := [("1", {| qconfig_str := "q"; comparison_fn_name := "sqnr";
                                 cmp_raw := [(-10000.0)%float];
                                 cmp_mean := (-10000.0)%float |})] |} !! 2 = Some CNone.
Proof.
  apply best_index_none_at_sentinel. right.
  intros c Hc. apply list_elem_of_singleton in Hc as ->. by vm_compute.
Defined.

End SummaryFacts.

(** ** _get_dedup_subgraphs *)

Section DictSet.
Context {V B : Type}.
Implicit Types (d : list (string * V)) (f : string * V → list B).

Lemma elem_of_dict_set d k v x : x ∈ dict_set d k v → x = (k, v) ∨ x ∈ d.
Proof.
  induction d as [|[k' v'] d IH]; simpl.
  - intros ->%list_elem_of_singleton. by left.
  - case_decide as Hk.
    + intros [->|Hx]%elem_of_cons; [by left|]. right. by apply elem_of_cons; right.
    + intros [->|Hx]%elem_of_cons.
      * right. by apply elem_of_cons; left.
      * destruct (IH Hx) as [->|Hd]; [by left|]. right. by apply elem_of_cons; right.
Qed.

Lemma dict_set_bind_NoDup f d k v :
  NoDup (d ≫= f) → NoDup (f (k, v)) →
  (∀ x b, x ∈ d → b ∈ f x → b ∉ f (k, v)) →
  NoDup (dict_set d k v ≫= f).
Proof.
  induction d as [|[k' v'] d IH]; simpl; intros Hd Hnew Hdisj.
  - rewrite app_nil_r. done.
  - apply NoDup_app in Hd as (Hhd & Hsep & Htl).
    case_decide as Hk; simpl; apply NoDup_app.
    + split_and!; [done| |done].
      intros b Hb (x & Hbx & Hx)%list_elem_of_bind.
      eapply (Hdisj x b); [|done..]. by apply elem_of_cons; right.
    + split_and!; [done| |].
      * intros b Hb (x & Hbx & Hx)%list_elem_of_bind.
        apply elem_of_dict_set in Hx as [->|Hx].
        -- eapply (Hdisj (k', v') b); [|done..]. by apply elem_of_cons; left.
        -- eapply Hsep; [done|]. apply list_elem_of_bind. eauto.
      * apply IH; [done..|]. intros x b Hx. apply Hdisj. by apply elem_of_cons; right.
Qed.
End DictSet.

Module DedupFacts.
Import Dedup.

Lemma foldl_see t : ∀ ws s ws' s',
  foldl see (ws, s) t = (ws', s') →
  s' = s ∪ list_to_set t
  ∧ (ws' = false → ws = false ∧ NoDup t ∧ ∀ n, n ∈ t → n ∉ s).
Proof.
  induction t as [|n t IH]; intros ws s ws' s'; simpl.
  - intros [= -> ->]. split; [set_solver|]. intros Hf. split_and!; [done|constructor|].
    intros n Hn. by apply elem_of_nil in Hn.
  - intros H. apply IH in H as [-> Hws]. split; [set_solver|].
    intros Hf. destruct (Hws Hf) as (Hdec & Hnd & Hfresh).
    case_decide as Hn; [done|]. split_and!; [done| |].
    + constructor; [|done]. intros Hin. apply Hfresh in Hin. set_solver.
    + intros n' [->|Hn']%elem_of_cons; [done|]. apply Hfresh in Hn'. set_solver.
Qed.

Lemma scan_spec items : ∀ ws s ws' s',
  scan items (ws, s) = Ok (ws', s') →
  s' = s ∪ list_to_set (nodes_of items)
  ∧ (items ≠ [] → nodes_of items ≠ [])
  ∧ (ws' = false → ws = false ∧ NoDup (nodes_of items) ∧ ∀ n, n ∈ nodes_of items → n ∉ s).
Proof.
  induction items as [|it items IH]; intros ws s ws' s'; simpl.
  - intros [= -> ->]. split_and!; [set_solver|done|]. intros Hf.
    split_and!; [done|constructor|]. intros n Hn. by apply elem_of_nil in Hn.
  - destruct (scan_item (ws, s) it) as [[ws1 s1]|] eqn:Hit; simpl; [|done].
    intros H. apply IH in H as (-> & _ & Hws).
    assert (foldl see (ws, s) (item_nodes it) = (ws1, s1) ∧ item_nodes it ≠ []) as [Hsee Hne].
    { destruct it as [n|t]; simpl in *; [by injection Hit as <- <-|].
      destruct t as [|? [|? ?]]; simplify_eq; done. }
    apply foldl_see in Hsee as [-> Hws1].
    unfold nodes_of. simpl. fold (nodes_of items).
    split_and!.
    + rewrite list_to_set_app_L. set_solver.
    + intros _ Hnil. by apply app_eq_nil in Hnil as [? _].
    + intros Hf. destruct (Hws Hf) as (Hws1f & Hnd & Hfresh).
      destruct (Hws1 Hws1f) as (Hwsf & Hnd1 & Hfresh1).
      split_and!; [done| |].
      * apply NoDup_app. split_and!; [done| |done].
        intros n Hn Hn'. apply Hfresh in Hn'. set_solver.
      * intros n [Hn|Hn]%elem_of_app; [by apply Hfresh1|].
        apply Hfresh in Hn. set_solver.
Qed.

Lemma arg_is_true a n : arg_is a n = true → a = ANode n.
Proof. destruct a; simpl; try done. by intros ->%bool_decide_eq_true. Qed.

Lemma perm3 {A} (x y z : A) :
  [x; z; y] ≡ₚ [x; y; z] ∧ [y; x; z] ≡ₚ [x; y; z] ∧ [y; z; x] ≡ₚ [x; y; z]
  ∧ [z; x; y] ≡ₚ [x; y; z] ∧ [z; y; x] ≡ₚ [x; y; z].
Proof.
  assert ([x; z; y] ≡ₚ [x; y; z]) as H1 by (apply perm_skip, perm_swap).
  assert ([y; x; z] ≡ₚ [x; y; z]) as H2 by apply perm_swap.
  split_and!; [done|done| | |].
  - etrans; [apply perm_skip, perm_swap|]. apply perm_swap.
  - etrans; [apply perm_swap|]. apply perm_skip, perm_swap.
  - etrans; [apply perm_swap|]. etrans; [apply perm_skip, perm_swap|]. apply perm_swap.
Qed.

(** [_order_nodes] returns its three nodes, last one first, and has checked
    the two links of the chain. *)
Lemma order_nodes_spec G a b c lst :
  _order_nodes G (INode a) (INode b) c = Ok lst →
  ∃ c' f m t, c = INode c' ∧ lst = [INode t; INode m; INode f]
    ∧ [f; m; t] ≡ₚ [a; b; c']
    ∧ item0 (args (G m)) = Ok (ANode f)
    ∧ item0 (args (G t)) = Ok (ANode m).
Proof.
  unfold _order_nodes, assign_roles, assign_role. intros H.
  destruct c as [c'|t]; simpl in H.
  2: { repeat match type of H with
       | context [item0 ?l] => destruct (item0 l) eqn:?; simpl in H; [|done]
       | context [negb ?b] => destruct b eqn:?; simpl in H
       end; done. }
  repeat match type of H with
  | context [item0 ?l] => destruct (item0 l) eqn:?; simpl in H; [|done]
  | context [negb ?b] => destruct b eqn:?; simpl in H
  | context [py_assert ?b _] => destruct b eqn:?; simpl in H; [|done]
  end; try done.
  all: injection H as <-.
  all: repeat match goal with
  | Ha : arg_is _ _ = true |- _ => apply arg_is_true in Ha; subst
  end.
  all: destruct (perm3 a b c') as (P1' & P2' & P3' & P4' & P5').
  all: eexists _, _, _, _; split_and!; try done.
Qed.

(** *** The store *)

Lemma deref_nonempty_lt (σ : Store) l : deref σ l ≠ [] → l < length σ.
Proof.
  unfold deref. destruct (σ !! l) eqn:Hl; simpl; [|done].
  intros _. by eapply lookup_lt_Some.
Qed.

Lemma deref_insert_eq (σ : Store) l v : l < length σ → deref (<[l:=v]> σ) l = v.
Proof. intros Hl. unfold deref. by rewrite list_lookup_insert_eq. Qed.

Lemma deref_insert_ne (σ : Store) l l' v : l ≠ l' → deref (<[l:=v]> σ) l' = deref σ l'.
Proof. intros Hl. unfold deref. by rewrite list_lookup_insert_ne. Qed.

Lemma deref_app_eq (σ : Store) v : deref (σ ++ [v]) (length σ) = v.
Proof. unfold deref. by rewrite list_lookup_middle. Qed.

Lemma deref_app_ne (σ : Store) v l : l ≠ length σ → deref (σ ++ [v]) l = deref σ l.
Proof.
  intros Hl. unfold deref. destruct (decide (l < length σ)).
  - by rewrite lookup_app_l.
  - rewrite !lookup_ge_None_2; [done|lia|]. rewrite length_app. simpl. lia.
Qed.

Lemma nodes_of_reverse items : nodes_of (reverse items) ≡ₚ nodes_of items.
Proof.
  unfold nodes_of. induction items as [|it items IH]; [done|].
  rewrite reverse_cons, bind_app, bind_cons, IH. simpl.
  rewrite app_nil_r. apply Permutation_app_comm.
Qed.

Lemma bind_ext_in {A B} (f g : A → list B) (l : list A) :
  (∀ x, x ∈ l → f x = g x) → l ≫= f = l ≫= g.
Proof.
  induction l as [|x l IH]; intros H; [done|].
  rewrite !bind_cons, H, IH; [done| |by apply elem_of_cons; left].
  intros y Hy. apply H. by apply elem_of_cons; right.
Qed.

Lemma out_shape_nonempty G σ0 ms k content : out_shape G σ0 ms k content → content ≠ [].
Proof. destruct 1; by subst. Qed.

(** *** The invariant *)

Lemma dedup_inv_init G σ0 ms :
  dedup_inv G σ0 ms {| seen_nodes := ∅; subgraphs_dedup := []; store := σ0 |}.
Proof.
  split; simpl.
  - constructor.
  - intros k l n Hin. by apply elem_of_nil in Hin.
  - intros l. by left.
  - intros k l Hin. by apply elem_of_nil in Hin.
Qed.

Lemma dedup_inv_skip G σ0 ms st seen :
  dedup_inv G σ0 ms st → seen_nodes st ⊆ seen →
  dedup_inv G σ0 ms
    {| seen_nodes := seen; subgraphs_dedup := subgraphs_dedup st; store := store st |}.
Proof.
  intros [Hnd Hseen Hstore Hshape] Hsub. split; simpl; [done| | |done].
  - intros k l n Hin Hn. apply Hsub. by eapply Hseen.
  - intros l. destruct (Hstore l) as [?|[? Hall]]; [by left|].
    right. split; [done|]. intros n Hn. by apply Hsub, Hall.
Qed.

(** An accepted entry: the list object [l], which no earlier entry of the
    result refers to, now holds [content], whose nodes are new. *)
Lemma dedup_inv_accept G σ0 ms st name l content σ' seen' :
  dedup_inv G σ0 ms st →
  seen' = seen_nodes st ∪ list_to_set (nodes_of content) →
  (∀ l', l' ≠ l → deref σ' l' = deref (store st) l') →
  deref σ' l = content →
  (∀ k, (k, l) ∉ subgraphs_dedup st) →
  NoDup (nodes_of content) → nodes_of content ≠ [] →
  (∀ n, n ∈ nodes_of content → n ∉ seen_nodes st) →
  out_shape G σ0 ms name content →
  dedup_inv G σ0 ms
    {| seen_nodes := seen';
       subgraphs_dedup := dict_set (subgraphs_dedup st) name l;
       store := σ' |}.
Proof.
  intros [Hnd Hseen Hstore Hshape] -> Hother Hl Hnotin Hnew Hne Hfresh Hsh.
  assert (∀ k l1, (k, l1) ∈ subgraphs_dedup st → deref σ' l1 = deref (store st) l1) as Hold.
  { intros k l1 Hin. apply Hother. intros ->. by eapply Hnotin. }
  split; simpl.
  - apply dict_set_bind_NoDup; simpl.
    + erewrite bind_ext_in; [exact Hnd|]. intros [k l1] Hin. simpl. by erewrite Hold.
    + by rewrite Hl.
    + intros [k l1] n Hin. simpl. rewrite Hl. erewrite Hold by done.
      intros Hn Hn'. eapply Hfresh; [done|]. by eapply Hseen.
  - intros k l1 n [[= -> ->]|Hin]%elem_of_dict_set.
    + rewrite Hl. set_solver.
    + erewrite Hold by done. intros Hn. apply elem_of_union; left. by eapply Hseen.
  - intros l1. destruct (decide (l1 = l)) as [->|Hne1].
    + right. rewrite Hl. split; [done|]. set_solver.
    + rewrite Hother by done. destruct (Hstore l1) as [?|[? Hall]]; [by left|].
      right. split; [done|]. intros n Hn. apply elem_of_union; left. by apply Hall.
  - intros k l1 [[= -> ->]|Hin]%elem_of_dict_set.
    + by rewrite Hl.
    + erewrite Hold by done. by apply Hshape.
Qed.

Lemma fresh_not_seen (nodes : list Node) (seen : gset Node) :
  nodes ≠ [] → (∀ n, n ∈ nodes → n ∉ seen) → (∀ n, n ∈ nodes → n ∈ seen) → False.
Proof.
  destruct nodes as [|n nodes]; [done|]. intros _ Hfresh Hseen.
  apply (Hfresh n); [|apply Hseen]; by apply elem_of_cons; left.
Qed.

(** The one- and two-node cases: [cur_match[1]] itself is reversed and
    recorded. *)
Lemma dedup_inv_in_place G σ0 ms st name m items :
  dedup_inv G σ0 ms st → (name, m) ∈ ms →
  items = deref (store st) (pattern m) →
  (∃ x, items = [x]) ∨ (∃ a b, items = [INode a; INode b]) →
  nodes_of items ≠ [] → NoDup (nodes_of items) →
  (∀ n, n ∈ nodes_of items → n ∉ seen_nodes st) →
  dedup_inv G σ0 ms
    {| seen_nodes := seen_nodes st ∪ list_to_set (nodes_of items);
       subgraphs_dedup := dict_set (subgraphs_dedup st) name (pattern m);
       store := reverse_in_place (store st) (pattern m) |}.
Proof.
  intros Hinv Hm Hitems Hcase Hne Hnd Hfresh.
  assert (pattern m < length (store st)) as Hlt.
  { apply deref_nonempty_lt. rewrite <-Hitems. by intros ->. }
  assert (deref (store st) (pattern m) = deref σ0 (pattern m)) as Horig.
  { destruct (inv_store _ _ _ _ Hinv (pattern m)) as [?|[_ Hall]]; [done|].
    rewrite <-Hitems in Hall. by destruct (fresh_not_seen _ _ Hne Hfresh Hall). }
  eapply (dedup_inv_accept _ _ _ _ _ _ (reverse items)); try done.
  - by rewrite nodes_of_reverse.
  - intros l' Hl'. unfold reverse_in_place. by rewrite deref_insert_ne.
  - unfold reverse_in_place. rewrite deref_insert_eq by done. by rewrite Hitems.
  - intros k Hk. eapply (fresh_not_seen _ _ Hne Hfresh).
    intros n Hn. eapply (inv_seen _ _ _ _ Hinv); [done|]. by rewrite <-Hitems.
  - by rewrite nodes_of_reverse.
  - intros Hnil. apply Hne. pose proof (nodes_of_reverse items) as HP.
    rewrite Hnil in HP. by apply Permutation_nil in HP.
  - intros n Hn. apply Hfresh. by rewrite <-(nodes_of_reverse items).
  - rewrite <-Hitems in Horig.
    destruct Hcase as [[x ->]|(a & b & ->)].
    + by eapply shape_single.
    + by eapply shape_pair.
Qed.

(** The three-node case: a new list object is recorded. *)
Lemma dedup_inv_new_list G σ0 ms st name m items a b c f mid t :
  dedup_inv G σ0 ms st → (name, m) ∈ ms →
  items = deref (store st) (pattern m) →
  items = [ITuple [a; b]; INode c] ∨ items = [INode c; ITuple [a; b]] →
  NoDup (nodes_of items) →
  (∀ n, n ∈ nodes_of items → n ∉ seen_nodes st) →
  [f; mid; t] ≡ₚ [a; b; c] →
  item0 (args (G mid)) = Ok (ANode f) →
  item0 (args (G t)) = Ok (ANode mid) →
  dedup_inv G σ0 ms
    {| seen_nodes := seen_nodes st ∪ list_to_set (nodes_of items);
       subgraphs_dedup := dict_set (subgraphs_dedup st) name (length (store st));
       store := reverse_in_place (store st ++ [[INode t; INode mid; INode f]])
                  (length (store st)) |}.
Proof.
  intros Hinv Hm Hitems Hcase Hnd Hfresh Hperm Hmid Ht.
  assert (nodes_of items ≡ₚ [f; mid; t]) as Hnodes.
  { rewrite Hperm. destruct Hcase as [->| ->]; simpl; [done|].
    by destruct (perm3 a b c) as (_ & _ & _ & -> & _). }
  assert (nodes_of items ≠ []) as Hne.
  { intros Hnil. rewrite Hnil in Hnodes. by apply Permutation_nil_cons in Hnodes. }
  assert (deref (store st) (pattern m) = deref σ0 (pattern m)) as Horig.
  { destruct (inv_store _ _ _ _ Hinv (pattern m)) as [?|[_ Hall]]; [done|].
    rewrite <-Hitems in Hall. by destruct (fresh_not_seen _ _ Hne Hfresh Hall). }
  eapply (dedup_inv_accept _ _ _ _ _ _ [INode f; INode mid; INode t]); try done.
  - simpl. by rewrite Hnodes.
  - intros l' Hl'. unfold reverse_in_place.
    rewrite deref_insert_ne by done. by rewrite deref_app_ne.
  - unfold reverse_in_place. rewrite deref_insert_eq.
    + by rewrite deref_app_eq.
    + rewrite length_app. simpl. lia.
  - intros k Hk. apply (inv_shape _ _ _ _ Hinv) in Hk.
    apply out_shape_nonempty, deref_nonempty_lt in Hk. lia.
  - simpl. by rewrite <-Hnodes.
  - intros n Hn. apply Hfresh. by rewrite Hnodes.
  - rewrite <-Hitems in Horig. eapply shape_triple; try done.
    rewrite <-Horig. done.
Qed.

Lemma dedup_step_inv G σ0 ms st name m st' :
  dedup_inv G σ0 ms st → (name, m) ∈ ms →
  dedup_step G st (name, m) = Ok st' →
  dedup_inv G σ0 ms st'.
Proof.
  intros Hinv Hm. unfold dedup_step.
  destruct (scan _ _) as [[ws seen]|] eqn:Hscan; simpl; [|done].
  apply scan_spec in Hscan as (-> & Hne & Hws). destruct ws.
  { intros [= <-]. apply dedup_inv_skip; [done|set_solver]. }
  destruct (Hws eq_refl) as (_ & Hnd & Hfresh).
  destruct (list_of_nodes _ _ _) as [[l σ]|] eqn:Hlist; simpl; [|done].
  intros [= <-]. unfold list_of_nodes in Hlist.
  remember (deref (store st) (pattern m)) as items eqn:Hitems.
  case_decide as Hlen.
  { injection Hlist as <- <-.
    destruct items as [|x [|??]]; try done.
    eapply dedup_inv_in_place; eauto. }
  destruct items as [|i1 [|i2 [|??]]]; try done.
  destruct i1 as [a|t], i2 as [b|t2]; simpl in Hlist.
  - injection Hlist as <- <-. eapply dedup_inv_in_place; eauto.
  - destruct t2 as [|a' [|b' [|??]]]; simpl in Hlist; try done.
    destruct (_order_nodes _ _ _ _) as [lst|] eqn:Hord; simpl in Hlist; [|done].
    injection Hlist as <- <-.
    apply order_nodes_spec in Hord as (c' & f & mid & tl & [= <-] & -> & Hperm & Hmid & Htl).
    eapply dedup_inv_new_list; eauto.
  - destruct t as [|a' [|b' [|??]]]; simpl in Hlist; try done.
    destruct (_order_nodes _ _ _ _) as [lst|] eqn:Hord; simpl in Hlist; [|done].
    injection Hlist as <- <-.
    apply order_nodes_spec in Hord as (c' & f & mid & tl & [= <-] & -> & Hperm & Hmid & Htl).
    eapply dedup_inv_new_list; eauto.
  - destruct t as [|a' [|b' [|??]]]; simpl in Hlist; try done.
    destruct (_order_nodes _ _ _ _) as [lst|] eqn:Hord; simpl in Hlist; [|done].
    by apply order_nodes_spec in Hord as (c' & ? & ? & ? & ? & _).
Qed.

Lemma elem_of_matches_items_reversed (ms : Matches) e :
  e ∈ matches_items_reversed ms → e ∈ ms.
Proof.
  unfold matches_items_reversed.
  assert (∀ acc, e ∈ foldl (λ acc kv, kv :: acc) acc ms → e ∈ acc ∨ e ∈ ms) as H.
  { induction ms as [|kv ms IH]; intros acc; simpl; [by left|].
    intros [[->|?]%elem_of_cons|?]%IH.
    - right. by apply elem_of_cons; left.
    - by left.
    - right. by apply elem_of_cons; right. }
  intros [Hnil|?]%H; [|done]. by apply elem_of_nil in Hnil.
Qed.

Lemma dedup_loop_inv G σ0 ms entries : ∀ st st',
  dedup_inv G σ0 ms st → (∀ e, e ∈ entries → e ∈ ms) →
  dedup_loop G entries st = Ok st' →
  dedup_inv G σ0 ms st'.
Proof.
  induction entries as [|[name m] entries IH]; intros st st' Hinv Hsub.
  - by intros [= <-].
  - cbn [dedup_loop].
    destruct (dedup_step G st (name, m)) as [st1|] eqn:Hstep; simpl; [|done].
    apply IH.
    + eapply dedup_step_inv; [done| |done]. apply Hsub. by apply elem_of_cons; left.
    + intros e He. apply Hsub. by apply elem_of_cons; right.
Qed.

(** What holds of every successful call. *)
Lemma dedup_final_inv G σ ms out σ' :
  _get_dedup_subgraphs G σ ms = Ok (out, σ') →
  ∃ seen, dedup_inv G σ ms {| seen_nodes := seen; subgraphs_dedup := out; store := σ' |}.
Proof.
  unfold _get_dedup_subgraphs.
  destruct (dedup_loop _ _ _) as [st|] eqn:Hloop; simpl; [|done].
  intros [= <- <-]. exists (seen_nodes st).
  apply dedup_loop_inv with (σ0 := σ) (ms := ms) in Hloop.
  - by destruct st.
  - apply dedup_inv_init.
  - apply elem_of_matches_items_reversed.
Qed.

Lemma read_bind (σ : Store) (d : list (string * Loc)) :
  read σ d ≫= (λ kv, nodes_of kv.2) = d ≫= (λ kv, nodes_of (deref σ kv.2)).
Proof.
  unfold read. induction d as [|kv d IH]; [done|].
  rewrite fmap_cons, !bind_cons, IH. done.
Qed.

Lemma elem_of_read (σ : Store) (d : list (string * Loc)) k L :
  (k, L) ∈ read σ d → ∃ l, (k, l) ∈ d ∧ L = deref σ l.
Proof.
  unfold read. intros ([k' l] & [= -> ->] & Hin)%list_elem_of_fmap. eauto.
Qed.

Lemma NoDup_bind_lookup {A B} (f : A → list B) (l : list A) : ∀ i j x y n,
  NoDup (l ≫= f) → l !! i = Some x → l !! j = Some y →
  n ∈ f x → n ∈ f y → i = j.
Proof.
  induction l as [|z l IH]; intros i j x y n Hnd Hi Hj Hx Hy; [done|].
  rewrite bind_cons in Hnd. apply NoDup_app in Hnd as (_ & Hsep & Hnd).
  destruct i as [|i], j as [|j]; simpl in *; simplify_eq; [done| | |].
  - exfalso. eapply Hsep; [done|]. apply list_elem_of_bind.
    exists y. split; [done|]. by eapply list_elem_of_lookup_2.
  - exfalso. eapply Hsep; [done|]. apply list_elem_of_bind.
    exists x. split; [done|]. by eapply list_elem_of_lookup_2.
  - f_equal. by eapply IH.
Qed.

Lemma item0_head {A} (l : list A) x : item0 l = Ok x → x ∈ l.
Proof. destruct l; [done|]. intros [= ->]. by apply elem_of_cons; left. Qed.

(** C2. A second call on the same [matches] does not return what the first
    one returned.  The pair [relu, linear] of the matcher is reversed in
    place by the first call, which returns [linear, relu]; the second call
    finds the reversed list and returns [relu, linear].  Both returned dicts
    hold the same list object. *)
Theorem dedup_twice_differs :
  _get_dedup_subgraphs Examples.linear_relu Examples.linear_relu_store
      Examples.linear_relu_matches
    = Ok ([("relu", 0)], [[INode "linear"; INode "relu"]])
  ∧ _get_dedup_subgraphs Examples.linear_relu [[INode "linear"; INode "relu"]]
      Examples.linear_relu_matches
    = Ok ([("relu", 0)], [[INode "relu"; INode "linear"]])
  ∧ read [[INode "linear"; INode "relu"]] [("relu", 0)]
    ≠ read [[INode "relu"; INode "linear"]] [("relu", 0)].
Proof. split_and!; [by vm_compute..|]. by intros [=]. Qed.

(** C3. In the result of a successful call no node occurs twice: not within
    a list, and not in two lists; and every returned list holds exactly the
    nodes of the entry of [matches] recorded under its key. *)
Theorem dedup_each_node_in_one_list G σ ms out σ' :
  _get_dedup_subgraphs G σ ms = Ok (out, σ') →
  NoDup (read σ' out ≫= λ kv, nodes_of kv.2)
  ∧ (∀ i j k1 L1 k2 L2 n,
       read σ' out !! i = Some (k1, L1) → read σ' out !! j = Some (k2, L2) →
       n ∈ nodes_of L1 → n ∈ nodes_of L2 → i = j)
  ∧ (∀ k L, (k, L) ∈ read σ' out →
       ∃ m, (k, m) ∈ ms ∧ nodes_of L ≡ₚ nodes_of (deref σ (pattern m))).
Proof.
  intros [seen Hinv]%dedup_final_inv.
  assert (NoDup (read σ' out ≫= λ kv, nodes_of kv.2)) as Hnd.
  { rewrite read_bind. apply (inv_nodup _ _ _ _ Hinv). }
  split_and!; [done| |].
  - intros i j k1 L1 k2 L2 n Hi Hj Hn1 Hn2.
    by eapply (NoDup_bind_lookup (λ kv, nodes_of kv.2) _ _ _ (k1, L1) (k2, L2)).
  - intros k L (l & Hin & ->)%elem_of_read.
    pose proof (inv_shape _ _ _ _ Hinv k l Hin) as Hsh. simpl in Hsh.
    destruct Hsh
      as [x m Hm Horig ->|a b m Hm Horig ->|a b c m f mid t Hm Horig Hperm _ _ ->];
      exists m; (split; [done|]); simpl in *.
    + by rewrite Horig.
    + rewrite Horig. simpl. apply perm_swap.
    + rewrite Hperm. destruct Horig as [-> | ->]; simpl; [done|].
      by destruct (perm3 a b c) as (_ & _ & _ & -> & _).
Qed.

Lemma dedup_each_node_in_one_list_witness :
  NoDup (read [[ITuple ["bn"; "conv"]; INode "relu"];
               [INode "conv"; INode "bn"; INode "relu"]] [("relu", 1)]
           ≫= λ kv, nodes_of kv.2)
  ∧ (∀ i j k1 L1 k2 L2 n,
       read [[ITuple ["bn"; "conv"]; INode "relu"];
             [INode "conv"; INode "bn"; INode "relu"]] [("relu", 1)] !! i
         = Some (k1, L1) →
       read [[ITuple ["bn"; "conv"]; INode "relu"];
             [INode "conv"; INode "bn"; INode "relu"]] [("relu", 1)] !! j
         = Some (k2, L2) →
       n ∈ nodes_of L1 → n ∈ nodes_of L2 → i = j)
  ∧ (∀ k L,
       (k, L) ∈ read [[ITuple ["bn"; "conv"]; INode "relu"];
                      [INode "conv"; INode "bn"; INode "relu"]] [("relu", 1)] →
       ∃ m, (k, m) ∈ Examples.conv_bn_relu_matches
         ∧ nodes_of L ≡ₚ nodes_of (deref Examples.conv_bn_relu_store (pattern m))).
Proof.
  apply (dedup_each_node_in_one_list Examples.conv_bn_relu).
  by vm_compute.
Defined.

(** C9, as stated, fails: for the pair [linear, relu], given first node
    first, the call succeeds and returns [relu, linear], and [relu] is not
    among the arguments of [linear]. *)
Lemma dedup_pair_not_chronological :
  _get_dedup_subgraphs Examples.linear_relu Examples.linear_relu_store_chronological
      Examples.linear_relu_matches
    = Ok ([("relu", 0)], [[INode "relu"; INode "linear"]])
  ∧ (2 ≤ length [INode "relu"; INode "linear"])%nat
  ∧ ¬ dependency_chain Examples.linear_relu [INode "relu"; INode "linear"].
Proof.
  split_and!; [by vm_compute|simpl; lia|].
  intros Hchain. specialize (Hchain 0 "relu" "linear" eq_refl eq_refl).
  unfold depends_on in Hchain. vm_compute in Hchain.
  by apply list_elem_of_singleton in Hchain.
Qed.

(** C9, amended. In the result of a successful call, a list of at least two
    nodes is either the reverse of the pair of nodes given under its key,
    which is a dependency chain exactly when the second node of the given
    pair is an argument of its first, or a list [first, mid, last] of three
    nodes where the first argument of [mid] is [first] and the first argument
    of [last] is [mid]. *)
Theorem dedup_list_order G σ ms out σ' :
  _get_dedup_subgraphs G σ ms = Ok (out, σ') →
  ∀ k L, (k, L) ∈ read σ' out → (2 ≤ length L)%nat →
    (∃ a b m, (k, m) ∈ ms ∧ deref σ (pattern m) = [INode a; INode b]
       ∧ L = [INode b; INode a]
       ∧ (dependency_chain G L ↔ depends_on G a b))
    ∨ (∃ f mid t, L = [INode f; INode mid; INode t]
       ∧ item0 (args (G mid)) = Ok (ANode f)
       ∧ item0 (args (G t)) = Ok (ANode mid)
       ∧ dependency_chain G L).
Proof.
  intros [seen Hinv]%dedup_final_inv k L (l & Hin & ->)%elem_of_read Hlen.
  pose proof (inv_shape _ _ _ _ Hinv k l Hin) as Hsh. simpl in Hsh.
  destruct Hsh
    as [x m Hm Horig Hc|a b m Hm Horig Hc|a b c m f mid t Hm Horig Hperm Hmid Ht Hc];
    rewrite Hc in *; simpl in Hlen.
  - lia.
  - left. exists a, b, m. split_and!; [done..|]. split.
    + intros Hchain. by apply (Hchain 0 b a).
    + intros Hdep [|[|i]] x y Hx Hy; simplify_eq/=. done.
  - right. exists f, mid, t. split_and!; [done..|].
    intros [|[|[|i]]] x y Hx Hy; simplify_eq/=; by apply item0_head.
Qed.

Lemma dedup_list_order_witness :
  (∃ a b m, ("relu", m) ∈ Examples.conv_bn_relu_matches
     ∧ deref Examples.conv_bn_relu_store (pattern m) = [INode a; INode b]
     ∧ [INode "conv"; INode "bn"; INode "relu"] = [INode b; INode a]
     ∧ (dependency_chain Examples.conv_bn_relu [INode "conv"; INode "bn"; INode "relu"]
        ↔ depends_on Examples.conv_bn_relu a b))
  ∨ (∃ f mid t, [INode "conv"; INode "bn"; INode "relu"] = [INode f; INode mid; INode t]
     ∧ item0 (args (Examples.conv_bn_relu mid)) = Ok (ANode f)
     ∧ item0 (args (Examples.conv_bn_relu t)) = Ok (ANode mid)
     ∧ dependency_chain Examples.conv_bn_relu [INode "conv"; INode "bn"; INode "relu"]).
Proof.
  apply (dedup_list_order Examples.conv_bn_relu Examples.conv_bn_relu_store
           Examples.conv_bn_relu_matches [("relu", 1)]
           [[ITuple ["bn"; "conv"]; INode "relu"];
            [INode "conv"; INode "bn"; INode "relu"]]).
  - by vm_compute.
  - apply list_elem_of_singleton. by vm_compute.
  - simpl. lia.
Defined.

End DedupFacts.

(** ** create_submodule_from_subgraph *)

Module ExtractFacts.
Import Extract.

(** *** The search for an unused name ends *)

Lemma placeholder_name_inj node : Inj (=) (=) (placeholder_name node).
Proof.
  intros c1 c2 H. unfold placeholder_name in H.
  apply (inj (String.app node)) in H. apply (inj (String.app "_")) in H.
  by apply (inj pretty) in H.
Qed.

Lemma find_counter_bounded node (seen : gset string) : ∀ fuel counter (X : gset string),
  (∀ k, (counter ≤ k)%nat → placeholder_name node k ∈ seen → placeholder_name node k ∈ X) →
  (size X ≤ fuel)%nat →
  ∃ c, find_counter fuel node seen counter = ret c.
Proof.
  induction fuel as [|fuel IH]; intros counter X HX Hsize; simpl.
  - case_decide as Hin; [|by eexists].
    apply HX in Hin; [|done].
    assert (size X = 0) as HX0%size_empty_iff by lia.
    set_solver.
  - case_decide as Hin; [|by eexists].
    apply (IH (S counter) (X ∖ {[placeholder_name node counter]})).
    + intros k Hk Hseen. apply elem_of_difference. split; [apply HX; [lia|done]|].
      intros ->%elem_of_singleton%placeholder_name_inj. lia.
    + apply HX in Hin; [|done].
      assert (size X = size ({[placeholder_name node counter]} : gset string)
                       + size (X ∖ {[placeholder_name node counter]})) as Hsz.
      { rewrite <-size_union by set_solver. f_equal.
        apply set_eq. intros x. rewrite elem_of_union, elem_of_difference, elem_of_singleton.
        destruct (decide (x = placeholder_name node counter)); naive_solver. }
      rewrite size_singleton in Hsz. lia.
Qed.

Lemma find_counter_finishes node (seen : gset string) :
  ∃ c, find_counter (size seen) node seen 0 = ret c.
Proof. by apply (find_counter_bounded node seen (size seen) 0 seen). Qed.

(** *** The inputs of the unit *)

Lemma count_placeholders_app g n :
  count_placeholders (g ++ [n])
  = count_placeholders g + (if is_placeholder n then 1 else 0).
Proof.
  unfold count_placeholders. rewrite filter_app, length_app. f_equal.
  destruct (is_placeholder n) eqn:Hn.
  - by rewrite filter_cons_True.
  - rewrite filter_cons_False; [done|]. by rewrite Hn.
Qed.

Lemma add_placeholder_spec s n :
  ∃ s' p, _add_placeholder s n = ret (s', p)
    ∧ count_placeholders (in_g s') = S (count_placeholders (in_g s)).
Proof.
  unfold _add_placeholder.
  destruct (find_counter_finishes n (seen_names s)) as [c ->]. simpl.
  eexists _, _. split; [done|]. simpl. rewrite count_placeholders_app. simpl. lia.
Qed.

Lemma copy_inner_args_spec inner : ∀ s acc,
  ∃ s' l, copy_inner_args inner s acc = ret (s', l)
    ∧ count_placeholders (in_g s')
      = count_placeholders (in_g s) + length (filter (λ x, is_node x = true) inner).
Proof.
  induction inner as [|a inner IH]; intros s acc.
  { eexists _, _. split; [done|]. simpl. lia. }
  destruct a as [n| | | | | |]; cbn [copy_inner_args];
    try (rewrite filter_cons_False by done; apply IH).
  destruct (add_placeholder_spec s n) as (s1 & p & -> & Hc). simpl.
  destruct (IH s1 (acc ++ [CNew p])) as (s' & l & -> & Hc').
  eexists _, _. split; [done|]. lia.
Qed.

Lemma copy_first_args_spec todo : ∀ s acc,
  ∃ s' l, copy_first_args todo s acc = ret (s', l)
    ∧ count_placeholders (in_g s')
      = count_placeholders (in_g s) + sum_list (node_occurrences <$> todo).
Proof.
  induction todo as [|a todo IH]; intros s acc; simpl.
  { eexists _, _. split; [done|]. simpl. lia. }
  destruct a as [n|inner| | | | |]; try apply IH.
  - destruct (add_placeholder_spec s n) as (s1 & p & -> & Hc). simpl.
    destruct (IH s1 (acc ++ [CNew p])) as (s' & l & -> & Hc').
    eexists _, _. split; [done|]. unfold fmap in *. lia.
  - destruct (copy_inner_args_spec inner s []) as (s1 & new_arg & -> & Hc). simpl.
    destruct (IH s1 (acc ++ [CSeq new_arg])) as (s' & l & -> & Hc').
    eexists _, _. split; [done|]. unfold fmap in *. lia.
Qed.

Lemma copy_inner_kwargs_spec inner : ∀ s acc,
  (∃ s' l, copy_inner_kwargs inner s acc = ret (s', l)
     ∧ count_placeholders (in_g s')
       = count_placeholders (in_g s) + length (filter (λ x, is_node x = true) inner))
  ∨ copy_inner_kwargs inner s acc = raise AttributeError.
Proof.
  induction inner as [|a inner IH]; intros s acc.
  { left. eexists _, _. split; [done|]. simpl. lia. }
  destruct a as [n| | | | | |]; cbn [copy_inner_kwargs add_placeholder_for];
    try by right.
  destruct (add_placeholder_spec s n) as (s1 & p & -> & Hc). simpl.
  destruct (IH s1 (acc ++ [CNew p])) as [(s' & l & -> & Hc')| ->]; [|by right].
  left. eexists _, _. split; [done|]. unfold fmap in *. lia.
Qed.

Lemma copy_first_kwargs_spec todo : ∀ s acc,
  (∃ s' l, copy_first_kwargs todo s acc = ret (s', l)
     ∧ count_placeholders (in_g s')
       = count_placeholders (in_g s)
         + sum_list ((λ kv, node_occurrences kv.2) <$> todo))
  ∨ copy_first_kwargs todo s acc = raise AttributeError.
Proof.
  induction todo as [|[k a] todo IH]; intros s acc; simpl.
  { left. eexists _, _. split; [done|]. simpl. lia. }
  destruct a as [n|inner| | | | |]; try apply IH.
  - destruct (add_placeholder_spec s n) as (s1 & p & -> & Hc). simpl.
    destruct (IH s1 (dict_set acc k (CNew p))) as [(s' & l & -> & Hc')| ->]; [|by right].
    left. eexists _, _. split; [done|]. unfold fmap in *. lia.
  - destruct (copy_inner_kwargs_spec inner s []) as [(s1 & new_kwarg & -> & Hc)| ->];
      [|by right]. simpl.
    destruct (IH s1 (dict_set acc k (CSeq new_kwarg))) as [(s' & l & -> & Hc')| ->];
      [|by right].
    left. eexists _, _. split; [done|]. unfold fmap in *. lia.
Qed.

Lemma copy_rest_args_raise gm_placeholder todo : ∀ st acc e,
  copy_rest_args gm_placeholder todo st acc = Raise e →
  e = AttributeError ∨ e = AssertionError ArgNotHandledYet.
Proof.
  induction todo as [|a todo IH]; intros st acc e; simpl; [done|].
  destruct a; try (by intros [= <-]; auto); try apply IH.
  destruct gm_placeholder; [apply IH|]. intros [= <-]. auto.
Qed.

Lemma copy_rest_args_ok gm_placeholder todo : ∀ st acc st' l,
  copy_rest_args gm_placeholder todo st acc = Ok (st', l) →
  cur_node_orig st' = cur_node_orig st
  ∧ cur_iteration st' = cur_iteration st
  ∧ cur_node_copy st' = cur_node_copy st
  ∧ cur_kwargs_copy st' = cur_kwargs_copy st
  ∧ count_placeholders (g st')
    = count_placeholders (g st) + length (filter (λ a, is_parameter a = true) todo).
Proof.
  induction todo as [|a todo IH]; intros st acc st' l.
  { intros [= <- <-]. split_and!; [done..|]. simpl. lia. }
  destruct a; cbn [copy_rest_args]; try done;
    try (rewrite filter_cons_False by done; apply IH).
  destruct gm_placeholder; [|done].
  intros (H1 & H2 & H3 & H4 & H5)%IH. simpl in *.
  split_and!; [done..|].
  rewrite H5, count_placeholders_app. simpl. lia.
Qed.

(** *** One round of the loop *)

(** A round finishes: with the copy of the current node appended, which
    adds the inputs of the first node, or one input per parameter of a later
    node, or with a signal that is neither of the two signals of the step to
    the next node. *)
Lemma copy_current_cases ph model G first_node st :
  (∃ st1, copy_current ph model G first_node st = ret st1
     ∧ cur_node_orig st1 = cur_node_orig st
     ∧ cur_iteration st1 = cur_iteration st
     ∧ is_Some (cur_node_copy st1)
     ∧ count_placeholders (g st1)
       = count_placeholders (g st)
         + (if decide (cur_node_orig st = first_node)
            then node_occurrences_of (G first_node)
            else parameters_after_first (G (cur_node_orig st)))
     ∧ (cur_node_orig st ≠ first_node →
        in_binary_functions (target (G (cur_node_orig st))) = false))
  ∨ (∃ e, copy_current ph model G first_node st = raise e
     ∧ e ≠ AssertionError IterationLimitExceeded
     ∧ e ≠ AssertionError MoreThanOneUser
     ∧ (e = AssertionError NoMsg →
        cur_node_orig st ≠ first_node
        ∧ in_binary_functions (target (G (cur_node_orig st))) = true)).
Proof.
  unfold copy_current, copy_args.
  assert (∀ st0 a,
    (∃ st1, Finished (copy_node model G st0 a) = ret st1
       ∧ cur_node_orig st1 = cur_node_orig st0
       ∧ cur_iteration st1 = cur_iteration st0
       ∧ is_Some (cur_node_copy st1)
       ∧ count_placeholders (g st1) = count_placeholders (g st0))
    ∨ (∃ e, Finished (copy_node model G st0 a) = raise e
       ∧ (e = AttributeError ∨ e = AssertionError OpNotSupportedYet))) as Hnode.
  { intros st0 a. unfold copy_node.
    destruct (op (G (cur_node_orig st0))) eqn:Hop;
      try (right; eexists; split; [done|]; by right).
    - left. eexists. split; [done|]. simpl. split_and!; [done..|].
      rewrite count_placeholders_app. simpl. lia.
    - left. eexists. split; [done|]. simpl. split_and!; [done..|].
      rewrite count_placeholders_app. simpl. lia.
    - destruct (getattr_from_fqn model _) as [orig_mod|e] eqn:Hget; simpl.
      + left. eexists. split; [done|]. simpl. split_and!; [done..|].
        rewrite count_placeholders_app. simpl. lia.
      + right. exists e. split; [done|]. left.
        unfold getattr_from_fqn in Hget. repeat case_match; by simplify_eq. }
  case_decide as Hfirst.
  - rewrite Hfirst.
    destruct (copy_first_args_spec (args (G first_node))
                {| in_g := g st; seen_names := ∅; old_name_to_new_node := [] |} [])
      as (sa & la & -> & Ha). simpl.
    destruct (copy_first_kwargs_spec (kwargs (G first_node))
                {| in_g := in_g sa; seen_names := seen_names sa;
                   old_name_to_new_node := old_name_to_new_node sa |} [])
      as [(sk & lk & -> & Hk)| ->]; simpl.
    + match goal with
      | |- context [copy_node model G ?s ?a] => destruct (Hnode s a) as
          [(st1 & -> & H1 & H2 & H3 & H4)|(e & -> & He)]
      end.
      * left. exists st1. simpl in *. split_and!; [done..| |done].
        rewrite H4. unfold node_occurrences_of. lia.
      * right. exists e. split_and!; [done|..]; destruct He as [-> | ->]; done.
    + right. exists AttributeError. split_and!; done.
  - destruct (in_binary_functions _) eqn:Hbin.
    { right. exists (AssertionError NoMsg). split_and!; done. }
    destruct (cur_node_copy st) as [prev|] eqn:Hprev.
    2: { right. eexists. split_and!; done. }
    destruct (copy_rest_args _ _ _ _) as [[st0 a]|e] eqn:Hrest; simpl.
    + apply copy_rest_args_ok in Hrest as (R1 & R2 & R3 & _ & R5).
      destruct (Hnode st0 a) as [(st1 & -> & H1 & H2 & H3 & H4)|(e & -> & He)].
      * left. exists st1. split_and!; [congruence..|done| |done].
        rewrite H4, R5. done.
      * right. exists e. split_and!; [done|..]; destruct He as [-> | ->]; done.
    + right. exists e. apply copy_rest_args_raise in Hrest.
      split_and!; [done|..]; destruct Hrest as [-> | ->]; done.
Qed.

Lemma copy_current_binary ph model G first_node st :
  cur_node_orig st ≠ first_node →
  in_binary_functions (target (G (cur_node_orig st))) = true →
  copy_current ph model G first_node st = raise (AssertionError NoMsg).
Proof.
  intros Hne Hbin. unfold copy_current, copy_args.
  rewrite decide_False by done. by rewrite Hbin.
Qed.

Lemma go_to_next_cases G st :
  (∃ next st2, go_to_next G st = Ok st2
     ∧ users (G (cur_node_orig st)) = [next]
     ∧ cur_node_orig st2 = next
     ∧ cur_iteration st2 = S (cur_iteration st)
     ∧ (cur_iteration st2 ≤ iteration_limit)%nat
     ∧ cur_node_copy st2 = cur_node_copy st
     ∧ g st2 = g st)
  ∨ (go_to_next G st = Raise (AssertionError MoreThanOneUser)
     ∧ ∀ next, users (G (cur_node_orig st)) ≠ [next])
  ∨ (go_to_next G st = Raise (AssertionError IterationLimitExceeded)
     ∧ (iteration_limit ≤ cur_iteration st)%nat
     ∧ ∃ next, users (G (cur_node_orig st)) = [next]).
Proof.
  unfold go_to_next.
  destruct (users (G (cur_node_orig st))) as [|next [|??]]; simpl;
    try (right; left; split; [done|]; by intros ?).
  case_decide as Hlim.
  - right. right. split_and!; [done|lia|by eexists].
  - left. eexists _, _. split; [done|]. simpl. split_and!; try done; lia.
Qed.

(** When the [GraphModule] has no [placeholder], a parameter among the later
    arguments ends the call, so that a round that succeeds has met none. *)
Lemma copy_rest_args_no_parameter todo : ∀ st acc st' l,
  copy_rest_args false todo st acc = Ok (st', l) →
  length (filter (λ a, is_parameter a = true) todo) = 0.
Proof.
  induction todo as [|a todo IH]; intros st acc st' l; [done|].
  destruct a; cbn [copy_rest_args]; try done;
    rewrite filter_cons_False by done; apply IH.
Qed.

Lemma copy_current_no_parameter ph model G first_node st st1 :
  ph = false →
  copy_current ph model G first_node st = ret st1 →
  cur_node_orig st ≠ first_node →
  parameters_after_first (G (cur_node_orig st)) = 0.
Proof.
  intros ->. unfold copy_current, copy_args. intros Hc Hne.
  rewrite decide_False in Hc by done.
  destruct (in_binary_functions _); [done|].
  destruct (cur_node_copy st); [|done].
  destruct (copy_rest_args _ _ _ _) as [[st0 a]|e] eqn:Hrest; [|done].
  by apply copy_rest_args_no_parameter in Hrest.
Qed.

(** *** The loop *)

Section Walk.
Context (ph : bool) (model : gmap string string) (G : FxGraph).
Context (first_node last_node : Node).

Local Abbreviation walk' fuel st := (walk fuel ph model G first_node last_node st).

Lemma walk_S fuel st :
  walk' (S fuel) st =
    match copy_current ph model G first_node st with
    | Finished (Ok st1) =>
        if decide (cur_node_orig st1 = last_node) then Finished (finish st1)
        else
          match go_to_next G st1 with
          | Ok st2 => walk' fuel st2
          | Raise e => Finished (Raise e)
          end
    | Finished (Raise e) => Finished (Raise e)
    | OutOfFuel => OutOfFuel
    end.
Proof.
  cbn [walk]. destruct (copy_current _ _ _ _) as [[st1|e]|]; simpl; [|done..].
  case_decide; [done|]. by destruct (go_to_next G st1).
Qed.

Lemma finish_ok st :
  is_Some (cur_node_copy st) →
  ∃ gm, finish st = Ok gm
    ∧ count_placeholders (gm_graph gm) = count_placeholders (g st).
Proof.
  intros [copy Hc]. unfold finish. rewrite Hc. eexists. split; [done|].
  simpl. unfold g_output. rewrite count_placeholders_app. simpl. lia.
Qed.

Lemma nth_user_S n next k :
  users (G n) = [next] → nth_user G n (S k) = nth_user G next k.
Proof. intros H. simpl. by rewrite H. Qed.

(** One round: what [walk' (S fuel) st] is, by the ways a round can end. *)
Lemma walk_round fuel st :
  (∃ e, walk' (S fuel) st = raise e
     ∧ copy_current ph model G first_node st = raise e)
  ∨ (∃ st1 gm, copy_current ph model G first_node st = ret st1
     ∧ cur_node_orig st = last_node
     ∧ walk' (S fuel) st = ret gm
     ∧ count_placeholders (gm_graph gm) = count_placeholders (g st1))
  ∨ (∃ st1 e, copy_current ph model G first_node st = ret st1
     ∧ cur_node_orig st ≠ last_node
     ∧ walk' (S fuel) st = raise e
     ∧ (e = AssertionError MoreThanOneUser
        ∨ e = AssertionError IterationLimitExceeded
          ∧ (iteration_limit ≤ cur_iteration st)%nat))
  ∨ (∃ st1 st2 next, copy_current ph model G first_node st = ret st1
     ∧ cur_node_orig st ≠ last_node
     ∧ users (G (cur_node_orig st)) = [next]
     ∧ cur_node_orig st2 = next
     ∧ cur_iteration st2 = S (cur_iteration st)
     ∧ (cur_iteration st2 ≤ iteration_limit)%nat
     ∧ g st2 = g st1
     ∧ walk' (S fuel) st = walk' fuel st2).
Proof.
  rewrite walk_S.
  destruct (copy_current_cases ph model G first_node st)
    as [(st1 & Hcur & Hn & Hit & Hcopy & _)|(e & Hcur & _)]; rewrite Hcur.
  2: { left. by exists e. }
  unfold ret. case_decide as Hlast.
  - right. left. destruct (finish_ok st1 Hcopy) as (gm & -> & Hc).
    exists st1, gm. split_and!; [done|by rewrite <-Hn|done..].
  - destruct (go_to_next_cases G st1)
      as [(next & st2 & -> & Hu & Hn2 & Hi2 & Hlim & _ & Hg)|[[-> _]|[-> [Hlim _]]]].
    + do 3 right. exists st1, st2, next. rewrite Hn in *.
      split_and!; try done. by rewrite Hi2, Hit.
    + right. right. left. exists st1, (AssertionError MoreThanOneUser).
      rewrite Hn in *. split_and!; try done. by left.
    + right. right. left. exists st1, (AssertionError IterationLimitExceeded).
      rewrite Hn, Hit in *. split_and!; try done. by right.
Qed.

(** The loop ends within [iteration_limit + 1] rounds. *)
Lemma walk_finishes fuel : ∀ st,
  (cur_iteration st ≤ iteration_limit)%nat →
  (iteration_limit < fuel + cur_iteration st)%nat →
  ∃ r, walk' fuel st = Finished r.
Proof.
  induction fuel as [|fuel IH]; intros st Hle Hfuel; [simpl in *; lia|].
  destruct (walk_round fuel st)
    as [(e & -> & _)|[(st1 & gm & _ & _ & -> & _)|[(st1 & e & _ & _ & -> & _)
       |(st1 & st2 & next & _ & _ & _ & _ & Hit & Hlim & _ & ->)]]]; try by eexists.
  apply IH; [done|]. lia.
Qed.

(** More fuel does not change a result. *)
Lemma walk_mono fuel : ∀ st r fuel',
  walk' fuel st = Finished r → (fuel ≤ fuel')%nat → walk' fuel' st = Finished r.
Proof.
  induction fuel as [|fuel IH]; intros st r fuel' Hw Hle; [done|].
  destruct fuel' as [|fuel']; [lia|].
  rewrite walk_S in *.
  destruct (copy_current _ _ _ _) as [[st1|e]|]; [|done..].
  case_decide; [done|]. destruct (go_to_next G st1); [|done].
  apply IH; [done|lia].
Qed.

(** A unit is returned only when the walk has met [last_node]. *)
Lemma walk_ok_reaches fuel : ∀ st gm,
  walk' fuel st = ret gm →
  (cur_iteration st ≤ iteration_limit)%nat →
  ∃ k, (k + cur_iteration st ≤ iteration_limit)%nat
    ∧ nth_user G (cur_node_orig st) k = Some last_node
    ∧ ∀ j, (j < k)%nat → nth_user G (cur_node_orig st) j ≠ Some last_node.
Proof.
  induction fuel as [|fuel IH]; intros st gm Hw Hle; [done|].
  destruct (walk_round fuel st)
    as [(e & He & _)|[(st1 & gm' & _ & Hlast & _)|[(st1 & e & _ & _ & He & _)
       |(st1 & st2 & next & _ & Hlast & Hu & Hn2 & Hit & Hlim & _ & Hw2)]]];
    try (unfold ret, raise in *; congruence).
  - exists 0. split_and!; [lia|by rewrite Hlast|lia].
  - rewrite Hw2 in Hw. destruct (IH st2 gm Hw Hlim) as (k & Hk & Hreach & Hmin).
    exists (S k). rewrite Hn2 in *. split_and!; [lia|by rewrite (nth_user_S _ next)|].
    intros [|j] Hj; [simpl; congruence|].
    rewrite (nth_user_S _ next) by done. apply Hmin. lia.
Qed.

(** The iteration-limit signal means that [last_node] was not met in the
    rounds the limit allows. *)
Lemma walk_limit fuel : ∀ st,
  walk' fuel st = raise (AssertionError IterationLimitExceeded) →
  (cur_iteration st ≤ iteration_limit)%nat →
  ∀ j, (j + cur_iteration st ≤ iteration_limit)%nat →
    nth_user G (cur_node_orig st) j ≠ Some last_node.
Proof.
  induction fuel as [|fuel IH]; intros st Hw Hle j Hj; [done|].
  destruct (walk_round fuel st)
    as [(e & He & Hcur)|[(st1 & gm' & _ & Hlast & He & _)|[(st1 & e & _ & Hlast & He & Hwhy)
       |(st1 & st2 & next & _ & Hlast & Hu & Hn2 & Hit & Hlim & _ & Hw2)]]].
  - rewrite He in Hw. injection Hw as ->.
    destruct (copy_current_cases ph model G first_node st)
      as [(? & Hc & _)|(e & Hc & Hne & _)]; rewrite Hc in Hcur; [done|].
    by injection Hcur as ->.
  - unfold ret, raise in *. congruence.
  - rewrite He in Hw. injection Hw as ->.
    destruct Hwhy as [?|[_ Hlim]]; [done|].
    assert (j = 0) as -> by lia. simpl. congruence.
  - rewrite Hw2 in Hw. destruct j as [|j]; [simpl; congruence|].
    rewrite (nth_user_S _ next) by done. rewrite <-Hn2.
    apply IH; [done..|lia].
Qed.

(** A binary function at a later node of the chain makes the call fail. *)
Lemma walk_binary_fails n k : ∀ fuel st r,
  nth_user G (cur_node_orig st) k = Some n →
  (∀ j, (j < k)%nat → nth_user G (cur_node_orig st) j ≠ Some last_node) →
  n ≠ first_node →
  in_binary_functions (target (G n)) = true →
  walk' fuel st = Finished r →
  ∃ e, r = Raise e.
Proof.
  induction k as [|k IH]; intros fuel st r Hk Hmin Hne Hbin Hw;
    (destruct fuel as [|fuel]; [done|]).
  - injection Hk as <-. rewrite walk_S, copy_current_binary in Hw by done.
    injection Hw as <-. by eexists.
  - destruct (walk_round fuel st)
      as [(e & He & _)|[(st1 & gm' & _ & Hlast & _)|[(st1 & e & _ & _ & He & _)
         |(st1 & st2 & next & _ & Hlast & Hu & Hn2 & Hit & Hlim & _ & Hw2)]]].
    + rewrite He in Hw. injection Hw as <-. by eexists.
    + exfalso. apply (Hmin 0); [lia|]. simpl. by rewrite Hlast.
    + rewrite He in Hw. injection Hw as <-. by eexists.
    + rewrite Hw2 in Hw. rewrite (nth_user_S _ next) in Hk by done.
      apply (IH fuel st2 r); try done; rewrite Hn2; [done|].
      intros j Hj. rewrite <-(nth_user_S _ next) by done. apply Hmin. lia.
Qed.

(** The assertion without message is the one on [BINARY_FUNCTIONS], and it
    is raised at a later node of the chain only. *)
Lemma walk_raise_binary fuel : ∀ st,
  walk' fuel st = raise (AssertionError NoMsg) →
  ∃ k n, nth_user G (cur_node_orig st) k = Some n
    ∧ (∀ j, (j < k)%nat → nth_user G (cur_node_orig st) j ≠ Some last_node)
    ∧ n ≠ first_node
    ∧ in_binary_functions (target (G n)) = true.
Proof.
  induction fuel as [|fuel IH]; intros st Hw; [done|].
  destruct (walk_round fuel st)
    as [(e & He & Hcur)|[(st1 & gm' & _ & Hlast & He & _)|[(st1 & e & _ & Hlast & He & Hwhy)
       |(st1 & st2 & next & _ & Hlast & Hu & Hn2 & Hit & Hlim & _ & Hw2)]]].
  - rewrite He in Hw. injection Hw as ->.
    destruct (copy_current_cases ph model G first_node st)
      as [(? & Hc & _)|(e & Hc & _ & _ & Hno)]; rewrite Hc in Hcur; [done|].
    injection Hcur as ->. destruct (Hno eq_refl) as [Hne Hbin].
    exists 0, (cur_node_orig st). split_and!; [done| |done..]. intros j Hj. lia.
  - unfold ret, raise in *. congruence.
  - rewrite He in Hw. injection Hw as ->. by destruct Hwhy as [?|[? _]].
  - rewrite Hw2 in Hw. destruct (IH st2 Hw) as (k & n & Hk & Hmin & Hne & Hbin).
    rewrite Hn2 in *. exists (S k), n.
    split_and!; [by rewrite (nth_user_S _ next)| |done..].
    intros [|j] Hj; [simpl; congruence|].
    rewrite (nth_user_S _ next) by done. apply Hmin. lia.
Qed.

(** Away from the first node the inputs added are those of the
    parameters. *)
Lemma walk_count_far fuel : ∀ st gm,
  walk' fuel st = ret gm →
  (∀ j, nth_user G (cur_node_orig st) j = Some first_node →
     ∃ i, (i < j)%nat ∧ nth_user G (cur_node_orig st) i = Some last_node) →
  ∃ k, nth_user G (cur_node_orig st) k = Some last_node
    ∧ (∀ j, (j < k)%nat → nth_user G (cur_node_orig st) j ≠ Some last_node)
    ∧ count_placeholders (gm_graph gm)
      = count_placeholders (g st) + parameters_after_first (G (cur_node_orig st))
        + later_parameters G (cur_node_orig st) k
    ∧ (ph = false →
       parameters_after_first (G (cur_node_orig st))
       + later_parameters G (cur_node_orig st) k = 0).
Proof.
  induction fuel as [|fuel IH]; intros st gm Hw Hfar; [done|].
  assert (cur_node_orig st ≠ first_node) as Hne.
  { intros Heq. destruct (Hfar 0) as (i & Hi & _); [by rewrite <-Heq|lia]. }
  destruct (copy_current_cases ph model G first_node st)
    as [(st1' & Hc & _ & _ & _ & Hcount & _)|(e & Hc & _)].
  2: { rewrite walk_S, Hc in Hw. done. }
  rewrite decide_False in Hcount by done.
  assert (ph = false → parameters_after_first (G (cur_node_orig st)) = 0) as Hnop.
  { intros Hph. by eapply copy_current_no_parameter. }
  destruct (walk_round fuel st)
    as [(e & He & _)|[(st1 & gm' & Hc1 & Hlast & He & Hg)|[(st1 & e & _ & _ & He & _)
       |(st1 & st2 & next & Hc1 & Hlast & Hu & Hn2 & Hit & Hlim & Hg & Hw2)]]];
    try (unfold ret, raise in *; congruence).
  - rewrite Hc in Hc1. injection Hc1 as <-. rewrite He in Hw.
    injection Hw as <-. exists 0.
    split_and!; [by rewrite Hlast|lia|simpl; lia|].
    intros Hph. rewrite Hnop by done. done.
  - rewrite Hc in Hc1. injection Hc1 as <-. rewrite Hw2 in Hw.
    destruct (IH st2 gm Hw) as (k & Hk & Hmin & Hcnt & Hzero).
    { rewrite Hn2. intros j Hj. rewrite <-(nth_user_S _ next) in Hj by done.
      destruct (Hfar _ Hj) as ([|i] & Hi & Hreach); [simpl in Hreach; congruence|].
      exists i. split; [lia|]. by rewrite <-(nth_user_S (cur_node_orig st) next). }
    rewrite Hn2 in *. exists (S k).
    split_and!; [by rewrite (nth_user_S _ next)| | |].
    + intros [|j] Hj; [simpl; congruence|].
      rewrite (nth_user_S _ next) by done. apply Hmin. lia.
    + rewrite Hcnt, Hg, Hcount. simpl. rewrite Hu. lia.
    + intros Hph. rewrite Hnop by done. simpl. rewrite Hu. by apply Hzero.
Qed.

Lemma nth_user_add n a : ∀ b,
  nth_user G n (a + b) = nth_user G n a ≫= λ x, nth_user G x b.
Proof.
  revert n. induction a as [|a IH]; intros n b; [done|]. simpl.
  destruct (users (G n)) as [|next ?]; [done|]. apply IH.
Qed.

(** A walk that comes back to its start before it meets [last_node]
    never meets it. *)
Lemma nth_user_cycle n p : ∀ k,
  nth_user G n (S p) = Some n →
  nth_user G n k = Some last_node →
  ∃ i, (i ≤ p)%nat ∧ nth_user G n i = Some last_node.
Proof.
  intros k Hp. induction k as [k IH] using lt_wf_ind. intros Hk.
  destruct (decide (k ≤ p)%nat) as [?|Hgt]; [by exists k|].
  assert (k = S p + (k - S p)) as Hsplit by lia.
  rewrite Hsplit, nth_user_add, Hp in Hk. simpl in Hk.
  apply (IH (k - S p)); [lia|done].
Qed.

End Walk.

Lemma initial_round ph model G first_node last_node fuel :
  create_submodule_from_subgraph (S fuel) ph model G first_node last_node
  = walk (S fuel) ph model G first_node last_node
      {| cur_node_orig := first_node; cur_name_idx := 0; cur_iteration := 0;
         cur_node_copy := None; cur_kwargs_copy := []; g := []; attrs := [] |}.
Proof. done. Qed.

(** C4, as stated, fails: for [y = x + x] the unit has the two inputs [x_0]
    and [x_1], and the first node has one distinct node among its
    arguments. *)
Lemma x_plus_x_has_two_inputs :
  ∃ gm,
    (∀ ph, create_submodule_from_subgraph 101 ph ∅ ExtractExamples.x_plus_x "add" "add"
           = ret gm)
    ∧ n_target <$> filter (λ n, is_placeholder n = true) (gm_graph gm)
      = [TName "x_0"; TName "x_1"]
    ∧ count_placeholders (gm_graph gm) = 2
    ∧ distinct_node_args (ExtractExamples.x_plus_x "add") = 1.
Proof. eexists. split_and!; [intros []|..]; by vm_compute. Qed.

(** C4, amended. The number of input placeholders of a returned unit is the
    number of occurrences of nodes among the arguments of the first node
    (the positional and keyword arguments that are nodes, and the elements
    that are nodes of those that are lists or tuples), so that a node that
    occurs twice gives two placeholders; to which the parameters among the
    later arguments of the later nodes of the chain add one each. *)
Theorem inputs_are_node_occurrences fuel ph model G first_node last_node gm :
  create_submodule_from_subgraph fuel ph model G first_node last_node = ret gm →
  ∃ k, on_chain G first_node last_node k last_node
    ∧ count_placeholders (gm_graph gm)
      = node_occurrences_of (G first_node) + later_parameters G first_node k
    ∧ (ph = false → later_parameters G first_node k = 0).
Proof.
  destruct fuel as [|fuel]; [done|]. rewrite initial_round.
  set (st := {| cur_node_orig := first_node |}). intros Hw.
  destruct (copy_current_cases ph model G first_node st)
    as [(st1' & Hc & _ & _ & _ & Hcount & _)|(e & Hc & _)].
  2: { rewrite walk_S, Hc in Hw. done. }
  rewrite decide_True in Hcount by done. simpl in Hcount.
  destruct (walk_round ph model G first_node last_node fuel st)
    as [(e & He & _)|[(st1 & gm' & Hc1 & Hlast & He & Hg)|[(st1 & e & _ & _ & He & _)
       |(st1 & st2 & next & Hc1 & Hlast & Hu & Hn2 & Hit & Hlim & Hg & Hw2)]]];
    try (unfold ret, raise in *; congruence).
  - rewrite Hc in Hc1. injection Hc1 as <-. rewrite He in Hw. injection Hw as <-.
    exists 0. simpl in Hlast.
    split_and!; [split; [by rewrite Hlast|intros j Hj; lia]|simpl; lia|done].
  - rewrite Hc in Hc1. injection Hc1 as <-. rewrite Hw2 in Hw. simpl in Hu, Hlast.
    destruct (walk_count_far _ _ _ _ _ _ _ _ Hw) as (k & Hk & Hmin & Hcnt & Hzero).
    { destruct (walk_ok_reaches _ _ _ _ _ _ _ _ Hw Hlim) as (k & _ & Hreach & _).
      rewrite Hn2 in *. intros j Hj.
      rewrite <-(nth_user_S G first_node next) in Hj, Hreach by done.
      destruct (nth_user_cycle G last_node first_node j (S k) Hj Hreach)
        as ([|i] & Hi & Hi'); [simpl in Hi'; congruence|].
      exists i. split; [lia|]. by rewrite <-(nth_user_S G first_node next). }
    rewrite Hn2 in *. exists (S k). split_and!; [split| |].
    + by rewrite (nth_user_S G first_node next).
    + intros [|j] Hj; [simpl; congruence|].
      rewrite (nth_user_S G first_node next) by done. apply Hmin. lia.
    + rewrite Hcnt, Hg, Hcount. simpl. rewrite Hu. lia.
    + intros Hph. simpl. rewrite Hu. by apply Hzero.
Qed.

Lemma inputs_are_node_occurrences_witness :
  ∃ k, on_chain ExtractExamples.linear_scale "linear" "scale" k "scale"
    ∧ count_placeholders
        [{| n_op := placeholder; n_target := TName "x_0"; n_args := [];
            n_kwargs := [] |};
         {| n_op := call_module; n_target := TName "mod_0"; n_args := [CNew 0];
            n_kwargs := [] |};
         {| n_op := placeholder; n_target := TName "mod_1"; n_args := [];
            n_kwargs := [] |};
         {| n_op := call_method; n_target := TName "mul";
            n_args := [CNew 1; CNew 2; CLit (AFloat 2%float)]; n_kwargs := [] |};
         {| n_op := output; n_target := TName "output"; n_args := [CNew 3];
            n_kwargs := [] |}]
      = node_occurrences_of (ExtractExamples.linear_scale "linear")
        + later_parameters ExtractExamples.linear_scale "linear" k
    ∧ (true = false → later_parameters ExtractExamples.linear_scale "linear" k = 0).
Proof.
  apply (inputs_are_node_occurrences 101 true ExtractExamples.linear_relu_model
           ExtractExamples.linear_scale "linear" "scale"
           {| gm_graph := _;
              gm_attrs := [("mod_0", ModuleCopy "Linear(4, 4)");
                           ("mod_1", TensorClone "w")] |}).
  by vm_compute.
Defined.

(** C7. When a node of the chain other than the first node has a target in
    [BINARY_FUNCTIONS], the call ends with a signal.  The assertion on
    [BINARY_FUNCTIONS], the one without message, is raised for such a node
    only, never for the first node: [y = x + x] as first node is copied. *)
Theorem binary_function_after_first_fails ph model G first_node last_node :
  (∀ fuel k n,
     (iteration_limit < fuel)%nat →
     on_chain G first_node last_node k n →
     n ≠ first_node →
     in_binary_functions (target (G n)) = true →
     ∃ e, create_submodule_from_subgraph fuel ph model G first_node last_node = raise e)
  ∧ (∀ fuel,
       create_submodule_from_subgraph fuel ph model G first_node last_node
       = raise (AssertionError NoMsg) →
       ∃ k n, on_chain G first_node last_node k n ∧ n ≠ first_node
         ∧ in_binary_functions (target (G n)) = true)
  ∧ (∀ f, in_binary_functions (TCallable f) = true ↔ f ∈ BINARY_FUNCTIONS)
  ∧ ∃ gm, in_binary_functions (target (ExtractExamples.x_plus_x "add")) = true
      ∧ create_submodule_from_subgraph 101 ph ∅ ExtractExamples.x_plus_x "add" "add"
        = ret gm.
Proof.
  split_and!.
  - intros fuel k n Hfuel [Hk Hmin] Hne Hbin.
    destruct (walk_finishes ph model G first_node last_node fuel
                {| cur_node_orig := first_node; cur_name_idx := 0; cur_iteration := 0;
                   cur_node_copy := None; cur_kwargs_copy := []; g := []; attrs := [] |})
      as [r Hr]; [simpl; unfold iteration_limit; lia|simpl; lia|].
    pose proof Hr as Hr'.
    eapply walk_binary_fails in Hr' as [e ->]; [|done..]. by exists e.
  - intros fuel Hw. unfold create_submodule_from_subgraph in Hw.
    apply walk_raise_binary in Hw as (k & n & Hk & Hmin & Hne & Hbin).
    by exists k, n.
  - intros f. simpl. apply bool_decide_eq_true.
  - eexists. split; [by vm_compute|]. destruct ph; by vm_compute.
Qed.

Lemma binary_function_after_first_fails_witness :
  ∃ e, create_submodule_from_subgraph 101 false ExtractExamples.linear_relu_model
         ExtractExamples.linear_add "linear" "add" = raise e.
Proof.
  apply (proj1 (binary_function_after_first_fails false
                  ExtractExamples.linear_relu_model
                  ExtractExamples.linear_add "linear" "add") 101 1 "add").
  - unfold iteration_limit. lia.
  - split; [by vm_compute|]. intros j Hj. assert (j = 0) as -> by lia. by vm_compute.
  - done.
  - by vm_compute.
Defined.

(** C8. With fuel for more rounds than the iteration limit allows the call
    finishes, and with the same result whatever the fuel: with a unit, and
    then the walk has met [last_node] within 100 steps, or with a signal;
    and when the signal is the one of the iteration limit, the walk has not
    met [last_node] in its first 101 nodes. *)
Theorem create_submodule_terminates ph model G first_node last_node fuel :
  (iteration_limit < fuel)%nat →
  ∃ r, create_submodule_from_subgraph fuel ph model G first_node last_node = Finished r
    ∧ (∀ fuel', (iteration_limit < fuel')%nat →
         create_submodule_from_subgraph fuel' ph model G first_node last_node = Finished r)
    ∧ (∀ gm, r = Ok gm →
         ∃ k, (k ≤ iteration_limit)%nat ∧ on_chain G first_node last_node k last_node)
    ∧ (r = Raise (AssertionError IterationLimitExceeded) →
         ∀ j, (j ≤ iteration_limit)%nat → nth_user G first_node j ≠ Some last_node).
Proof.
  intros Hfuel. unfold create_submodule_from_subgraph.
  set (st := {| cur_node_orig := first_node |}).
  assert (∀ f, (iteration_limit < f)%nat →
            ∃ r, walk f ph model G first_node last_node st = Finished r) as Hfin.
  { intros f Hf. apply walk_finishes; simpl; lia. }
  destruct (Hfin fuel Hfuel) as [r Hr]. exists r. split_and!; [done| | |].
  - intros fuel' Hfuel'. destruct (Hfin fuel' Hfuel') as [r' Hr'].
    destruct (decide (fuel ≤ fuel')%nat).
    + by apply (walk_mono _ _ _ _ _ fuel).
    + rewrite Hr'. f_equal.
      apply (walk_mono _ _ _ _ _ fuel' _ _ fuel) in Hr'; [congruence|lia].
  - intros gm ->.
    destruct (walk_ok_reaches _ _ _ _ _ _ _ _ Hr) as (k & Hk & Hreach & Hmin);
      [simpl; lia|].
    exists k. simpl in *. split; [lia|]. by split.
  - intros ->. intros j Hj.
    apply (walk_limit _ _ _ _ _ _ _ Hr); simpl; lia.
Qed.

Lemma create_submodule_terminates_witness :
  ∃ r, create_submodule_from_subgraph 101 false ∅ ExtractExamples.cyclic "a" "z"
       = Finished r
    ∧ (∀ fuel', (iteration_limit < fuel')%nat →
         create_submodule_from_subgraph fuel' false ∅ ExtractExamples.cyclic "a" "z"
         = Finished r)
    ∧ (∀ gm, r = Ok gm →
         ∃ k, (k ≤ iteration_limit)%nat ∧ on_chain ExtractExamples.cyclic "a" "z" k "z")
    ∧ (r = Raise (AssertionError IterationLimitExceeded) →
         ∀ j, (j ≤ iteration_limit)%nat → nth_user ExtractExamples.cyclic "a" j ≠ Some "z").
Proof.
  apply (create_submodule_terminates false ∅ ExtractExamples.cyclic "a" "z" 101).
  unfold iteration_limit. lia.
Defined.

End ExtractFacts.

(** ** Strings and dicts *)

Section Strings.
Implicit Types (c : ascii) (s t p : string).

Lemma count_char_app c s t :
  count_char c (s +:+ t) = count_char c s + count_char c t.
Proof. induction s as [|a s IH]; simpl; [done|]. rewrite IH. lia. Qed.

Lemma split_on_nonempty c s : split_on c s ≠ [].
Proof.
  destruct s as [|a s]; simpl; [done|].
  case_decide; [done|]. by destruct (split_on c s).
Qed.

(** [split] gives one piece more than there are separators. *)
Lemma length_split_on c s : length (split_on c s) = S (count_char c s).
Proof.
  induction s as [|a s IH]; simpl; [done|].
  case_decide; simpl; [by rewrite IH|].
  pose proof (split_on_nonempty c s). destruct (split_on c s); [done|].
  simpl in *. lia.
Qed.

Lemma split_on_none c s : count_char c s = 0 → split_on c s = [s].
Proof.
  induction s as [|a s IH]; simpl; [done|].
  case_decide; [done|]. simpl. intros Hs. by rewrite IH.
Qed.

Lemma split_on_app c s t :
  count_char c s = 0 → split_on c (s +:+ String c t) = s :: split_on c t.
Proof.
  induction s as [|a s IH]; simpl.
  - intros _. by rewrite decide_True.
  - case_decide; [done|]. simpl. intros Hs. by rewrite IH.
Qed.

(** The pieces hold no separator, and joined by it they give the string. *)
Lemma split_on_cons_inv c s p ps :
  split_on c s = p :: ps →
  count_char c p = 0
  ∧ (ps = [] ∧ s = p ∨ ∃ t, s = p +:+ String c t ∧ split_on c t = ps).
Proof.
  revert p ps. induction s as [|a s IH]; intros p ps; simpl.
  - intros [= <- <-]. split; [done|]. by left.
  - case_decide as Ha.
    + intros [= <- <-]. split; [done|]. right. exists s. by rewrite Ha.
    + destruct (split_on c s) as [|q qs] eqn:Hs; [by destruct (split_on_nonempty c s)|].
      intros [= <- <-]. destruct (IH q qs eq_refl) as [Hq Hcase].
      split; [simpl; by rewrite decide_False|].
      destruct Hcase as [[-> ->]|(t & -> & Ht)]; [by left|].
      right. by exists t.
Qed.

Lemma app_sep_inj c s s' t t' :
  count_char c s = 0 → count_char c s' = 0 →
  s +:+ String c t = s' +:+ String c t' → s = s' ∧ t = t'.
Proof.
  revert s'. induction s as [|a s IH]; intros [|a' s']; simpl.
  - by intros _ _ [= ->].
  - case_decide; [done|]. intros _ _ [= ?]. done.
  - case_decide; [done|]. intros _ _ [= ?]. done.
  - repeat case_decide; try done. simpl. intros Hs Hs' [= -> Heq].
    destruct (IH s' Hs Hs' Heq) as [-> ->]. done.
Qed.

(** A decimal numeral holds digits, and a sign. *)
Lemma count_char_pretty_N_go c x : ∀ s,
  (∀ d, pretty_N_char d ≠ c) →
  count_char c (pretty_N_go x s) = count_char c s.
Proof.
  induction (N.lt_wf_0 x) as [x _ IH]; intros s Hc.
  assert (x = 0 ∨ 0 < x)%N as [->|Hx] by lia; [done|].
  rewrite pretty_N_go_step by done.
  rewrite IH; [|by apply N.div_lt|done].
  simpl. by rewrite decide_False.
Qed.

Lemma count_char_pretty_N c (x : N) :
  (∀ d, pretty_N_char d ≠ c) → count_char c (pretty x) = 0.
Proof.
  intros Hc. unfold pretty, pretty_N. case_decide.
  - simpl. rewrite decide_False; [done|]. apply (Hc 0%N).
  - by rewrite count_char_pretty_N_go.
Qed.

Lemma underscore_no_digit d : pretty_N_char d ≠ "_"%char.
Proof. unfold pretty_N_char. by repeat case_match. Qed.

Lemma count_underscore_pretty_Z (z : Z) : count_char "_" (pretty z) = 0.
Proof.
  destruct z as [|x|x]; [done|..].
  - apply (count_char_pretty_N _ (N.pos x)), underscore_no_digit.
  - unfold pretty, pretty_Z. simpl.
    apply (count_char_pretty_N _ (N.pos x)), underscore_no_digit.
Qed.
End Strings.

Section Dicts.
Context {V : Type}.
Implicit Types (d : list (string * V)) (k : string) (v : V).

Lemma dict_lookup_dict_set d k v k' :
  dict_lookup (dict_set d k v) k'
  = if decide (k = k') then Some v else dict_lookup d k'.
Proof.
  induction d as [|[k0 v0] d IH]; simpl.
  - by case_decide.
  - destruct (decide (k0 = k)) as [->|Hk0]; simpl.
    + case_decide; [done|]. done.
    + rewrite IH. repeat case_decide; simplify_eq; done.
Qed.

Lemma dict_lookup_None d k : dict_lookup d k = None ↔ k ∉ d.*1.
Proof.
  induction d as [|[k0 v0] d IH]; simpl.
  - split; [intros _ H; by apply elem_of_nil in H|done].
  - case_decide as Hk; rewrite elem_of_cons; simpl.
    + split; [done|]. intros H. destruct H. by left.
    + rewrite IH. naive_solver.
Qed.

Lemma dict_lookup_Some_elem d k v : dict_lookup d k = Some v → (k, v) ∈ d.
Proof.
  induction d as [|[k0 v0] d IH]; simpl; [done|].
  case_decide as Hk.
  - intros [= ->]. subst. by apply elem_of_cons; left.
  - intros H. apply elem_of_cons. right. by apply IH.
Qed.

Lemma dict_lookup_elem d k v : NoDup d.*1 → (k, v) ∈ d → dict_lookup d k = Some v.
Proof.
  induction d as [|[k0 v0] d IH]; simpl.
  - intros _ H. by apply elem_of_nil in H.
  - intros [Hk0 Hd]%NoDup_cons [[= -> ->]|Hin]%elem_of_cons.
    + by rewrite decide_True.
    + case_decide as Hk; [|by apply IH]. subst.
      destruct Hk0. apply list_elem_of_fmap. by exists (k, v).
Qed.

(** A new key goes to the end of the dict. *)
Lemma dict_set_fresh d k v : k ∉ d.*1 → dict_set d k v = d ++ [(k, v)].
Proof.
  induction d as [|[k0 v0] d IH]; simpl; [done|].
  rewrite elem_of_cons. intros Hk. rewrite decide_False by naive_solver.
  rewrite IH by naive_solver. done.
Qed.

Lemma dict_set_keys d k v :
  (dict_set d k v).*1 = if decide (k ∈ d.*1) then d.*1 else d.*1 ++ [k].
Proof.
  induction d as [|[k0 v0] d IH].
  - destruct (decide (k ∈ ([] : list (string * V)).*1)) as [H|H]; [|done].
    by apply elem_of_nil in H.
  - cbn [dict_set]. destruct (decide (k0 = k)) as [->|Hk0].
    + destruct (decide (k ∈ ((k, v0) :: d).*1)) as [H|H]; [done|].
      destruct H. by apply elem_of_cons; left.
    + rewrite fmap_cons, IH. cbn [fst].
      destruct (decide (k ∈ d.*1)) as [Hin|Hin];
        destruct (decide (k ∈ ((k0, v0) :: d).*1)) as [H|H]; try done.
      * destruct H. by apply elem_of_cons; right.
      * apply elem_of_cons in H as [->|H]; done.
Qed.

Lemma dict_set_NoDup d k v : NoDup d.*1 → NoDup (dict_set d k v).*1.
Proof.
  intros Hd. rewrite dict_set_keys. case_decide as Hk; [done|].
  apply NoDup_app. split_and!; [done| |apply NoDup_singleton].
  intros x Hx ->%list_elem_of_singleton. done.
Qed.
End Dicts.

(** ** _get_attr_name, _get_attr_wrapper_name and the model name *)

Module NamesFacts.
Import Names.

Lemma split_attr_name i j :
  split_on "_" (_get_attr_name i j) = ["shadow"; pretty i; pretty j].
Proof.
  unfold _get_attr_name, SHADOW_NODE_NAME_PREFIX.
  change ("shadow" +:+ "_" +:+ pretty i +:+ "_" +:+ pretty j)
    with ("shadow" +:+ String "_" (pretty i +:+ String "_" (pretty j))).
  rewrite (split_on_app "_" "shadow") by done.
  rewrite split_on_app by apply count_underscore_pretty_Z.
  by rewrite split_on_none by apply count_underscore_pretty_Z.
Qed.

Lemma split_attr_wrapper_name i j :
  split_on "_" (_get_attr_wrapper_name i j) = ["shadow"; "wrapper"; pretty i; pretty j].
Proof.
  unfold _get_attr_wrapper_name, SHADOW_WRAPPER_NODE_NAME_PREFIX.
  change ("shadow_wrapper" +:+ "_" +:+ pretty i +:+ "_" +:+ pretty j)
    with ("shadow" +:+ String "_" ("wrapper" +:+ String "_" (pretty i +:+ String "_" (pretty j)))).
  rewrite (split_on_app "_" "shadow") by done.
  rewrite (split_on_app "_" "wrapper") by done.
  rewrite split_on_app by apply count_underscore_pretty_Z.
  by rewrite split_on_none by apply count_underscore_pretty_Z.
Qed.

Lemma split_model_name i j :
  split_on "_" (model_name i j) = ["subgraph"; pretty i; pretty j].
Proof.
  unfold model_name.
  change ("subgraph_" +:+ pretty i +:+ "_" +:+ pretty j)
    with ("subgraph" +:+ String "_" (pretty i +:+ String "_" (pretty j))).
  rewrite (split_on_app "_" "subgraph") by done.
  rewrite split_on_app by apply count_underscore_pretty_Z.
  by rewrite split_on_none by apply count_underscore_pretty_Z.
Qed.

(** The attribute names of loggers and of wrappers never collide: the name
    determines the pair of indices, and no logger name is a wrapper name. *)
Theorem attr_names_never_collide (i j i' j' : Z) :
  (_get_attr_name i j = _get_attr_name i' j' ↔ i = i' ∧ j = j')
  ∧ (_get_attr_wrapper_name i j = _get_attr_wrapper_name i' j' ↔ i = i' ∧ j = j')
  ∧ _get_attr_name i j ≠ _get_attr_wrapper_name i' j'.
Proof.
  split_and!.
  - split; [|by intros [-> ->]]. intros H.
    apply (f_equal (split_on "_")) in H. rewrite !split_attr_name in H.
    injection H as Hi Hj. split; by apply (inj pretty).
  - split; [|by intros [-> ->]]. intros H.
    apply (f_equal (split_on "_")) in H. rewrite !split_attr_wrapper_name in H.
    injection H as Hi Hj. split; by apply (inj pretty).
  - intros H. apply (f_equal (split_on "_")) in H.
    rewrite split_attr_name, split_attr_wrapper_name in H. done.
Qed.

End NamesFacts.

(** ** group_results_by_subgraph *)

Module AggregateFacts.
Import Aggregate.

Lemma string_app_assoc (s t u : string) : (s +:+ t) +:+ u = s +:+ (t +:+ u).
Proof.
  induction s as [|a s IH]; [done|].
  change (String a ((s +:+ t) +:+ u) = String a (s +:+ (t +:+ u))). by rewrite IH.
Qed.

(** A key of three pieces is its subgraph name, an underscore and its
    candidate index. *)
Lemma split3_join k a b c :
  split_on "_" k = [a; b; c] →
  k = (a +:+ "_" +:+ b) +:+ "_" +:+ c
  ∧ count_char "_" a = 0 ∧ count_char "_" b = 0 ∧ count_char "_" c = 0.
Proof.
  intros H.
  apply split_on_cons_inv in H as [Ha [[? _]|(t1 & -> & H)]]; [done|].
  apply split_on_cons_inv in H as [Hb [[? _]|(t2 & -> & H)]]; [done|].
  apply split_on_cons_inv in H as [Hc [[_ ->]|(t3 & -> & H)]].
  2: { by destruct (split_on_nonempty "_" t3). }
  split_and!; try done. by rewrite string_app_assoc.
Qed.

Lemma join_split3 a b c :
  count_char "_" a = 0 → count_char "_" b = 0 → count_char "_" c = 0 →
  split_on "_" ((a +:+ "_" +:+ b) +:+ "_" +:+ c) = [a; b; c].
Proof.
  intros Ha Hb Hc. rewrite string_app_assoc.
  change (a +:+ ("_" +:+ b) +:+ "_" +:+ c)
    with (a +:+ String "_" (b +:+ String "_" c)).
  rewrite split_on_app by done. rewrite split_on_app by done.
  by rewrite split_on_none.
Qed.

Section Group.
Context {Tensor : Type}.
Implicit Types (d acc out : list (string * list (string * LoggerResult Tensor))).
Implicit Types (entries : list (string * list (LoggerResult Tensor))).

Lemma lookup2_group_set d n i v n' i' :
  lookup2 (group_set d n i v) n' i'
  = if decide (n = n' ∧ i = i') then Some v else lookup2 d n' i'.
Proof.
  unfold lookup2, group_set. rewrite dict_lookup_dict_set.
  destruct (decide (n = n')) as [<-|Hn]; simpl.
  - rewrite dict_lookup_dict_set.
    destruct (decide (i = i')) as [<-|Hi].
    + by rewrite decide_True.
    + rewrite decide_False by naive_solver.
      by destruct (dict_lookup d n).
  - by rewrite decide_False by naive_solver.
Qed.

(** One round returns exactly when the key has three pieces and the list a
    first record, which it files under the subgraph name and the index. *)
Lemma group_step_spec acc k recs :
  (∃ a b c r0, split_on "_" k = [a; b; c] ∧ head recs = Some r0
     ∧ group_step acc (k, recs) = Returns (group_set acc (a +:+ "_" +:+ b) c r0))
  ∨ (count_char "_" k ≠ 2 ∧ group_step acc (k, recs) = Raises (Builtin ValueError))
  ∨ (count_char "_" k = 2 ∧ recs = []
     ∧ group_step acc (k, recs) = Raises (Builtin IndexError)).
Proof.
  unfold group_step. pose proof (length_split_on "_" k) as Hlen.
  destruct (split_on "_" k) as [|a [|b [|c [|??]]]] eqn:Hk; simpl in *;
    try (right; left; split; [lia|done]).
  destruct recs as [|r0 recs]; simpl.
  - right. right. split_and!; [lia|done..].
  - left. exists a, b, c, r0. split_and!; [done..|]. by destruct r0.
Qed.

Lemma group_loop_returns entries : ∀ acc,
  (∃ out, for_each group_step entries acc = Returns out)
  ↔ ∀ k recs, (k, recs) ∈ entries → count_char "_" k = 2 ∧ recs ≠ [].
Proof.
  induction entries as [|[k recs] entries IH]; intros acc; cbn [for_each].
  { split; [|by eexists]. intros _ k recs H. by apply elem_of_nil in H. }
  destruct (group_step_spec acc k recs)
    as [(a & b & c & r0 & Hk & Hr & ->)|[[Hk ->]|(Hk & Hr & ->)]]; simpl.
  - rewrite IH. split.
    + intros H k' recs' [[= -> ->]|Hin]%elem_of_cons; [|by apply H].
      pose proof (length_split_on "_" k) as Hlen. rewrite Hk in Hlen. cbn [length] in Hlen.
      split; [lia|]. by intros ->.
    + intros H k' recs' Hin. apply H. by apply elem_of_cons; right.
  - split; [by intros [? ?]|]. intros H.
    destruct (H k recs) as [? _]; [by apply elem_of_cons; left|done].
  - split; [by intros [? ?]|]. intros H.
    destruct (H k recs) as [_ ?]; [by apply elem_of_cons; left|done].
Qed.

Lemma group_loop_raises entries : ∀ acc s,
  for_each group_step entries acc = Raises s →
  s = Builtin ValueError ∨ s = Builtin IndexError.
Proof.
  induction entries as [|[k recs] entries IH]; intros acc s; cbn [for_each]; [done|].
  destruct (group_step_spec acc k recs)
    as [(a & b & c & r0 & Hk & Hr & ->)|[[Hk ->]|(Hk & Hr & ->)]]; simpl.
  - apply IH.
  - intros [= <-]. by left.
  - intros [= <-]. by right.
Qed.

(** What the loop leaves in the dict: the first record of every entry,
    under the two parts of its key, and beside that what was there. *)
Lemma group_loop_spec entries : ∀ acc out,
  for_each group_step entries acc = Returns out →
  NoDup entries.*1 →
  (∀ k recs, (k, recs) ∈ entries →
     ∃ a b c r0, split_on "_" k = [a; b; c] ∧ head recs = Some r0
       ∧ lookup2 out (a +:+ "_" +:+ b) c = Some r0)
  ∧ (∀ n c r, lookup2 out n c = Some r →
       lookup2 acc n c = Some r
       ∨ ∃ recs, (n +:+ "_" +:+ c, recs) ∈ entries ∧ head recs = Some r)
  ∧ (∀ n c, n +:+ "_" +:+ c ∉ entries.*1 → lookup2 out n c = lookup2 acc n c).
Proof.
  induction entries as [|[k recs] entries IH]; intros acc out; cbn [for_each].
  { intros [= <-] _. split_and!; [|by left|done].
    intros k recs H. by apply elem_of_nil in H. }
  destruct (group_step_spec acc k recs)
    as [(a & b & c & r0 & Hk & Hr & ->)|[[Hk ->]|(Hk & Hr & ->)]]; simpl; [|done..].
  intros Hout [Hfresh Hnd]%NoDup_cons.
  destruct (IH _ _ Hout Hnd) as (H1 & H2 & H3).
  destruct (split3_join _ _ _ _ Hk) as (Hjoin & _).
  split_and!.
  - intros k' recs' [[= -> ->]|Hin]%elem_of_cons; [|by apply H1].
    exists a, b, c, r0. split_and!; [done..|].
    rewrite H3 by (by rewrite <-Hjoin).
    rewrite lookup2_group_set. by rewrite decide_True.
  - intros n c' r Hl. destruct (H2 _ _ _ Hl) as [Hacc|(recs' & Hin & Hr')].
    + rewrite lookup2_group_set in Hacc. case_decide as Heq; [|by left].
      destruct Heq as [<- <-]. injection Hacc as <-. right.
      exists recs. split; [|done]. apply elem_of_cons. left. by rewrite Hjoin.
    + right. exists recs'. split; [|done]. by apply elem_of_cons; right.
  - intros n c' [Hne Hnot]%not_elem_of_cons. rewrite H3 by done.
    rewrite lookup2_group_set. rewrite decide_False; [done|].
    intros [<- <-]. by rewrite Hjoin in Hne.
Qed.

Lemma elem_of_dict_set_inv {V} (d0 : list (string * V)) k v x :
  x ∈ dict_set d0 k v → x = (k, v) ∨ x ∈ d0.
Proof. apply elem_of_dict_set. Qed.

Lemma group_set_is_dict2 d n i v : is_dict2 d → is_dict2 (group_set d n i v).
Proof.
  intros [Hd Hin]. unfold group_set. split; [by apply dict_set_NoDup|].
  intros n' inner' [[= -> ->]|H]%elem_of_dict_set_inv; [|by eapply Hin].
  apply dict_set_NoDup. destruct (dict_lookup d n) as [inner|] eqn:Hl; simpl.
  - eapply Hin. by apply dict_lookup_Some_elem.
  - constructor.
Qed.

Lemma group_loop_is_dict2 entries : ∀ acc out,
  for_each group_step entries acc = Returns out → is_dict2 acc → is_dict2 out.
Proof.
  induction entries as [|[k recs] entries IH]; intros acc out; cbn [for_each].
  { by intros [= <-]. }
  destruct (group_step_spec acc k recs)
    as [(a & b & c & r0 & Hk & Hr & ->)|[[Hk ->]|(Hk & Hr & ->)]]; simpl; [|done..].
  intros Hout Hacc. eapply IH; [done|]. by apply group_set_is_dict2.
Qed.

Lemma group_unfold (results : NSResults Tensor) model node_output :
  dict_lookup results "model" = Some model →
  dict_lookup model "node_output" = Some node_output →
  group_results_by_subgraph results = for_each group_step node_output [].
Proof.
  intros Hm Hn. unfold group_results_by_subgraph, dict_get. rewrite Hm. simpl.
  by rewrite Hn.
Qed.

(** The call returns exactly when the results hold the two outer keys,
    every layer name has exactly two underscores and every list of records
    is non-empty; otherwise it raises [KeyError] for an outer key,
    [ValueError] for the unpacking of the split name, or [IndexError] for
    the first record. *)
Theorem group_returns_iff (results : NSResults Tensor) :
  ((∃ out, group_results_by_subgraph results = Returns out)
   ↔ ∃ model node_output,
       dict_lookup results "model" = Some model
       ∧ dict_lookup model "node_output" = Some node_output
       ∧ ∀ k recs, (k, recs) ∈ node_output → count_char "_" k = 2 ∧ recs ≠ [])
  ∧ (∀ s, group_results_by_subgraph results = Raises s →
       s = KeyError "model" ∨ s = KeyError "node_output"
       ∨ s = Builtin ValueError ∨ s = Builtin IndexError).
Proof.
  destruct (dict_lookup results "model") as [model|] eqn:Hm.
  2: { unfold group_results_by_subgraph, dict_get. rewrite Hm. simpl. split.
       - split; [by intros [? ?]|]. by intros (? & ? & ? & _).
       - intros s [= <-]. by left. }
  destruct (dict_lookup model "node_output") as [node_output|] eqn:Hn.
  2: { unfold group_results_by_subgraph, dict_get. rewrite Hm. simpl. rewrite Hn. split.
       - split; [by intros [? ?]|]. intros (? & ? & [= <-] & ? & _). congruence.
       - intros s [= <-]. right. by left. }
  rewrite (group_unfold _ _ _ Hm Hn). split.
  - rewrite group_loop_returns. split.
    + intros H. by exists model, node_output.
    + intros (? & ? & [= <-] & Hn' & H). rewrite Hn in Hn'. by injection Hn' as <-.
  - intros s Hs. apply group_loop_raises in Hs as [->| ->]; auto.
Qed.

(** No record is lost or invented: when the call returns, the first record
    of every layer is found under its subgraph name and candidate index,
    the two parts of the layer name around its last underscore, and every
    record found in the result is the first record of such a layer. *)
Theorem group_files_every_layer (results : NSResults Tensor)
    model node_output out :
  dict_lookup results "model" = Some model →
  dict_lookup model "node_output" = Some node_output →
  NoDup node_output.*1 →
  group_results_by_subgraph results = Returns out →
  (∀ k recs, (k, recs) ∈ node_output →
     ∃ subgraph_name idx r0,
       k = subgraph_name +:+ "_" +:+ idx ∧ count_char "_" idx = 0
       ∧ head recs = Some r0 ∧ lookup2 out subgraph_name idx = Some r0)
  ∧ (∀ subgraph_name idx r, lookup2 out subgraph_name idx = Some r →
       ∃ recs, (subgraph_name +:+ "_" +:+ idx, recs) ∈ node_output
         ∧ head recs = Some r)
  ∧ is_dict2 out.
Proof.
  intros Hm Hn Hnd. rewrite (group_unfold _ _ _ Hm Hn). intros Hout.
  destruct (group_loop_spec _ _ _ Hout Hnd) as (H1 & H2 & _).
  split_and!.
  - intros k recs Hin. destruct (H1 _ _ Hin) as (a & b & c & r0 & Hk & Hr & Hl).
    destruct (split3_join _ _ _ _ Hk) as (Hjoin & _ & _ & Hc).
    by exists (a +:+ "_" +:+ b), c, r0.
  - intros n c r Hl. by destruct (H2 _ _ _ Hl) as [?|?].
  - eapply group_loop_is_dict2; [done|]. split; [constructor|].
    intros n inner H. by apply elem_of_nil in H.
Qed.

Lemma model_name_inj i j i' j' :
  Names.model_name i j = Names.model_name i' j' → i = i' ∧ j = j'.
Proof.
  intros H. apply (f_equal (split_on "_")) in H.
  rewrite !NamesFacts.split_model_name in H. injection H as Hi Hj.
  split; by apply (inj pretty).
Qed.

Lemma count_model_name i j : count_char "_" (Names.model_name i j) = 2.
Proof.
  pose proof (length_split_on "_" (Names.model_name i j)) as H.
  rewrite NamesFacts.split_model_name in H. cbn [length] in H. lia.
Qed.

(** The names the loggers file their results under parse back: for results
    keyed by the model names of pairwise distinct pairs of indices, each
    with at least one record, the call returns, and the first record of the
    pair [(i, j)] is found under [subgraph_i] and [j]. *)
Theorem group_of_logged_results
    (entries : list (Z * Z * list (LoggerResult Tensor))) :
  NoDup entries.*1 →
  (∀ e, e ∈ entries → e.2 ≠ []) →
  ∃ out, group_results_by_subgraph (logged entries) = Returns out
    ∧ ∀ i j recs, (i, j, recs) ∈ entries →
        lookup2 out ("subgraph_" +:+ pretty i) (pretty j) = head recs.
Proof.
  intros Hnd Hne.
  set (node_output := (λ e : Z * Z * list (LoggerResult Tensor),
                         (Names.model_name e.1.1 e.1.2, e.2)) <$> entries).
  assert (group_results_by_subgraph (logged entries)
          = for_each group_step node_output []) as -> by done.
  assert (∃ out, for_each group_step node_output [] = Returns out) as [out Hout].
  { apply group_loop_returns. intros k recs Hin.
    apply list_elem_of_fmap in Hin as ([[i j] recs'] & [= -> ->] & Hin). simpl.
    split; [apply count_model_name|]. by apply (Hne _ Hin). }
  exists out. split; [done|]. intros i j recs Hin.
  assert (NoDup node_output.*1) as Hnd'.
  { unfold node_output. rewrite <-list_fmap_compose.
    assert (((fst ∘ λ e : Z * Z * list (LoggerResult Tensor),
               (Names.model_name e.1.1 e.1.2, e.2)) <$> entries)
            = (λ ij : Z * Z, Names.model_name ij.1 ij.2) <$> entries.*1) as ->.
    { rewrite <-list_fmap_compose. done. }
    apply NoDup_fmap_2; [|done].
    intros [i1 j1] [i2 j2] Heq. simpl in Heq.
    apply model_name_inj in Heq as [-> ->]. done. }
  destruct (group_loop_spec _ _ _ Hout Hnd') as (H1 & _).
  destruct (H1 (Names.model_name i j) recs) as (a & b & c & r0 & Hk & Hr & Hl).
  { apply list_elem_of_fmap. by exists (i, j, recs). }
  rewrite NamesFacts.split_model_name in Hk. injection Hk as <- <- <-.
  by rewrite Hr.
Qed.

End Group.

(** ** create_results_comparison *)

Section Compare.
Context {Tensor : Type}.
Context (torch_stack : list Tensor → Outcome (list float)).
Context (torch_mean : list float → Outcome float).
Implicit Types (inner : list (string * LoggerResult Tensor)).
Implicit Types (grouped : list (string * list (string * LoggerResult Tensor))).

Local Abbreviation candidate_step' := (candidate_step torch_stack torch_mean).
Local Abbreviation comparison_step' := (comparison_step torch_stack torch_mean).
Local Abbreviation stacks' := (stacks torch_stack torch_mean).

Lemma candidate_step_spec acc k r :
  (k = "0" ∧ candidate_step' acc (k, r) = Returns acc)
  ∨ (k ≠ "0" ∧ ∃ raw mean, stacks' r raw mean
       ∧ candidate_step' acc (k, r) = Returns (dict_set acc k (candidate_of r raw mean)))
  ∨ (k ≠ "0" ∧ (∀ raw mean, ¬ stacks' r raw mean)
       ∧ ∃ s, candidate_step' acc (k, r) = Raises s).
Proof.
  unfold candidate_step, stacks. case_decide as Hk; [by left|]. right.
  destruct (torch_stack (comparisons r)) as [raw|s] eqn:Hs; simpl.
  - destruct (torch_mean raw) as [mean|s] eqn:Hm; simpl.
    + left. split; [done|]. by exists raw, mean.
    + right. split_and!; [done| |by eexists]. intros raw' mean' [[= <-] ?]. congruence.
  - right. split_and!; [done| |by eexists]. by intros raw' mean' [? ?].
Qed.

Lemma candidate_loop_returns inner : ∀ acc,
  (∃ cands, for_each candidate_step' inner acc = Returns cands)
  ↔ ∀ k r, (k, r) ∈ inner → k ≠ "0" → ∃ raw mean, stacks' r raw mean.
Proof.
  induction inner as [|[k r] inner IH]; intros acc; cbn [for_each].
  { split; [|by eexists]. intros _ k r H. by apply elem_of_nil in H. }
  destruct (candidate_step_spec acc k r)
    as [[-> ->]|[(Hk & raw & mean & Hst & ->)|(Hk & Hno & s & ->)]]; simpl.
  - rewrite IH. split.
    + intros H k' r' [[= -> ->]|Hin]%elem_of_cons; [done|by apply H].
    + intros H k' r' Hin. apply H. by apply elem_of_cons; right.
  - rewrite IH. split.
    + intros H k' r' [[= -> ->]|Hin]%elem_of_cons; [by eauto|by apply H].
    + intros H k' r' Hin. apply H. by apply elem_of_cons; right.
  - split; [by intros [? ?]|]. intros H.
    destruct (H k r) as (raw & mean & Hst); [by apply elem_of_cons; left|done|].
    by destruct (Hno raw mean).
Qed.

(** The candidates are appended in the order of the subgraph's items, the
    baseline left out. *)
Lemma candidate_loop_spec inner : ∀ acc cands,
  for_each candidate_step' inner acc = Returns cands →
  NoDup inner.*1 →
  (∀ k, k ∈ inner.*1 → k ∉ acc.*1) →
  ∃ new, cands = acc ++ new
    ∧ Forall2 (is_candidate_of torch_stack torch_mean) (non_baseline inner) new.
Proof.
  induction inner as [|[k r] inner IH]; intros acc cands; cbn [for_each].
  { intros [= <-] _ _. exists []. by rewrite app_nil_r. }
  intros Hloop [Hk0 Hnd]%NoDup_cons Hfresh. unfold non_baseline.
  destruct (candidate_step_spec acc k r)
    as [[-> Hst]|[(Hk & raw & mean & Hst & Hstep)|(Hk & Hno & s & Hstep)]];
    rewrite ?Hst, ?Hstep in Hloop; simpl in Hloop; [| |done].
  - rewrite filter_cons_False by (simpl; naive_solver).
    apply IH; [done..|]. intros k' Hk'. apply Hfresh. by apply elem_of_cons; right.
  - rewrite filter_cons_True by done.
    rewrite dict_set_fresh in Hloop by (apply Hfresh; by apply elem_of_cons; left).
    destruct (IH _ _ Hloop Hnd) as (new & -> & Hall).
    { intros k' Hk'. rewrite fmap_app. intros [Hin|Hin]%elem_of_app.
      - revert Hin. apply Hfresh. by apply elem_of_cons; right.
      - apply list_elem_of_singleton in Hin. simpl in Hin. by subst. }
    exists ((k, candidate_of r raw mean) :: new). split; [by rewrite <-app_assoc|].
    constructor; [|done]. split; [done|]. by exists raw, mean.
Qed.

Lemma comparison_step_spec acc name inner :
  (∃ cands baseline,
     for_each candidate_step' inner [] = Returns cands
     ∧ dict_lookup inner "0" = Some baseline
     ∧ comparison_step' acc (name, inner)
       = Returns (dict_set acc name
                    {| Summary.ref_node_name := ref_node_name baseline;
                       Summary.candidates := cands |}))
  ∨ (∃ cands, for_each candidate_step' inner [] = Returns cands
       ∧ dict_lookup inner "0" = None
       ∧ comparison_step' acc (name, inner) = Raises (KeyError "0"))
  ∨ (∃ s, for_each candidate_step' inner [] = Raises s
       ∧ comparison_step' acc (name, inner) = Raises s).
Proof.
  unfold comparison_step, dict_get.
  destruct (for_each candidate_step' inner []) as [cands|s]; simpl.
  - destruct (dict_lookup inner "0") as [baseline|] eqn:Hb; simpl.
    + left. by exists cands, baseline.
    + right. left. by exists cands.
  - right. right. by exists s.
Qed.

Lemma comparison_loop_returns grouped : ∀ acc,
  (∃ rc, for_each comparison_step' grouped acc = Returns rc)
  ↔ ∀ name inner, (name, inner) ∈ grouped →
      is_Some (dict_lookup inner "0")
      ∧ ∀ k r, (k, r) ∈ inner → k ≠ "0" → ∃ raw mean, stacks' r raw mean.
Proof.
  induction grouped as [|[name inner] grouped IH]; intros acc; cbn [for_each].
  { split; [|by eexists]. intros _ k r H. by apply elem_of_nil in H. }
  destruct (comparison_step_spec acc name inner)
    as [(cands & b & Hc & Hb & ->)|[(cands & Hc & Hb & ->)|(s & Hc & ->)]]; simpl.
  - rewrite IH. split.
    + intros H n' i' [[= -> ->]|Hin]%elem_of_cons; [|by apply (H n' i')].
      split; [by rewrite Hb|]. apply (candidate_loop_returns inner []). by eexists.
    + intros H n' i' Hin. apply (H n' i'). by apply elem_of_cons; right.
  - split; [by intros [? ?]|]. intros H.
    destruct (H name inner) as [[? Hs] _]; [by apply elem_of_cons; left|congruence].
  - split; [by intros [? ?]|]. intros H.
    destruct (H name inner) as [_ Hst]; [by apply elem_of_cons; left|].
    apply (candidate_loop_returns inner []) in Hst as [? ?]. congruence.
Qed.

Lemma comparison_loop_spec grouped : ∀ acc rc,
  for_each comparison_step' grouped acc = Returns rc →
  is_dict2 grouped →
  (∀ k, k ∈ grouped.*1 → k ∉ acc.*1) →
  ∃ new, rc = acc ++ new
    ∧ Forall2 (is_comparison_of torch_stack torch_mean) grouped new.
Proof.
  induction grouped as [|[name inner] grouped IH]; intros acc rc; cbn [for_each].
  { intros [= <-] _ _. exists []. by rewrite app_nil_r. }
  intros Hloop [[Hk0 Hnd]%NoDup_cons Hin] Hfresh.
  destruct (comparison_step_spec acc name inner)
    as [(cands & b & Hc & Hb & Hstep)|[(cands & Hc & Hb & Hstep)|(s & Hc & Hstep)]];
    rewrite Hstep in Hloop; simpl in Hloop; [|done..].
  rewrite dict_set_fresh in Hloop by (apply Hfresh; by apply elem_of_cons; left).
  destruct (IH _ _ Hloop) as (new & -> & Hall).
  { split; [done|]. intros n' i' H. eapply Hin. by apply elem_of_cons; right. }
  { intros k' Hk'. rewrite fmap_app. intros [H|H]%elem_of_app.
    - revert H. apply Hfresh. by apply elem_of_cons; right.
    - apply list_elem_of_singleton in H. simpl in H. by subst. }
  eexists (_ :: new). split; [by rewrite <-app_assoc|].
  constructor; [|done]. split_and!; [done|by exists b|]. simpl.
  destruct (candidate_loop_spec inner [] cands Hc) as (new' & -> & Hc').
  - eapply Hin. by apply elem_of_cons; left.
  - intros k _ H. by apply elem_of_nil in H.
  - done.
Qed.

(** The call returns exactly when every subgraph has its baseline ["0"]
    and every other candidate of every subgraph can be stacked and
    averaged. *)
Theorem comparison_returns_iff grouped :
  (∃ rc, create_results_comparison torch_stack torch_mean grouped = Returns rc)
  ↔ ∀ name inner, (name, inner) ∈ grouped →
      is_Some (dict_lookup inner "0")
      ∧ ∀ k r, (k, r) ∈ inner → k ≠ "0" → ∃ raw mean, stacks' r raw mean.
Proof. apply comparison_loop_returns. Qed.

(** A subgraph without the baseline ["0"] ends the call with
    [KeyError('0')], after its candidates have been stacked: when all
    candidates stack and average, that is the signal of the call. *)
Theorem comparison_without_baseline grouped name inner :
  all_stack torch_stack torch_mean grouped →
  (name, inner) ∈ grouped →
  dict_lookup inner "0" = None →
  create_results_comparison torch_stack torch_mean grouped = Raises (KeyError "0").
Proof.
  unfold create_results_comparison. generalize (@nil (string * Summary.SubgraphData)).
  induction grouped as [|[n0 i0] grouped IH]; intros acc Hall Hin Hnone.
  { by apply elem_of_nil in Hin. }
  cbn [for_each].
  destruct (comparison_step_spec acc n0 i0)
    as [(cands & b & Hc & Hb & ->)|[(cands & Hc & Hb & ->)|(s & Hc & ->)]]; simpl.
  - apply elem_of_cons in Hin as [[= <- <-]|Hin]; [congruence|].
    apply IH; [|done..]. intros n i k r Hni. apply (Hall n i k r). by apply elem_of_cons; right.
  - done.
  - assert (∃ cands, for_each candidate_step' i0 [] = Returns cands) as [? ?];
      [|congruence].
    apply candidate_loop_returns. intros k r Hk Hne.
    apply (Hall n0 i0 k r); [|done..]. by apply elem_of_cons; left.
Qed.

(** What a successful call returns: one entry per subgraph, in the order
    of the grouped results and under the same names, with the baseline's
    reference node name and one candidate per item other than the baseline,
    in the items' order and under the items' keys. *)
Theorem comparison_content grouped rc :
  is_dict2 grouped →
  create_results_comparison torch_stack torch_mean grouped = Returns rc →
  Forall2 (is_comparison_of torch_stack torch_mean) grouped rc.
Proof.
  intros Hd Hrc. destruct (comparison_loop_spec grouped [] rc Hrc Hd) as (new & -> & H).
  - intros k _ Hk. by apply elem_of_nil in Hk.
  - done.
Qed.

End Compare.

Lemma group_files_every_layer_witness :
  (∀ k recs, (k, recs) ∈ AggregateExamples.node_output →
     ∃ subgraph_name idx r0,
       k = subgraph_name +:+ "_" +:+ idx ∧ count_char "_" idx = 0
       ∧ head recs = Some r0
       ∧ lookup2 AggregateExamples.grouped subgraph_name idx = Some r0)
  ∧ (∀ subgraph_name idx r,
       lookup2 AggregateExamples.grouped subgraph_name idx = Some r →
       ∃ recs, (subgraph_name +:+ "_" +:+ idx, recs) ∈ AggregateExamples.node_output
         ∧ head recs = Some r)
  ∧ is_dict2 AggregateExamples.grouped.
Proof.
  apply (group_files_every_layer AggregateExamples.results
           AggregateExamples.model_results AggregateExamples.node_output
           AggregateExamples.grouped); [done|done| |by vm_compute].
  apply (bool_decide_unpack _). by vm_compute.
Defined.

Lemma group_of_logged_results_witness :
  ∃ out,
    group_results_by_subgraph (logged AggregateExamples.logged_entries) = Returns out
    ∧ ∀ i j recs, (i, j, recs) ∈ AggregateExamples.logged_entries →
        lookup2 out ("subgraph_" +:+ pretty i) (pretty j) = head recs.
Proof.
  apply (group_of_logged_results AggregateExamples.logged_entries).
  - apply (bool_decide_unpack _). by vm_compute.
  - intros e He. repeat (apply elem_of_cons in He as [->|He]; [done|]).
    by apply elem_of_nil in He.
Defined.

Lemma comparison_without_baseline_witness :
  create_results_comparison AggregateExamples.stack_scalars AggregateExamples.mean_of
    AggregateExamples.grouped_without_baseline
  = Raises (KeyError "0").
Proof.
  apply (comparison_without_baseline AggregateExamples.stack_scalars
           AggregateExamples.mean_of AggregateExamples.grouped_without_baseline
           "subgraph_0" [("1", AggregateExamples.candidate_record)]).
  - intros name inner k r Hin Hk Hne.
    apply list_elem_of_singleton in Hin. injection Hin as -> ->.
    apply list_elem_of_singleton in Hk. injection Hk as -> ->.
    by exists [45.0%float; 55.0%float], 50.0%float.
  - by apply list_elem_of_singleton.
  - done.
Defined.

Lemma comparison_content_witness :
  Forall2 (is_comparison_of AggregateExamples.stack_scalars AggregateExamples.mean_of)
    AggregateExamples.grouped AggregateExamples.comparison.
Proof.
  apply (comparison_content AggregateExamples.stack_scalars AggregateExamples.mean_of
           AggregateExamples.grouped AggregateExamples.comparison); [|by vm_compute].
  split; [apply (bool_decide_unpack _); by vm_compute|].
  intros n inner Hin.
  repeat (apply elem_of_cons in Hin as [[= -> ->]|Hin];
          [apply (bool_decide_unpack _); by vm_compute|]).
  by apply elem_of_nil in Hin.
Defined.

End AggregateFacts.

(** ** print_n_shadows_summary: the scan and the table *)

Section FloatNaN.
Implicit Types x y : spec_float.

(** A value that compares greater than another is no NaN. *)
Lemma SFltb_eqb_refl x y : SFltb x y = true → SFeqb y y = true.
Proof.
  unfold SFltb, SFeqb, SFcompare.
  destruct x as [sx|sx| |sx mx ex], y as [sy|sy| |sy my ey]; simpl; try done;
    repeat match goal with b : bool |- _ => destruct b end; simpl; try done;
    intros _; rewrite ?Z.compare_refl, ?Pos.compare_cont_refl, ?Pos.compare_refl;
    try done.
Qed.
End FloatNaN.

Lemma float_ltb_not_nan (a b : float) : (a <? b)%float = true → (b =? b)%float = true.
Proof. rewrite FloatAxioms.ltb_spec, FloatAxioms.eqb_spec. apply SFltb_eqb_refl. Qed.

Module SummaryMore.
Import Summary.

(** The scan for the best candidate, for every list of means, NaN included:
    it selects nothing exactly when no mean is greater than the sentinel
    -10000.0, and an index it selects is a position of the list, counted
    from 1, whose mean is greater than the sentinel and is no NaN. *)
Theorem find_best_cases (means : list float) :
  (find_best means = None ↔ ∀ w, w ∈ means → py_gt w sentinel = false)
  ∧ (∀ i, find_best means = Some i →
       (1 ≤ i ≤ length means)%nat
       ∧ ∃ v, means !! (i - 1)%nat = Some v
           ∧ py_gt v sentinel = true ∧ (v =? v)%float = true).
Proof.
  unfold find_best, enumerate.
  destruct (SummaryFacts.best_scan means 0 sentinel None)
    as [[Hr Hall]|(i & v & Hr & Hi & Hv & _)]; rewrite Hr; simpl.
  - split; [done|]. intros i [=].
  - split.
    + split; [done|]. intros Hall. rewrite Hall in Hv; [done|].
      by eapply list_elem_of_lookup_2.
    + intros i' [= <-]. pose proof (lookup_lt_Some _ _ _ Hi) as Hlt.
      split; [lia|]. exists v. replace (i + 1 - 1)%nat with i by lia.
      split_and!; [done..|]. by eapply float_ltb_not_nan.
Qed.

(** With the formatter at hand the function never raises, whatever the
    summary: it prints one string, the table of one row per subgraph, in
    the order of the summary, each row made of the subgraph's name, its
    reference node name, the best index and one cell per candidate. *)
Theorem print_with_tabulate (tabulate : Tabulate) (rc : ResultsComparison) :
  (∃ headers, headers_of (rows rc) = Ok headers
     ∧ print_n_shadows_summary (Some tabulate) rc
       = ([tabulate (rows rc) headers], Ok tt))
  ∧ Forall2 (λ kv row,
       row = CStr kv.1 :: CStr (ref_node_name kv.2)
             :: cell_of_best (find_best (mean_all_candidates kv.2))
             :: (CFloat <$> mean_all_candidates kv.2)
       ∧ length row = (3 + length (candidates kv.2))%nat) rc (rows rc).
Proof.
  split.
  - unfold print_n_shadows_summary, headers_of.
    rewrite SummaryFacts.max_len_loop_rows. simpl. by eexists.
  - unfold rows. apply Forall2_fmap_r, Forall_Forall2_diag, Forall_forall.
    intros [name sd] _. split; [done|]. unfold data_row, mean_all_candidates.
    simpl. by rewrite !length_fmap.
Qed.

End SummaryMore.

(** ** create_submodule_from_subgraph: the shape of the unit *)

Module UnitFacts.
Import Extract UnitShape.

(** *** The input placeholders *)

Lemma find_counter_fresh node (seen : gset string) : ∀ fuel counter c,
  find_counter fuel node seen counter = ret c → placeholder_name node c ∉ seen.
Proof.
  induction fuel as [|fuel IH]; intros counter c; simpl; case_decide as Hin; try done.
  - by intros [= <-].
  - apply IH.
  - by intros [= <-].
Qed.

Lemma grows_refl s : grows s s [].
Proof.
  split_and!; [by rewrite app_nil_r|set_solver|constructor|].
  intros name H. by apply elem_of_nil in H.
Qed.

Lemma grows_trans s s1 s2 n1 n2 :
  grows s s1 n1 → grows s1 s2 n2 → grows s s2 (n1 ++ n2).
Proof.
  intros (Hg1 & Hs1 & Hd1 & Hf1) (Hg2 & Hs2 & Hd2 & Hf2). split_and!.
  - by rewrite Hg2, Hg1, fmap_app, app_assoc.
  - rewrite Hs2, Hs1, list_to_set_app_L. set_solver.
  - apply NoDup_app. split_and!; [done| |done].
    intros name H1 H2. apply Hf2 in H2. rewrite Hs1 in H2. set_solver.
  - intros name [H|H]%elem_of_app; [by apply Hf1|].
    apply Hf2 in H. rewrite Hs1 in H. set_solver.
Qed.

Lemma add_placeholder_grows s n s' p :
  _add_placeholder s n = ret (s', p) →
  ∃ name, grows s s' [name] ∧ p = length (in_g s).
Proof.
  unfold _add_placeholder.
  destruct (find_counter _ _ _ _) as [[c|e]|] eqn:Hc; simpl; [|done..].
  intros [= <- <-]. exists (placeholder_name n c). split; [|done].
  apply find_counter_fresh in Hc.
  split_and!; simpl; [done|set_solver|apply NoDup_singleton|].
  by intros name ->%list_elem_of_singleton.
Qed.

Lemma copy_inner_args_grows inner : ∀ s acc s' l,
  copy_inner_args inner s acc = ret (s', l) → ∃ names, grows s s' names.
Proof.
  induction inner as [|a inner IH]; intros s acc s' l.
  { intros [= <- <-]. exists []. apply grows_refl. }
  destruct a as [n| | | | | |]; cbn [copy_inner_args]; try apply IH.
  destruct (_add_placeholder s n) as [[[s1 p]|e]|] eqn:Hadd; simpl; [|done..].
  intros (names & Hg)%IH. apply add_placeholder_grows in Hadd as (name & Hg1 & _).
  eexists. by eapply grows_trans.
Qed.

Lemma copy_first_args_grows todo : ∀ s acc s' l,
  copy_first_args todo s acc = ret (s', l) → ∃ names, grows s s' names.
Proof.
  induction todo as [|a todo IH]; intros s acc s' l.
  { intros [= <- <-]. exists []. apply grows_refl. }
  destruct a as [n|inner| | | | |]; cbn [copy_first_args]; try apply IH.
  - destruct (_add_placeholder s n) as [[[s1 p]|e]|] eqn:Hadd; simpl; [|done..].
    intros (names & Hg)%IH. apply add_placeholder_grows in Hadd as (name & Hg1 & _).
    eexists. by eapply grows_trans.
  - destruct (copy_inner_args inner s []) as [[[s1 p]|e]|] eqn:Hin; simpl; [|done..].
    intros (names & Hg)%IH. apply copy_inner_args_grows in Hin as (names1 & Hg1).
    eexists. by eapply grows_trans.
Qed.

Lemma copy_inner_kwargs_grows inner : ∀ s acc s' l,
  copy_inner_kwargs inner s acc = ret (s', l) → ∃ names, grows s s' names.
Proof.
  induction inner as [|a inner IH]; intros s acc s' l.
  { intros [= <- <-]. exists []. apply grows_refl. }
  destruct a as [n| | | | | |]; cbn [copy_inner_kwargs add_placeholder_for]; try done.
  destruct (_add_placeholder s n) as [[[s1 p]|e]|] eqn:Hadd; simpl; [|done..].
  intros (names & Hg)%IH. apply add_placeholder_grows in Hadd as (name & Hg1 & _).
  eexists. by eapply grows_trans.
Qed.

Lemma dict_set_key_iff {V} (d : list (string * V)) k v key :
  key ∈ (dict_set d k v).*1 ↔ key = k ∨ key ∈ d.*1.
Proof.
  rewrite dict_set_keys. case_decide as Hk.
  - split; [by right|]. by intros [->|?].
  - rewrite elem_of_app, list_elem_of_singleton. naive_solver.
Qed.

Lemma copy_first_kwargs_grows todo : ∀ s acc s' l,
  copy_first_kwargs todo s acc = ret (s', l) →
  (∃ names, grows s s' names)
  ∧ ∀ key, key ∈ l.*1 ↔ key ∈ acc.*1 ∨ key ∈ todo.*1.
Proof.
  induction todo as [|[k a] todo IH]; intros s acc s' l.
  { intros [= <- <-]. split; [exists []; apply grows_refl|].
    intros key. rewrite elem_of_nil. naive_solver. }
  assert (∀ s1 v names1, grows s s1 names1 →
            copy_first_kwargs todo s1 (dict_set acc k v) = ret (s', l) →
            (∃ names, grows s s' names)
            ∧ ∀ key, key ∈ l.*1 ↔ key ∈ acc.*1 ∨ key ∈ ((k, a) :: todo).*1) as Hstep.
  { intros s1 v names1 Hg1 [(names & Hg) Hkeys]%IH. split.
    - eexists. by eapply grows_trans.
    - intros key. rewrite Hkeys, dict_set_key_iff, fmap_cons, elem_of_cons. simpl.
      naive_solver. }
  destruct a as [n|inner| | | | |]; cbn [copy_first_kwargs];
    try (apply (Hstep s _ []), grows_refl).
  - destruct (_add_placeholder s n) as [[[s1 p]|e]|] eqn:Hadd; simpl; [|done..].
    apply add_placeholder_grows in Hadd as (name & Hg1 & _). by eapply Hstep.
  - destruct (copy_inner_kwargs inner s []) as [[[s1 p]|e]|] eqn:Hin; simpl; [|done..].
    apply copy_inner_kwargs_grows in Hin as (names1 & Hg1). by eapply Hstep.
Qed.

(** *** The copy of a node *)

Lemma mod_name_inj : Inj (=) (=) mod_name.
Proof.
  intros a b H. unfold mod_name in H.
  apply (inj (String.app "mod_")) in H. by apply (inj pretty) in H.
Qed.

Lemma attrs_fresh st : attrs_below st → mod_name (cur_name_idx st) ∉ (attrs st).*1.
Proof.
  intros Hb ([name a] & Heq & Hin)%list_elem_of_fmap. simpl in Heq. subst name.
  destruct (Hb _ _ Hin) as (j & Hj & Hname). apply mod_name_inj in Hname. lia.
Qed.

Lemma is_copy_of_mono model G attrs attrs' kw n c :
  (∀ x, x ∈ attrs → x ∈ attrs') →
  is_copy_of model G attrs kw n c → is_copy_of model G attrs' kw n c.
Proof.
  intros Hsub (Hop & Hkw & Ht). split_and!; [done..|].
  destruct (op (G n)); try done.
  destruct Ht as (name & orig & ? & ? & ?). exists name, orig. auto.
Qed.

Lemma copy_rest_args_shape ph todo : ∀ st acc st' l,
  copy_rest_args ph todo st acc = Ok (st', l) →
  attrs_below st →
  ∃ names extra,
    g st' = g st ++ (input_of <$> names)
    ∧ l = acc ++ extra
    ∧ (ph = false → names = [])
    ∧ attrs_below st'
    ∧ (∀ x, x ∈ attrs st → x ∈ attrs st')
    ∧ cur_node_orig st' = cur_node_orig st
    ∧ cur_iteration st' = cur_iteration st
    ∧ cur_node_copy st' = cur_node_copy st
    ∧ cur_kwargs_copy st' = cur_kwargs_copy st.
Proof.
  induction todo as [|a todo IH]; intros st acc st' l.
  { intros [= <- <-] Hb. exists [], []. rewrite !app_nil_r. by split_and!. }
  assert (∀ x, copy_rest_args ph todo st (acc ++ [x]) = Ok (st', l) →
            attrs_below st → ∃ names extra,
              g st' = g st ++ (input_of <$> names) ∧ l = acc ++ extra
              ∧ (ph = false → names = []) ∧ attrs_below st'
              ∧ (∀ x, x ∈ attrs st → x ∈ attrs st')
              ∧ cur_node_orig st' = cur_node_orig st
              ∧ cur_iteration st' = cur_iteration st
              ∧ cur_node_copy st' = cur_node_copy st
              ∧ cur_kwargs_copy st' = cur_kwargs_copy st) as Hlit.
  { intros x Hr Hb.
    destruct (IH _ _ _ _ Hr Hb) as (names & extra & ? & -> & ? & ? & ? & ? & ? & ? & ?).
    exists names, (x :: extra). rewrite <-app_assoc. by split_and!. }
  destruct a; cbn [copy_rest_args]; try done; try apply Hlit.
  destruct ph; [|done]. intros Hr Hb.
  apply IH in Hr as (names & extra & Hg & -> & _ & Hb' & Hsub & H1 & H2 & H3 & H4).
  - simpl in *. exists (mod_name (cur_name_idx st) :: names), (CNew (length (g st)) :: extra).
    split_and!; try done.
    + rewrite Hg. by rewrite <-app_assoc.
    + by rewrite <-app_assoc.
    + intros x Hx. apply Hsub. rewrite dict_set_fresh by by apply attrs_fresh.
      apply elem_of_app. by left.
  - intros name a. simpl. rewrite dict_set_fresh by by apply attrs_fresh.
    intros [Hin|Hin]%elem_of_app.
    + destruct (Hb _ _ Hin) as (j & Hj & ->). exists j. split; [lia|done].
    + apply list_elem_of_singleton in Hin. injection Hin as -> _.
      exists (cur_name_idx st). split; [lia|done].
Qed.

Lemma copy_node_shape model G st0 a st1 :
  copy_node model G st0 a = Ok st1 →
  attrs_below st0 →
  ∃ c, g st1 = g st0 ++ [c]
    ∧ n_args c = a
    ∧ is_placeholder c = false
    ∧ n_op c ≠ output
    ∧ is_copy_of model G (attrs st1) (cur_kwargs_copy st0) (cur_node_orig st0) c
    ∧ cur_node_copy st1 = Some (length (g st0))
    ∧ attrs_below st1
    ∧ (∀ x, x ∈ attrs st0 → x ∈ attrs st1)
    ∧ cur_node_orig st1 = cur_node_orig st0
    ∧ cur_iteration st1 = cur_iteration st0
    ∧ cur_kwargs_copy st1 = cur_kwargs_copy st0.
Proof.
  unfold copy_node, is_copy_of. intros Hc Hb.
  destruct (op (G (cur_node_orig st0))) eqn:Hop; try done.
  - injection Hc as <-. eexists. simpl. by split_and!.
  - injection Hc as <-. eexists. simpl. by split_and!.
  - destruct (getattr_from_fqn model _) as [orig_mod|e] eqn:Hget; simpl in Hc; [|done].
    injection Hc as <-. eexists. simpl.
    rewrite dict_set_fresh by by apply attrs_fresh.
    split_and!; try done.
    + eexists _, _. split_and!; [done..|]. apply elem_of_app. right.
      by apply list_elem_of_singleton.
    + intros name a'. intros [Hin|Hin]%elem_of_app.
      * destruct (Hb _ _ Hin) as (j & Hj & ->). exists j. split; [simpl; lia|done].
      * apply list_elem_of_singleton in Hin. injection Hin as -> _.
        exists (cur_name_idx st0). split; [simpl; lia|done].
    + intros x Hx. apply elem_of_app. by left.
Qed.

(** One round appends input placeholders and then the copy of the current
    node. *)
Lemma copy_current_shape ph model G first_node st st1 :
  copy_current ph model G first_node st = ret st1 →
  attrs_below st →
  ∃ names c,
    g st1 = g st ++ (input_of <$> names) ++ [c]
    ∧ is_placeholder c = false
    ∧ n_op c ≠ output
    ∧ is_copy_of model G (attrs st1) (cur_kwargs_copy st1) (cur_node_orig st) c
    ∧ cur_node_copy st1 = Some (length (g st) + length names)
    ∧ attrs_below st1
    ∧ (∀ x, x ∈ attrs st → x ∈ attrs st1)
    ∧ cur_node_orig st1 = cur_node_orig st
    ∧ (cur_node_orig st = first_node →
       NoDup names
       ∧ ∀ key, key ∈ (cur_kwargs_copy st1).*1 ↔ key ∈ (kwargs (G first_node)).*1)
    ∧ (cur_node_orig st ≠ first_node →
       cur_kwargs_copy st1 = cur_kwargs_copy st
       ∧ (ph = false → names = [])
       ∧ ∃ prev others, cur_node_copy st = Some prev ∧ n_args c = CNew prev :: others).
Proof.
  unfold copy_current, copy_args. intros Hc Hb.
  case_decide as Hfirst.
  - destruct (copy_first_args _ _ _) as [[[sa la]|e]|] eqn:Ha; simpl in Hc; [|done..].
    destruct (copy_first_kwargs _ _ _) as [[[sk lk]|e]|] eqn:Hk; simpl in Hc; [|done..].
    apply copy_first_args_grows in Ha as (names1 & Hg1).
    apply copy_first_kwargs_grows in Hk as [(names2 & Hg2) Hkeys].
    assert (grows {| in_g := g st; seen_names := ∅; old_name_to_new_node := [] |}
              sk (names1 ++ names2)) as (Hg & _ & Hnd & _).
    { eapply grows_trans; [done|]. by destruct sa. }
    simpl in Hg. injection Hc as Hc.
    apply copy_node_shape in Hc as (c & Hgc & Hargs & Hph & Hout & Hcopy & Hcc & Hb1
                                      & Hsub & Hn & Hit & Hkw); [|done].
    simpl in *. exists (names1 ++ names2), c.
    rewrite Hgc, Hg, <-app_assoc, Hkw.
    split_and!; try done.
    + rewrite Hcc, Hg, length_app, length_fmap. done.
    + intros _. split; [done|]. intros key. rewrite Hkeys, Hfirst.
      rewrite elem_of_nil. naive_solver.
  - destruct (in_binary_functions _); [done|].
    destruct (cur_node_copy st) as [prev|] eqn:Hprev; [|done].
    destruct (copy_rest_args _ _ _ _) as [[st0 a]|e] eqn:Hrest; simpl in Hc; [|done].
    injection Hc as Hc.
    apply copy_rest_args_shape in Hrest
      as (names & extra & Hg & -> & Hno & Hb0 & Hsub0 & Hn0 & Hit0 & Hcc0 & Hkw0); [|done].
    apply copy_node_shape in Hc as (c & Hgc & Hargs & Hph & Hout & Hcopy & Hcc & Hb1
                                      & Hsub & Hn & Hit & Hkw); [|done].
    exists names, c. rewrite Hgc, Hg, <-app_assoc, Hkw, Hkw0.
    rewrite Hn0, Hkw0 in Hcopy.
    split_and!; try done.
    + rewrite Hcc, Hg, length_app, length_fmap. done.
    + intros x Hx. by apply Hsub, Hsub0.
    + congruence.
    + intros _. split_and!; [done..|]. by exists prev, extra.
Qed.

(** *** The operations of a graph *)

Lemma enumerate_snoc {A} (l : list A) x :
  enumerate (l ++ [x]) = enumerate l ++ [(length l, x)].
Proof.
  unfold enumerate. rewrite length_app. simpl.
  rewrite Nat.add_1_r, seq_S. simpl.
  rewrite zip_with_app by by rewrite length_seq. done.
Qed.

Lemma body_snoc g x :
  body (g ++ [x])
  = body g ++ (if is_placeholder x then [] else [(length g, x)]).
Proof.
  unfold body. rewrite enumerate_snoc, filter_app. f_equal.
  destruct (is_placeholder x) eqn:Hx.
  - rewrite filter_cons_False; [done|]. simpl. by rewrite Hx.
  - by rewrite filter_cons_True.
Qed.

Lemma body_inputs names : ∀ g, body (g ++ (input_of <$> names)) = body g.
Proof.
  induction names as [|name names IH]; intros g; simpl; [by rewrite app_nil_r|].
  rewrite (cons_middle _ g), app_assoc, IH, body_snoc. simpl. by rewrite app_nil_r.
Qed.

Lemma body_round g names c :
  is_placeholder c = false →
  body (g ++ (input_of <$> names) ++ [c])
  = body g ++ [(length g + length names, c)].
Proof.
  intros Hc. rewrite app_assoc, body_snoc, body_inputs, Hc.
  by rewrite length_app, length_fmap.
Qed.

Lemma count_inputs names : ∀ g,
  count_placeholders (g ++ (input_of <$> names)) = count_placeholders g + length names.
Proof.
  induction names as [|name names IH]; intros g; simpl.
  { rewrite app_nil_r. lia. }
  rewrite (cons_middle _ g), app_assoc, IH, ExtractFacts.count_placeholders_app.
  simpl. lia.
Qed.

Lemma count_round names c :
  is_placeholder c = false →
  count_placeholders ((input_of <$> names) ++ [c]) = length names.
Proof.
  intros Hc. rewrite ExtractFacts.count_placeholders_app, Hc.
  pose proof (count_inputs names []) as H. simpl in H. rewrite H.
  unfold count_placeholders. simpl. lia.
Qed.

Lemma body_first_round names c :
  is_placeholder c = false →
  body ((input_of <$> names) ++ [c]) = [(length names, c)].
Proof. intros Hc. exact (body_round [] names c Hc). Qed.

(** *** The loop *)

Lemma go_to_next_ok G st st2 :
  go_to_next G st = Ok st2 →
  ∃ next, users (G (cur_node_orig st)) = [next]
    ∧ (cur_iteration st + 1 ≤ iteration_limit)%nat
    ∧ st2 = {| cur_node_orig := next; cur_name_idx := cur_name_idx st;
               cur_iteration := cur_iteration st + 1;
               cur_node_copy := cur_node_copy st;
               cur_kwargs_copy := cur_kwargs_copy st; g := g st; attrs := attrs st |}.
Proof.
  unfold go_to_next. destruct (users (G (cur_node_orig st))) as [|next [|??]]; try done.
  case_decide as Hlim; [done|]. intros [= <-]. exists next. simpl in Hlim.
  split_and!; [done|lia|done].
Qed.

Section Loop.
Context (ph : bool) (model : gmap string string) (G : FxGraph).
Context (first_node last_node : Node).

Local Abbreviation walk' fuel st := (walk fuel ph model G first_node last_node st).

(** From a node after the first: the copies of the rest of the chain
    follow, each fed by the one before, and then the output node. *)
Lemma walk_shape fuel : ∀ st gm prev,
  walk' fuel st = ret gm →
  attrs_below st →
  cur_node_copy st = Some prev →
  (∀ j, nth_user G (cur_node_orig st) j = Some first_node →
     ∃ i, (i < j)%nat ∧ nth_user G (cur_node_orig st) i = Some last_node) →
  ∃ k copies i_out out rest,
    nth_user G (cur_node_orig st) k = Some last_node
    ∧ (∀ j, (j < k)%nat → nth_user G (cur_node_orig st) j ≠ Some last_node)
    ∧ gm_graph gm = g st ++ rest
    ∧ (ph = false → Forall (λ n, is_placeholder n = false) rest)
    ∧ body (gm_graph gm) = body (g st) ++ copies ++ [(i_out, out)]
    ∧ Forall2 (λ n c, is_copy_of model G (gm_attrs gm) (cur_kwargs_copy st) n c.2)
        (chain G (cur_node_orig st) k) copies
    ∧ n_op out = output
    ∧ linked prev (copies ++ [(i_out, out)])
    ∧ (∀ x, x ∈ attrs st → x ∈ gm_attrs gm).
Proof.
  induction fuel as [|fuel IH]; intros st gm prev Hw Hb Hprev Hfar; [done|].
  assert (cur_node_orig st ≠ first_node) as Hne.
  { intros Heq. destruct (Hfar 0) as (i & Hi & _); [by rewrite <-Heq|lia]. }
  rewrite ExtractFacts.walk_S in Hw.
  destruct (copy_current _ _ _ _ _) as [[st1|e]|] eqn:Hc; [|done..].
  apply copy_current_shape in Hc
    as (names & c & Hg & Hph & Hnout & Hcopy & Hcc & Hb1 & Hsub & Hn & _ & Hlater);
    [|done].
  destruct (Hlater Hne) as (Hkw & Hno & prev' & others & Hprev' & Hargs).
  rewrite Hprev in Hprev'. injection Hprev' as <-.
  case_decide as Hlast.
  - unfold finish in Hw. rewrite Hcc in Hw. injection Hw as <-. simpl.
    exists 0, [(length (g st) + length names, c)], (length (g st1)),
      {| n_op := output; n_target := TName "output";
         n_args := [CNew (length (g st) + length names)]; n_kwargs := [] |},
      ((input_of <$> names) ++ [c]
       ++ [{| n_op := output; n_target := TName "output";
              n_args := [CNew (length (g st) + length names)]; n_kwargs := [] |}]).
    unfold g_output. split_and!.
    + simpl. by rewrite <-Hlast, Hn.
    + intros j Hj. lia.
    + rewrite Hg. by rewrite <-!app_assoc.
    + intros Hf. rewrite (Hno Hf). simpl. by repeat constructor.
    + rewrite body_snoc. simpl. rewrite Hg, body_round by done.
      by rewrite <-app_assoc.
    + simpl. constructor; [|constructor]. simpl. by rewrite <-Hkw.
    + done.
    + simpl. split; [by exists others|]. split; [by eexists|done].
    + done.
  - destruct (go_to_next G st1) as [st2|e] eqn:Hnext; [|done].
    apply go_to_next_ok in Hnext as (next & Hu & _ & ->). rewrite Hn in Hu.
    destruct (IH _ _ (length (g st) + length names) Hw)
      as (k & copies & i_out & out & rest & Hk & Hmin & Hgm & Hnoph & Hbody & Hall
          & Hout & Hlinked & Hsub2); [done|done|..].
    { simpl. intros j Hj. rewrite <-(ExtractFacts.nth_user_S G _ next) in Hj by done.
      destruct (Hfar _ Hj) as ([|i] & Hi & Hreach).
      - simpl in Hreach. rewrite Hn in Hlast. congruence.
      - exists i. split; [lia|]. by rewrite <-(ExtractFacts.nth_user_S G (cur_node_orig st) next). }
    simpl in *.
    exists (S k), ((length (g st) + length names, c) :: copies), i_out, out,
      ((input_of <$> names) ++ [c] ++ rest).
    split_and!.
    + by rewrite (ExtractFacts.nth_user_S G _ next).
    + intros [|j] Hj; [simpl; rewrite Hn in Hlast; congruence|].
      rewrite (ExtractFacts.nth_user_S G _ next) by done. apply Hmin. lia.
    + rewrite Hgm, Hg. by rewrite <-!app_assoc.
    + intros Hf. rewrite (Hno Hf). simpl. constructor; [done|]. by apply Hnoph.
    + rewrite Hbody, Hg, body_round by done. by rewrite <-app_assoc.
    + cbn [chain]. rewrite Hu. constructor.
      * simpl. rewrite <-Hkw. by eapply is_copy_of_mono.
      * by rewrite <-Hkw.
    + done.
    + simpl. split; [by exists others|done].
    + intros x Hx. by apply Hsub2, Hsub.
Qed.

End Loop.

(** The whole unit, for a call that returns it. *)
Lemma create_shape fuel ph model G first_node last_node gm :
  create_submodule_from_subgraph fuel ph model G first_node last_node = ret gm →
  ∃ k names kw i0 c0 copies i_out out rest,
    on_chain G first_node last_node k last_node
    ∧ gm_graph gm = (input_of <$> names) ++ [c0] ++ rest
    ∧ is_placeholder c0 = false
    ∧ length names = node_occurrences_of (G first_node)
    ∧ NoDup names
    ∧ (ph = false → Forall (λ n, is_placeholder n = false) rest)
    ∧ (∀ key, key ∈ kw.*1 ↔ key ∈ (kwargs (G first_node)).*1)
    ∧ body (gm_graph gm) = (i0, c0) :: copies ++ [(i_out, out)]
    ∧ Forall2 (λ n c, is_copy_of model G (gm_attrs gm) kw n c.2)
        (chain G first_node k) ((i0, c0) :: copies)
    ∧ n_op out = output
    ∧ linked i0 (copies ++ [(i_out, out)]).
Proof.
  destruct fuel as [|fuel]; [done|]. rewrite ExtractFacts.initial_round.
  set (st := {| cur_node_orig := first_node |}). intros Hw.
  rewrite ExtractFacts.walk_S in Hw.
  destruct (copy_current _ _ _ _ _) as [[st1|e]|] eqn:Hc; [|done..].
  pose proof Hc as Hc'.
  apply copy_current_shape in Hc
    as (names & c & Hg & Hph & Hnout & Hcopy & Hcc & Hb1 & Hsub & Hn & Hfirst & _).
  2: { intros name a H. by apply elem_of_nil in H. }
  destruct (Hfirst eq_refl) as [Hnd Hkeys]. simpl in Hg, Hcc, Hn, Hcopy.
  assert (length names = node_occurrences_of (G first_node)) as Hlen.
  { destruct (ExtractFacts.copy_current_cases ph model G first_node st)
      as [(st1' & Hc1 & _ & _ & _ & Hcount & _)|(e & Hc1 & _)];
      rewrite Hc1 in Hc'; [|done].
    injection Hc' as ->. rewrite decide_True in Hcount by done.
    rewrite Hg, count_round in Hcount by done. simpl in Hcount. lia. }
  case_decide as Hlast.
  - unfold finish in Hw. rewrite Hcc in Hw. injection Hw as <-. simpl.
    exists 0, names, (cur_kwargs_copy st1), (length names), c, [], (length (g st1)),
      {| n_op := output; n_target := TName "output";
         n_args := [CNew (length names)]; n_kwargs := [] |},
      [{| n_op := output; n_target := TName "output";
          n_args := [CNew (length names)]; n_kwargs := [] |}].
    unfold g_output. rewrite Hg. split_and!; try done.
    + split; [simpl; by rewrite <-Hlast, Hn|]. intros j Hj. lia.
    + by rewrite <-app_assoc.
    + intros _. by repeat constructor.
    + rewrite body_snoc. simpl. by rewrite body_first_round.
    + simpl. constructor; [done|constructor].
    + simpl. split; [by eexists|done].
  - destruct (go_to_next G st1) as [st2|e] eqn:Hnext; [|done].
    apply go_to_next_ok in Hnext as (next & Hu & Hlim & ->). rewrite Hn in Hu.
    simpl in Hu.
    assert (∃ k0, nth_user G next k0 = Some last_node) as [k0 Hreach].
    { destruct (ExtractFacts.walk_ok_reaches _ _ _ _ _ _ _ _ Hw) as (k0 & _ & Hr & _);
        [done|]. by exists k0. }
    destruct (walk_shape ph model G first_node last_node _ _ _ (length names) Hw)
      as (k & copies & i_out & out & rest & Hk & Hmin & Hgm & Hnoph & Hbody & Hall
          & Hout & Hlinked & Hsub2); [done|done|..].
    { simpl. intros j Hj.
      rewrite <-(ExtractFacts.nth_user_S G first_node next) in Hj, Hreach by done.
      destruct (ExtractFacts.nth_user_cycle G last_node first_node j (S k0) Hj Hreach)
        as ([|i] & Hi & Hi'); [simpl in Hi'; rewrite Hn in Hlast; congruence|].
      exists i. split; [lia|]. by rewrite <-(ExtractFacts.nth_user_S G first_node next). }
    simpl in *.
    exists (S k), names, (cur_kwargs_copy st1), (length names), c, copies, i_out, out, rest.
    rewrite Hgm, Hg. split_and!; try done.
    + split; [by rewrite (ExtractFacts.nth_user_S G first_node next)|].
      intros [|j] Hj; [simpl; rewrite Hn in Hlast; congruence|].
      rewrite (ExtractFacts.nth_user_S G first_node next) by done. apply Hmin. lia.
    + by rewrite <-app_assoc.
    + rewrite <-Hg, <-Hgm, Hbody, Hg. by rewrite body_first_round.
    + cbn [chain]. rewrite Hu. constructor; [|done]. simpl. by eapply is_copy_of_mono.
Qed.

(** A returned unit is the chain, copied.  Its operations, the nodes other
    than input placeholders, are the copies of the nodes of the chain from
    [first_node] to [last_node], in order, followed by the output node.  A
    copy has the operation kind of its node and its target, a module call
    the name of an attribute of the unit that holds the copy of the module;
    every copy after the first takes as its first argument the copy before
    it, and the output node returns the last copy. *)
Theorem unit_copies_the_chain fuel ph model G first_node last_node gm :
  create_submodule_from_subgraph fuel ph model G first_node last_node = ret gm →
  ∃ k kw i0 c0 copies i_out out,
    on_chain G first_node last_node k last_node
    ∧ body (gm_graph gm) = (i0, c0) :: copies ++ [(i_out, out)]
    ∧ Forall2 (λ n c, is_copy_of model G (gm_attrs gm) kw n c.2)
        (chain G first_node k) ((i0, c0) :: copies)
    ∧ n_op out = output
    ∧ linked i0 (copies ++ [(i_out, out)]).
Proof.
  intros Hgm. destruct (create_shape _ _ _ _ _ _ _ Hgm)
    as (k & names & kw & i0 & c0 & copies & i_out & out & rest & Hchain & _ & _ & _ & _
        & _ & _ & Hbody & Hall & Hout & Hlinked).
  by exists k, kw, i0, c0, copies, i_out, out.
Qed.

Lemma unit_copies_the_chain_witness :
  ∃ k kw i0 c0 copies i_out out,
    on_chain UnitExamples.linear_kw_relu "linear" "relu" k "relu"
    ∧ body (gm_graph UnitExamples.linear_kw_relu_unit)
      = (i0, c0) :: copies ++ [(i_out, out)]
    ∧ Forall2 (λ n c, is_copy_of ExtractExamples.linear_relu_model
                        UnitExamples.linear_kw_relu
                        (gm_attrs UnitExamples.linear_kw_relu_unit) kw n c.2)
        (chain UnitExamples.linear_kw_relu "linear" k) ((i0, c0) :: copies)
    ∧ n_op out = output
    ∧ linked i0 (copies ++ [(i_out, out)]).
Proof.
  apply (unit_copies_the_chain 101 false ExtractExamples.linear_relu_model
           UnitExamples.linear_kw_relu "linear" "relu" UnitExamples.linear_kw_relu_unit).
  by vm_compute.
Defined.

(** The keyword arguments of every copy are those made for the first node:
    one unit-wide dict with the keys of the first node's keyword arguments.
    The keyword arguments of the later nodes of the chain are not read. *)
Theorem unit_kwargs_are_the_first_nodes fuel ph model G first_node last_node gm :
  create_submodule_from_subgraph fuel ph model G first_node last_node = ret gm →
  ∃ kw, (∀ key, key ∈ kw.*1 ↔ key ∈ (kwargs (G first_node)).*1)
    ∧ ∀ i c, (i, c) ∈ body (gm_graph gm) → n_op c ≠ output → n_kwargs c = kw.
Proof.
  intros Hgm. destruct (create_shape _ _ _ _ _ _ _ Hgm)
    as (k & names & kw & i0 & c0 & copies & i_out & out & rest & _ & _ & _ & _ & _
        & _ & Hkeys & Hbody & Hall & Hout & _).
  exists kw. split; [done|]. intros i c Hin Hnout. rewrite Hbody in Hin.
  rewrite app_comm_cons in Hin. apply elem_of_app in Hin as [Hin|Hin].
  - apply list_elem_of_lookup in Hin as [j Hj].
    destruct (Forall2_lookup_r _ _ _ _ _ Hall Hj) as (n & _ & Hcopy).
    by destruct Hcopy as (_ & ? & _).
  - apply list_elem_of_singleton in Hin. injection Hin as -> ->. done.
Qed.

Lemma unit_kwargs_are_the_first_nodes_witness :
  ∃ kw, (∀ key, key ∈ kw.*1 ↔ key ∈ (kwargs (UnitExamples.linear_kw_relu "linear")).*1)
    ∧ ∀ i c, (i, c) ∈ body (gm_graph UnitExamples.linear_kw_relu_unit) →
        n_op c ≠ output → n_kwargs c = kw.
Proof.
  apply (unit_kwargs_are_the_first_nodes 101 false ExtractExamples.linear_relu_model
           UnitExamples.linear_kw_relu "linear" "relu" UnitExamples.linear_kw_relu_unit).
  by vm_compute.
Defined.

(** A returned unit starts with its input placeholders, one for each
    occurrence of a node among the arguments of the first node, under
    pairwise distinct names; the copy of the first node follows, and when
    the [GraphModule] has no [placeholder] method the unit has no other
    placeholder. *)
Theorem unit_inputs_are_distinct fuel ph model G first_node last_node gm :
  create_submodule_from_subgraph fuel ph model G first_node last_node = ret gm →
  ∃ names c0 rest,
    gm_graph gm = (input_of <$> names) ++ [c0] ++ rest
    ∧ is_placeholder c0 = false
    ∧ length names = node_occurrences_of (G first_node)
    ∧ NoDup names
    ∧ (ph = false → Forall (λ n, is_placeholder n = false) rest).
Proof.
  intros Hgm. destruct (create_shape _ _ _ _ _ _ _ Hgm)
    as (k & names & kw & i0 & c0 & copies & i_out & out & rest & _ & Hg & Hph & Hlen
        & Hnd & Hrest & _).
  by exists names, c0, rest.
Qed.

Lemma unit_inputs_are_distinct_witness :
  ∃ names c0 rest,
    gm_graph UnitExamples.linear_kw_relu_unit = (input_of <$> names) ++ [c0] ++ rest
    ∧ is_placeholder c0 = false
    ∧ length names = node_occurrences_of (UnitExamples.linear_kw_relu "linear")
    ∧ NoDup names
    ∧ (false = false → Forall (λ n, is_placeholder n = false) rest).
Proof.
  apply (unit_inputs_are_distinct 101 false ExtractExamples.linear_relu_model
           UnitExamples.linear_kw_relu "linear" "relu" UnitExamples.linear_kw_relu_unit).
  by vm_compute.
Defined.

(** *** Chains that are not copied *)

Lemma copy_args_node ph G first_node st st0 a :
  copy_args ph G first_node st = ret (st0, a) → cur_node_orig st0 = cur_node_orig st.
Proof.
  unfold copy_args. case_decide as Hfirst.
  - destruct (copy_first_args _ _ _) as [[[sa la]|e]|]; simpl; [|done..].
    destruct (copy_first_kwargs _ _ _) as [[[sk lk]|e]|]; simpl; [|done..].
    by intros [= <- _].
  - destruct (in_binary_functions _); [done|].
    destruct (cur_node_copy st); [|done].
    destruct (copy_rest_args _ _ _ _) as [[st' a']|e] eqn:Hrest; [|done].
    intros [= <- _]. by apply ExtractFacts.copy_rest_args_ok in Hrest as (? & _).
Qed.

Lemma copy_args_raise ph G first_node st e :
  copy_args ph G first_node st = raise e → e ≠ AssertionError OpNotSupportedYet.
Proof.
  unfold copy_args. case_decide as Hfirst.
  - destruct (ExtractFacts.copy_first_args_spec (args (G (cur_node_orig st)))
                {| in_g := g st; seen_names := ∅; old_name_to_new_node := [] |} [])
      as (sa & la & -> & _). simpl.
    destruct (ExtractFacts.copy_first_kwargs_spec (kwargs (G (cur_node_orig st)))
                {| in_g := in_g sa; seen_names := seen_names sa;
                   old_name_to_new_node := old_name_to_new_node sa |} [])
      as [(sk & lk & -> & _)| ->]; simpl; [done|]. by intros [= <-].
  - destruct (in_binary_functions _); [by intros [= <-]|].
    destruct (cur_node_copy st); [|by intros [= <-]].
    destruct (copy_rest_args _ _ _ _) as [[st' a']|e'] eqn:Hrest; [done|].
    intros [= <-]. by apply ExtractFacts.copy_rest_args_raise in Hrest as [-> | ->].
Qed.

(** A round that copies its node has found a supported operation kind,
    and the module of a module call. *)
Lemma copy_current_supported ph model G first_node st st1 :
  copy_current ph model G first_node st = ret st1 →
  supported (op (G (cur_node_orig st))) = true
  ∧ (op (G (cur_node_orig st)) = call_module →
     ∃ orig_mod, getattr_from_fqn model (target (G (cur_node_orig st))) = Ok orig_mod).
Proof.
  unfold copy_current. intros Hc.
  destruct (copy_args ph G first_node st) as [[[st0 a]|e]|] eqn:Ha; simpl in Hc; [|done..].
  apply copy_args_node in Ha. injection Hc as Hc. unfold copy_node in Hc.
  rewrite Ha in Hc. destruct (op (G (cur_node_orig st))); try done.
  split; [done|]. intros _.
  destruct (getattr_from_fqn model _) as [orig_mod|?]; [by eexists|done].
Qed.

Lemma copy_current_raise_unsupported ph model G first_node st :
  copy_current ph model G first_node st = raise (AssertionError OpNotSupportedYet) →
  supported (op (G (cur_node_orig st))) = false.
Proof.
  unfold copy_current. intros Hc.
  destruct (copy_args ph G first_node st) as [[[st0 a]|e]|] eqn:Ha; simpl in Hc; [| |done].
  - apply copy_args_node in Ha. injection Hc as Hc. unfold copy_node in Hc.
    rewrite Ha in Hc. destruct (op (G (cur_node_orig st))); try done.
    destruct (getattr_from_fqn model _) as [orig_mod|e] eqn:Hget; [done|].
    unfold getattr_from_fqn in Hget. repeat case_match; simplify_eq.
  - injection Hc as ->. by apply copy_args_raise in Ha.
Qed.

Section Blocked.
Context (ph : bool) (model : gmap string string) (G : FxGraph).
Context (first_node last_node : Node).

Local Abbreviation walk' fuel st := (walk fuel ph model G first_node last_node st).

(** A node at which every round ends with a signal ends the call with a
    signal, once the walk gets to it. *)
Lemma walk_blocked (B : Node → Prop) :
  (∀ fuel st r, B (cur_node_orig st) → walk' (S fuel) st = Finished r → ∃ e, r = Raise e) →
  ∀ k fuel st r n,
    nth_user G (cur_node_orig st) k = Some n →
    (∀ j, (j < k)%nat → nth_user G (cur_node_orig st) j ≠ Some last_node) →
    B n →
    walk' fuel st = Finished r →
    ∃ e, r = Raise e.
Proof.
  intros HB. induction k as [|k IH]; intros fuel st r n Hk Hmin Hn Hw;
    (destruct fuel as [|fuel]; [done|]).
  - injection Hk as <-. by eapply HB.
  - destruct (ExtractFacts.walk_round ph model G first_node last_node fuel st)
      as [(e & He & _)|[(st1 & gm' & _ & Hlast & _)|[(st1 & e & _ & _ & He & _)
         |(st1 & st2 & next & _ & Hlast & Hu & Hn2 & Hit & Hlim & _ & Hw2)]]].
    + rewrite He in Hw. injection Hw as <-. by eexists.
    + exfalso. apply (Hmin 0); [lia|]. simpl. by rewrite Hlast.
    + rewrite He in Hw. injection Hw as <-. by eexists.
    + rewrite Hw2 in Hw. rewrite (ExtractFacts.nth_user_S G _ next) in Hk by done.
      apply (IH fuel st2 r n); try done; rewrite Hn2; [done|].
      intros j Hj. rewrite <-(ExtractFacts.nth_user_S G _ next) by done. apply Hmin. lia.
Qed.

(** A signal of the call was raised in the round of some node of the
    chain. *)
Lemma walk_raise_at e (Q : Node → Prop) :
  (∀ st, copy_current ph model G first_node st = raise e → Q (cur_node_orig st)) →
  (∀ st1, go_to_next G st1 = Raise e → cur_node_orig st1 ≠ last_node →
     Q (cur_node_orig st1)) →
  ∀ fuel st, walk' fuel st = raise e →
    ∃ k n, nth_user G (cur_node_orig st) k = Some n
      ∧ (∀ j, (j < k)%nat → nth_user G (cur_node_orig st) j ≠ Some last_node)
      ∧ Q n.
Proof.
  intros H1 H2. induction fuel as [|fuel IH]; intros st Hw; [done|].
  rewrite ExtractFacts.walk_S in Hw.
  destruct (ExtractFacts.copy_current_cases ph model G first_node st)
    as [(st1 & Hc & Hn & _ & Hcopy & _)|(e0 & Hc & _)]; rewrite Hc in Hw.
  2: { injection Hw as ->. exists 0, (cur_node_orig st).
       split_and!; [done| |by apply H1]. intros j Hj. lia. }
  unfold ret in Hw. case_decide as Hlast.
  { destruct (ExtractFacts.finish_ok st1 Hcopy) as (gm & Hf & _).
    rewrite Hf in Hw. done. }
  destruct (go_to_next G st1) as [st2|e1] eqn:Hnext.
  - destruct (IH _ Hw) as (k & n & Hk & Hmin & HQ).
    apply go_to_next_ok in Hnext as (next & Hu & _ & ->). simpl in *.
    rewrite Hn in Hu. exists (S k), n.
    split_and!; [by rewrite (ExtractFacts.nth_user_S G _ next)| |done].
    intros [|j] Hj; [simpl; congruence|].
    rewrite (ExtractFacts.nth_user_S G _ next) by done. apply Hmin. lia.
  - injection Hw as ->. exists 0, (cur_node_orig st). rewrite <-Hn.
    split_and!; [done| |by apply H2]. intros j Hj. lia.
Qed.

End Blocked.

(** A node that cannot be copied ends the call with a signal: a node of
    the chain whose operation kind is none of [call_module],
    [call_function] and [call_method], or a module call whose target names
    no module of the model.  The assertion [not supported yet] is raised for
    a node of an unsupported kind only. *)
Theorem node_that_cannot_be_copied ph model G first_node last_node :
  (∀ fuel k n,
     (iteration_limit < fuel)%nat →
     on_chain G first_node last_node k n →
     supported (op (G n)) = false
     ∨ (op (G n) = call_module
        ∧ ∀ orig_mod, getattr_from_fqn model (target (G n)) ≠ Ok orig_mod) →
     ∃ e, create_submodule_from_subgraph fuel ph model G first_node last_node = raise e)
  ∧ (∀ fuel,
       create_submodule_from_subgraph fuel ph model G first_node last_node
       = raise (AssertionError OpNotSupportedYet) →
       ∃ k n, on_chain G first_node last_node k n ∧ supported (op (G n)) = false).
Proof.
  split.
  - intros fuel k n Hfuel [Hk Hmin] Hbad.
    destruct (ExtractFacts.walk_finishes ph model G first_node last_node fuel
                {| cur_node_orig := first_node; cur_name_idx := 0; cur_iteration := 0;
                   cur_node_copy := None; cur_kwargs_copy := []; g := []; attrs := [] |})
      as [r Hr]; [simpl; unfold iteration_limit; lia|simpl; lia|].
    pose proof Hr as Hr'.
    eapply (walk_blocked ph model G first_node last_node
              (λ n, supported (op (G n)) = false
                    ∨ (op (G n) = call_module
                       ∧ ∀ orig_mod, getattr_from_fqn model (target (G n)) ≠ Ok orig_mod)))
      in Hr' as [e ->]; [by exists e| |done..].
    intros fuel' st r' HB Hw. rewrite ExtractFacts.walk_S in Hw.
    destruct (copy_current _ _ _ _ _) as [[st1|e]|] eqn:Hc; [|by injection Hw as <-; eexists|done].
    apply copy_current_supported in Hc as [Hsup Hmod].
    destruct HB as [HB|[Hop HB]]; [congruence|].
    destruct (Hmod Hop) as [orig_mod Hget]. by destruct (HB orig_mod).
  - intros fuel Hw. unfold create_submodule_from_subgraph in Hw.
    apply (walk_raise_at ph model G first_node last_node _
             (λ n, supported (op (G n)) = false)) in Hw as (k & n & Hk & Hmin & HQ).
    + by exists k, n.
    + intros st. apply copy_current_raise_unsupported.
    + intros st1 Hnext _.
      destruct (ExtractFacts.go_to_next_cases G st1)
        as [(? & ? & H & _)|[[H _]|[H _]]]; rewrite H in Hnext; done.
Qed.

Lemma node_that_cannot_be_copied_witness :
  ∃ e, create_submodule_from_subgraph 101 false ExtractExamples.linear_relu_model
         UnitExamples.linear_get_attr "linear" "out" = raise e.
Proof.
  apply (proj1 (node_that_cannot_be_copied false ExtractExamples.linear_relu_model
                  UnitExamples.linear_get_attr "linear" "out") 101 1 "w").
  - unfold iteration_limit. lia.
  - split; [by vm_compute|]. intros j Hj. assert (j = 0) as -> by lia. by vm_compute.
  - by left.
Defined.

(** A node of the chain before [last_node] that has not exactly one user,
    be it several or none, ends the call with a signal, and the assertion
    [has more than 1 users] is raised for such a node only. *)
Theorem chain_needs_single_users ph model G first_node last_node :
  (∀ fuel k n,
     (iteration_limit < fuel)%nat →
     on_chain G first_node last_node k n →
     n ≠ last_node →
     (∀ next, users (G n) ≠ [next]) →
     ∃ e, create_submodule_from_subgraph fuel ph model G first_node last_node = raise e)
  ∧ (∀ fuel,
       create_submodule_from_subgraph fuel ph model G first_node last_node
       = raise (AssertionError MoreThanOneUser) →
       ∃ k n, on_chain G first_node last_node k n ∧ n ≠ last_node
         ∧ ∀ next, users (G n) ≠ [next]).
Proof.
  split.
  - intros fuel k n Hfuel [Hk Hmin] Hne Husers.
    destruct (ExtractFacts.walk_finishes ph model G first_node last_node fuel
                {| cur_node_orig := first_node; cur_name_idx := 0; cur_iteration := 0;
                   cur_node_copy := None; cur_kwargs_copy := []; g := []; attrs := [] |})
      as [r Hr]; [simpl; unfold iteration_limit; lia|simpl; lia|].
    pose proof Hr as Hr'.
    eapply (walk_blocked ph model G first_node last_node
              (λ n, n ≠ last_node ∧ ∀ next, users (G n) ≠ [next]))
      in Hr' as [e ->]; [by exists e| |done..].
    intros fuel' st r' [HB1 HB2] Hw.
    destruct (ExtractFacts.walk_round ph model G first_node last_node fuel' st)
      as [(e & He & _)|[(st1 & gm' & _ & Hlast & _)|[(st1 & e & _ & _ & He & _)
         |(st1 & st2 & next & _ & Hlast & Hu & _)]]].
    + rewrite He in Hw. injection Hw as <-. by eexists.
    + done.
    + rewrite He in Hw. injection Hw as <-. by eexists.
    + by destruct (HB2 next).
  - intros fuel Hw. unfold create_submodule_from_subgraph in Hw.
    apply (walk_raise_at ph model G first_node last_node _
             (λ n, n ≠ last_node ∧ ∀ next, users (G n) ≠ [next]))
      in Hw as (k & n & Hk & Hmin & HQ1 & HQ2).
    + by exists k, n.
    + intros st Hc.
      destruct (ExtractFacts.copy_current_cases ph model G first_node st)
        as [(? & Hc' & _)|(e & Hc' & _ & Hne & _)]; rewrite Hc' in Hc; [done|].
      by injection Hc as ->.
    + intros st1 Hnext Hlast. split; [done|].
      destruct (ExtractFacts.go_to_next_cases G st1)
        as [(? & ? & H & _)|[[H Hu]|[H _]]]; rewrite H in Hnext; done.
Qed.

Lemma chain_needs_single_users_witness :
  ∃ e, create_submodule_from_subgraph 101 false ExtractExamples.linear_relu_model
         UnitExamples.linear_fanout "linear" "relu" = raise e.
Proof.
  apply (proj1 (chain_needs_single_users false ExtractExamples.linear_relu_model
                  UnitExamples.linear_fanout "linear" "relu") 101 0 "linear").
  - unfold iteration_limit. lia.
  - split; [done|]. intros j Hj. lia.
  - done.
  - intros next. by vm_compute.
Defined.

End UnitFacts.
